(** * trpc-zustand: store adapters over an untyped tRPC client

    A shallow embedding of [createTRPCZustand] and of the three store creator
    factories ([queryStoreCreatorFactory], [mutationStoreCreatorFactory],
    [subscriptionStoreCreatorFactory]), of the demo client's stores, and of
    the live-query registry as the specification describes it, followed by
    the properties the specification states about them.

    Conventions of the embedding:
    - JavaScript values are an abstract type [Val]; a position that may hold
      [undefined] has type [option Val] ([None] is [undefined]).
    - The hosting container is zustand's: [set patch] merges the patch into
      the current state object, [get] reads it.
    - Each store method is a computation in a state monad over a [Machine]:
      the container's state object, the closure variable [stop], the locals
      that outlive a call ([stopped], the callbacks given to [subscribe]),
      and the chronological trace of the effects the method had on its
      collaborators ([set], the client, the transport, user callbacks,
      other stores).
    - An [async] method runs synchronously up to its [await]; the code after
      the [await] is a separate computation ([resume]), run when the
      client's promise settles.
    - User callbacks are opaque: calling one is recorded in the trace, and
      it returns normally. The thunk [refetchStores] and the [refetch] of
      the stores it returns are opaque too, and either return or throw. *)

From stdpp Require Import base option list strings gmap.

Set Default Proof Using "Type".

(** ** A state monad for the store methods *)

Definition Exec (S A : Type) : Type := S → A * S.

Global Instance Exec_ret {S} : MRet (Exec S) := λ A a s, (a, s).
Global Instance Exec_bind {S} : MBind (Exec S) :=
  λ A B f m s, let '(a, s') := m s in f a s'.

Definition when {S} (b : bool) (m : Exec S unit) : Exec S unit :=
  if b then m else mret tt.

(** ** JavaScript results *)

Module Js.
(** What a [throw] carries: [new Error(message)] or a caught value thrown
    again. *)
Inductive Thrown (Val : Type) : Type :=
| JsError (message : string)
| Raised (v : option Val).
Global Arguments JsError {Val} message.
Global Arguments Raised {Val} v.

(** The promise an [async] method returns, as its caller observes it: still
    waiting on the client's call number [k], or settled. *)
Inductive Promise (Val : Type) : Type :=
| Pending (k : nat)
| Resolved (v : option Val)
| Rejected (e : Thrown Val).
Global Arguments Pending {Val} k.
Global Arguments Resolved {Val} v.
Global Arguments Rejected {Val} e.

(** How the client's promise settles: [inl result] or [inr error]. *)
Definition Settlement (Val : Type) : Type := (option Val + option Val)%type.

(** A value that may also be [null] (the transport's [result.error]). *)
Inductive Nullable (Val : Type) : Type :=
| Null
| Undefined
| Value (v : Val).
Global Arguments Null {Val}.
Global Arguments Undefined {Val}.
Global Arguments Value {Val} v.

(** How a call into code the store does not own ends: it returns [a], or
    it throws the value [v]. *)
Inductive Completion (Val A : Type) : Type :=
| Normal (a : A)
| Throw (v : option Val).
Global Arguments Normal {Val A} a.
Global Arguments Throw {Val A} v.

(** [x ?? undefined] *)
Definition or_undefined {Val} (x : Nullable Val) : option Val :=
  match x with
  | Value v => Some v
  | Null | Undefined => None
  end.
End Js.
Import Js.

(** [xs.forEach(f)], where a call of [f] may throw: the loop ends at the
    first call that throws, and throws what that call threw. *)
Definition for_each {S Val A} (xs : list A)
    (f : A → Exec S (Completion Val unit)) : Exec S (Completion Val unit) :=
  foldr (λ x rest, r ← f x;
                   match r with
                   | Normal _ => rest
                   | Throw e => mret (Throw e)
                   end)
        (mret (Normal tt)) xs.

(** ** Query stores: [queryStoreCreatorFactory] *)

Module Query.
Section Store.
Context {Val : Type}.

Record QueryStoreOptions := {
  opt_enabled : option bool;
  opt_keepPreviousData : option bool
}.

(** The data part of the state object (the methods are the definitions
    below). *)
Record State := {
  enabled : bool;
  keepPreviousData : bool;
  input : option Val;
  loading : bool;
  data : option Val;
  error : option Val
}.

(** One entry [key: value] of the object literal passed to [set]. *)
Inductive Field :=
| PEnabled (b : bool)
| PInput (v : option Val)
| PLoading (b : bool)
| PData (v : option Val)
| PError (v : option Val).

Definition assign (st : State) (f : Field) : State :=
  match f with
  | PEnabled b =>
      {| enabled := b; keepPreviousData := keepPreviousData st;
         input := input st; loading := loading st; data := data st;
         error := error st |}
  | PInput v =>
      {| enabled := enabled st; keepPreviousData := keepPreviousData st;
         input := v; loading := loading st; data := data st;
         error := error st |}
  | PLoading b =>
      {| enabled := enabled st; keepPreviousData := keepPreviousData st;
         input := input st; loading := b; data := data st;
         error := error st |}
  | PData v =>
      {| enabled := enabled st; keepPreviousData := keepPreviousData st;
         input := input st; loading := loading st; data := v;
         error := error st |}
  | PError v =>
      {| enabled := enabled st; keepPreviousData := keepPreviousData st;
         input := input st; loading := loading st; data := data st;
         error := v |}
  end.

(** zustand's [set(partial)]: [Object.assign({}, state, partial)]. *)
Definition merge (st : State) (patch : list Field) : State :=
  fold_left assign patch st.

(** The closure held by the variable [stop]: the initial [() => {}], or the
    closure of call [k] that sets that call's local [stopped]. *)
Inductive StopFn :=
| Noop
| MarkStopped (k : nat).

(** The locals of one invocation of [query] that outlive its synchronous
    part: [stopped], and whether the code after [await] has run. *)
Record Call := {
  stopped : bool;
  settled : bool
}.

Inductive Effect :=
| ESet (patch : list Field)
| EClientQuery (k : nat) (path : string) (input opts : option Val).

Record Machine := {
  store : State;
  stop : StopFn;
  calls : list Call;
  trace : list Effect
}.

(** What the factory closes over: the path and the defaulted options. *)
Record Creator := {
  path : string;
  init_enabled : bool;
  init_keepPreviousData : bool
}.

Definition queryStoreCreatorFactory (path : string)
    (storeOpts : QueryStoreOptions) : Creator :=
  {| path := path;
     init_enabled := default true (opt_enabled storeOpts);
     init_keepPreviousData := default true (opt_keepPreviousData storeOpts) |}.

Definition initialState : list Field :=
  [PInput None; PLoading false; PData None; PError None].

(** Running the creator: [let stop = () => {}] and the returned object
    [{ enabled, keepPreviousData, ...initialState, ... }]. *)
Definition create (c : Creator) : Machine :=
  {| store :=
       {| enabled := init_enabled c;
          keepPreviousData := init_keepPreviousData c;
          input := None; loading := false; data := None; error := None |};
     stop := Noop;
     calls := [];
     trace := [] |}.

(** *** Primitives *)

Definition get : Exec Machine State := λ m, (store m, m).

Definition set (patch : list Field) : Exec Machine unit := λ m,
  (tt, {| store := merge (store m) patch; stop := stop m;
          calls := calls m; trace := trace m ++ [ESet patch] |}).

Definition mark_stopped (c : Call) : Call :=
  {| stopped := true; settled := settled c |}.

Definition mark_settled (c : Call) : Call :=
  {| stopped := stopped c; settled := true |}.

(** [stop()] *)
Definition call_stop : Exec Machine unit := λ m,
  (tt, match stop m with
       | Noop => m
       | MarkStopped k =>
           {| store := store m; stop := stop m;
              calls := alter mark_stopped k (calls m); trace := trace m |}
       end).

(** [let stopped = false]: a fresh local, named by the call's number. *)
Definition let_stopped : Exec Machine nat := λ m,
  (length (calls m),
   {| store := store m; stop := stop m;
      calls := calls m ++ [{| stopped := false; settled := false |}];
      trace := trace m |}).

(** [stop = f] *)
Definition assign_stop (f : StopFn) : Exec Machine unit := λ m,
  (tt, {| store := store m; stop := f; calls := calls m; trace := trace m |}).

(** Reading the local [stopped] of call [k]. *)
Definition read_stopped (k : nat) : Exec Machine bool := λ m,
  (from_option stopped true (calls m !! k), m).

(** [client.query(path, input, opts)] is issued for call [k]. *)
Definition client_query (k : nat) (p : string) (input opts : option Val)
    : Exec Machine unit := λ m,
  (tt, {| store := store m; stop := stop m; calls := calls m;
          trace := trace m ++ [EClientQuery k p input opts] |}).

(** The [await] of call [k] has returned. *)
Definition awaited (k : nat) : Exec Machine unit := λ m,
  (tt, {| store := store m; stop := stop m;
          calls := alter mark_settled k (calls m); trace := trace m |}).

(** *** Methods *)

Section Methods.
Variable c : Creator.

Definition enable : Exec Machine unit := set [PEnabled true].

Definition disable : Exec Machine unit :=
  call_stop;;
  set (PEnabled false :: initialState).

Definition toggle : Exec Machine unit :=
  st ← get;
  if enabled st then disable else enable.

Definition reset : Exec Machine unit :=
  call_stop;;
  set initialState.

(** [query], up to its [await]. *)
Definition query (inp opts : option Val) : Exec Machine (Promise Val) :=
  st ← get;
  if negb (enabled st) then mret (Rejected (JsError "Query is disabled"))
  else
    call_stop;;
    k ← let_stopped;
    assign_stop (MarkStopped k);;
    st ← get;
    set [PInput inp; PLoading true;
         PData (if keepPreviousData st then data st else None);
         PError None];;
    client_query k (path c) inp opts;;
    mret (Pending k).

(** [query], from the point where the awaited promise of call [k]
    settles: the rest of the [try] block, or the [catch] block. *)
Definition resume (k : nat) (r : Settlement Val)
    : Exec Machine (Promise Val) :=
  awaited k;;
  stopped ← read_stopped k;
  match r with
  | inl result =>
      when (negb stopped) (set [PLoading false; PData result]);;
      mret (Resolved result)
  | inr error =>
      when (negb stopped) (set [PLoading false; PError error]);;
      mret (Rejected (Raised error))
  end.

Definition refetch (opts : option Val) : Exec Machine (Promise Val) :=
  st ← get;
  query (input st) opts.

(** *** Runs *)

Inductive Event :=
| Enable
| Disable
| Toggle
| Reset
| DoQuery (inp opts : option Val)
| Refetch (opts : option Val)
| Settle (k : nat) (r : Settlement Val).

(** A promise settles once, and only for a call that was issued. *)
Definition awaiting (m : Machine) (k : nat) : bool :=
  from_option (λ cl, negb (settled cl)) false (calls m !! k).

Definition step (m : Machine) (ev : Event) : option Machine :=
  match ev with
  | Enable => Some (enable m).2
  | Disable => Some (disable m).2
  | Toggle => Some (toggle m).2
  | Reset => Some (reset m).2
  | DoQuery inp opts => Some (query inp opts m).2
  | Refetch opts => Some (refetch opts m).2
  | Settle k r => if awaiting m k then Some (resume k r m).2 else None
  end.

Fixpoint run (m : Machine) (evs : list Event) : option Machine :=
  match evs with
  | [] => Some m
  | ev :: evs => m' ← step m ev; run m' evs
  end.

Definition reachable (m : Machine) : Prop :=
  ∃ evs, run (create c) evs = Some m.
End Methods.
End Store.
Global Arguments State Val : clear implicits.
Global Arguments Field Val : clear implicits.
Global Arguments Effect Val : clear implicits.
Global Arguments Machine Val : clear implicits.
Global Arguments Event Val : clear implicits.
End Query.

(** ** Mutation stores: [mutationStoreCreatorFactory] *)

Module Mutation.
Section Store.
Context {Val : Type}.

(** An entry of the array [refetchStores()] returns: the store, and the
    value [store.getState().refetch()] throws, if it throws rather than
    returns its promise. *)
Record StoreApi := {
  api : Val;
  refetch_throws : option (option Val)
}.

(** [refetchStores] is a thunk that returns an array of stores or nothing
    ([void]), or throws. *)
Definition RefetchStores : Type :=
  unit → Completion Val (option (list StoreApi)).

Record MutationStoreOptions := {
  opt_enabled : option bool;
  opt_refetchStores : option RefetchStores
}.

Record State := {
  enabled : bool;
  input : option Val;
  loading : bool;
  data : option Val;
  error : option Val
}.

Inductive Field :=
| PEnabled (b : bool)
| PInput (v : option Val)
| PLoading (b : bool)
| PData (v : option Val)
| PError (v : option Val).

Definition assign (st : State) (f : Field) : State :=
  match f with
  | PEnabled b =>
      {| enabled := b; input := input st; loading := loading st;
         data := data st; error := error st |}
  | PInput v =>
      {| enabled := enabled st; input := v; loading := loading st;
         data := data st; error := error st |}
  | PLoading b =>
      {| enabled := enabled st; input := input st; loading := b;
         data := data st; error := error st |}
  | PData v =>
      {| enabled := enabled st; input := input st; loading := loading st;
         data := v; error := error st |}
  | PError v =>
      {| enabled := enabled st; input := input st; loading := loading st;
         data := data st; error := v |}
  end.

Definition merge (st : State) (patch : list Field) : State :=
  fold_left assign patch st.

Inductive StopFn :=
| Noop
| MarkStopped (k : nat).

Record Call := {
  stopped : bool;
  settled : bool
}.

(** [ERefetch store] is one evaluation of [store.getState().refetch()];
    the promise it returns, when it returns, is dropped by the caller. *)
Inductive Effect :=
| ESet (patch : list Field)
| EClientMutation (k : nat) (path : string) (input opts : option Val)
| ERefetch (store : Val).

Record Machine := {
  store : State;
  stop : StopFn;
  calls : list Call;
  trace : list Effect
}.

Record Creator := {
  path : string;
  init_enabled : bool;
  refetchStores : option RefetchStores
}.

Definition mutationStoreCreatorFactory (path : string)
    (storeOpts : MutationStoreOptions) : Creator :=
  {| path := path;
     init_enabled := default true (opt_enabled storeOpts);
     refetchStores := opt_refetchStores storeOpts |}.

Definition initialState : list Field :=
  [PInput None; PLoading false; PData None; PError None].

Definition create (c : Creator) : Machine :=
  {| store :=
       {| enabled := init_enabled c;
          input := None; loading := false; data := None; error := None |};
     stop := Noop;
     calls := [];
     trace := [] |}.

(** *** Primitives *)

Definition get : Exec Machine State := λ m, (store m, m).

Definition emit (e : Effect) : Exec Machine unit := λ m,
  (tt, {| store := store m; stop := stop m; calls := calls m;
          trace := trace m ++ [e] |}).

Definition set (patch : list Field) : Exec Machine unit := λ m,
  (tt, {| store := merge (store m) patch; stop := stop m;
          calls := calls m; trace := trace m ++ [ESet patch] |}).

Definition mark_stopped (c : Call) : Call :=
  {| stopped := true; settled := settled c |}.

Definition mark_settled (c : Call) : Call :=
  {| stopped := stopped c; settled := true |}.

Definition call_stop : Exec Machine unit := λ m,
  (tt, match stop m with
       | Noop => m
       | MarkStopped k =>
           {| store := store m; stop := stop m;
              calls := alter mark_stopped k (calls m); trace := trace m |}
       end).

Definition let_stopped : Exec Machine nat := λ m,
  (length (calls m),
   {| store := store m; stop := stop m;
      calls := calls m ++ [{| stopped := false; settled := false |}];
      trace := trace m |}).

Definition assign_stop (f : StopFn) : Exec Machine unit := λ m,
  (tt, {| store := store m; stop := f; calls := calls m; trace := trace m |}).

Definition read_stopped (k : nat) : Exec Machine bool := λ m,
  (from_option stopped true (calls m !! k), m).

Definition awaited (k : nat) : Exec Machine unit := λ m,
  (tt, {| store := store m; stop := stop m;
          calls := alter mark_settled k (calls m); trace := trace m |}).

(** *** Methods *)

Section Methods.
Variable c : Creator.

Definition enable : Exec Machine unit := set [PEnabled true].

Definition disable : Exec Machine unit :=
  call_stop;;
  set (PEnabled false :: initialState).

Definition toggle : Exec Machine unit :=
  st ← get;
  if enabled st then disable else enable.

Definition reset : Exec Machine unit :=
  call_stop;;
  set initialState.

(** [store.getState().refetch()] *)
Definition refetch_store (s : StoreApi)
    : Exec Machine (Completion Val unit) :=
  emit (ERefetch (api s));;
  mret (match refetch_throws s with
        | Some e => Throw e
        | None => Normal tt
        end).

(** [refetchStores?.()?.forEach(store => store.getState().refetch())] *)
Definition refetch_stores : Exec Machine (Completion Val unit) :=
  match refetchStores c with
  | None => mret (Normal tt)
  | Some thunk =>
      match thunk () with
      | Throw e => mret (Throw e)
      | Normal None => mret (Normal tt)
      | Normal (Some stores) => for_each stores refetch_store
      end
  end.

(** [mutate], up to its [await]. *)
Definition mutate (inp opts : option Val) : Exec Machine (Promise Val) :=
  st ← get;
  if negb (enabled st) then mret (Rejected (JsError "Mutation is disabled"))
  else
    call_stop;;
    k ← let_stopped;
    assign_stop (MarkStopped k);;
    set [PInput inp; PLoading true; PData None; PError None];;
    emit (EClientMutation k (path c) inp opts);;
    mret (Pending k).

(** The [catch] block of [mutate] for call [k]. *)
Definition catch (k : nat) (error : option Val)
    : Exec Machine (Promise Val) :=
  stopped ← read_stopped k;
  when (negb stopped) (set [PLoading false; PError error]);;
  mret (Rejected (Raised error)).

(** [mutate], from the point where the awaited promise of call [k]
    settles: the rest of the [try] block, whose refetch loop may throw into
    the [catch] block, or the [catch] block. *)
Definition resume (k : nat) (r : Settlement Val)
    : Exec Machine (Promise Val) :=
  awaited k;;
  stopped ← read_stopped k;
  match r with
  | inl result =>
      done ← (if negb stopped
              then set [PLoading false; PData result];; refetch_stores
              else mret (Normal tt));
      match done with
      | Normal _ => mret (Resolved result)
      | Throw error => catch k error
      end
  | inr error => catch k error
  end.

(** *** Runs *)

Inductive Event :=
| Enable
| Disable
| Toggle
| Reset
| Mutate (inp opts : option Val)
| Settle (k : nat) (r : Settlement Val).

Definition awaiting (m : Machine) (k : nat) : bool :=
  from_option (λ cl, negb (settled cl)) false (calls m !! k).

Definition step (m : Machine) (ev : Event) : option Machine :=
  match ev with
  | Enable => Some (enable m).2
  | Disable => Some (disable m).2
  | Toggle => Some (toggle m).2
  | Reset => Some (reset m).2
  | Mutate inp opts => Some (mutate inp opts m).2
  | Settle k r => if awaiting m k then Some (resume k r m).2 else None
  end.

Fixpoint run (m : Machine) (evs : list Event) : option Machine :=
  match evs with
  | [] => Some m
  | ev :: evs => m' ← step m ev; run m' evs
  end.

Definition reachable (m : Machine) : Prop :=
  ∃ evs, run (create c) evs = Some m.
End Methods.
End Store.
Global Arguments StoreApi Val : clear implicits.
Global Arguments RefetchStores Val : clear implicits.
Global Arguments MutationStoreOptions Val : clear implicits.
Global Arguments State Val : clear implicits.
Global Arguments Field Val : clear implicits.
Global Arguments Effect Val : clear implicits.
Global Arguments Machine Val : clear implicits.
Global Arguments Creator Val : clear implicits.
Global Arguments Event Val : clear implicits.
End Mutation.

(** ** Subscription stores: [subscriptionStoreCreatorFactory] *)

Module Subscription.
Section Store.
Context {Val : Type}.

Record SubscriptionStoreOptions := {
  opt_enabled : option bool
}.

(** [status] holds whatever string was last written to it. *)
Record State := {
  enabled : bool;
  input : option Val;
  status : string;
  data : option Val;
  error : option Val
}.

Inductive Field :=
| PEnabled (b : bool)
| PInput (v : option Val)
| PStatus (s : string)
| PData (v : option Val)
| PError (v : option Val).

Definition assign (st : State) (f : Field) : State :=
  match f with
  | PEnabled b =>
      {| enabled := b; input := input st; status := status st;
         data := data st; error := error st |}
  | PInput v =>
      {| enabled := enabled st; input := v; status := status st;
         data := data st; error := error st |}
  | PStatus s =>
      {| enabled := enabled st; input := input st; status := s;
         data := data st; error := error st |}
  | PData v =>
      {| enabled := enabled st; input := input st; status := status st;
         data := v; error := error st |}
  | PError v =>
      {| enabled := enabled st; input := input st; status := status st;
         data := data st; error := v |}
  end.

Definition merge (st : State) (patch : list Field) : State :=
  fold_left assign patch st.

(** The second argument of [subscribe]: the three optional callbacks
    (function values) and the remaining request options. *)
Record SubscribeOpts := {
  onStarted : option Val;
  onData : option Val;
  onError : option Val;
  rest : option Val
}.

(** The default [{}] of the second argument. *)
Definition no_opts : SubscribeOpts :=
  {| onStarted := None; onData := None; onError := None; rest := None |}.

(** The argument of [onConnectionStateChange]. *)
Record ConnectionState := {
  cs_state : string;
  cs_error : Nullable Val
}.

(** The closure held by [stop]: the initial [() => {}], or the
    [unsubscribe] of the transport's handle for subscription [k]. *)
Inductive StopFn :=
| Noop
| Unsubscribe (k : nat).

Inductive Effect :=
| ESet (patch : list Field)
| EClientSubscription (k : nat) (path : string) (input opts : option Val)
| EUnsubscribe (k : nat)
| ECall (callback : Val) (args : list (option Val)).

(** [subs] holds, for each subscription opened on the client, the callbacks
    its handlers closed over. *)
Record Machine := {
  store : State;
  stop : StopFn;
  subs : list SubscribeOpts;
  trace : list Effect
}.

Record Creator := {
  path : string;
  init_enabled : bool
}.

Definition subscriptionStoreCreatorFactory (path : string)
    (storeOpts : SubscriptionStoreOptions) : Creator :=
  {| path := path;
     init_enabled := default true (opt_enabled storeOpts) |}.

Definition initialState : list Field :=
  [PInput None; PStatus "idle"; PData None; PError None].

Definition create (c : Creator) : Machine :=
  {| store :=
       {| enabled := init_enabled c;
          input := None; status := "idle"; data := None; error := None |};
     stop := Noop;
     subs := [];
     trace := [] |}.

(** *** Primitives *)

Definition get : Exec Machine State := λ m, (store m, m).

Definition emit (e : Effect) : Exec Machine unit := λ m,
  (tt, {| store := store m; stop := stop m; subs := subs m;
          trace := trace m ++ [e] |}).

Definition set (patch : list Field) : Exec Machine unit := λ m,
  (tt, {| store := merge (store m) patch; stop := stop m;
          subs := subs m; trace := trace m ++ [ESet patch] |}).

(** Calling a function of type [StopFn]. *)
Definition invoke (f : StopFn) : Exec Machine unit :=
  match f with
  | Noop => mret tt
  | Unsubscribe k => emit (EUnsubscribe k)
  end.

(** [stop()] *)
Definition call_stop : Exec Machine unit := λ m, invoke (stop m) m.

(** [stop = f] *)
Definition assign_stop (f : StopFn) : Exec Machine unit := λ m,
  (tt, {| store := store m; stop := f; subs := subs m; trace := trace m |}).

(** Reading the variable [stop]. *)
Definition read_stop : Exec Machine StopFn := λ m, (stop m, m).

(** [client.subscription(path, input, { ...opts, onStarted, ... })]: the
    transport hands back handle number [k]. *)
Definition client_subscription (p : string) (inp : option Val)
    (o : SubscribeOpts) : Exec Machine nat := λ m,
  (length (subs m),
   {| store := store m; stop := stop m; subs := subs m ++ [o];
      trace :=
        trace m ++ [EClientSubscription (length (subs m)) p inp (rest o)] |}).

(** [callback?.(...args)] *)
Definition call_opt (callback : option Val) (args : list (option Val))
    : Exec Machine unit :=
  match callback with
  | None => mret tt
  | Some f => emit (ECall f args)
  end.

(** *** Methods *)

Section Methods.
Variable c : Creator.

Definition enable : Exec Machine unit := set [PEnabled true].

Definition disable : Exec Machine unit :=
  call_stop;;
  set (PEnabled false :: initialState).

Definition toggle : Exec Machine unit :=
  st ← get;
  if enabled st then disable else enable.

Definition reset : Exec Machine unit :=
  call_stop;;
  set initialState.

(** The four handlers passed to the client, for callbacks [o]. *)
Definition handle_onStarted (o : SubscribeOpts) : Exec Machine unit :=
  set [PStatus "pending"; PError None];;
  call_opt (onStarted o) [].

Definition handle_onData (o : SubscribeOpts) (d : option Val)
    : Exec Machine unit :=
  set [PStatus "pending"; PData d; PError None];;
  call_opt (onData o) [d].

Definition handle_onError (o : SubscribeOpts) (err : option Val)
    : Exec Machine unit :=
  set [PStatus "error"; PError err];;
  call_opt (onError o) [err].

Definition handle_onConnectionStateChange (result : ConnectionState)
    : Exec Machine unit :=
  set [PStatus (cs_state result); PError (or_undefined (cs_error result))].

(** [subscribe]: throws, or returns the cancel function. *)
Definition subscribe (inp : option Val) (opts : option SubscribeOpts)
    : Exec Machine (Thrown Val + StopFn) :=
  let o := default no_opts opts in
  st ← get;
  if negb (enabled st) then mret (inl (JsError "Subscription is disabled"))
  else
    call_stop;;
    set [PInput inp; PStatus "connecting"; PData None; PError None];;
    k ← client_subscription (path c) inp o;
    assign_stop (Unsubscribe k);;
    f ← read_stop;
    mret (inr f).

(** *** Runs *)

(** Calls of the store's methods, calls of a cancel function returned by
    [subscribe], and the transport's calls of the handlers of
    subscription [k]. *)
Inductive Event :=
| Enable
| Disable
| Toggle
| Reset
| Subscribe (inp : option Val) (opts : option SubscribeOpts)
| Cancel (f : StopFn)
| Started (k : nat)
| Data (k : nat) (d : option Val)
| Failed (k : nat) (err : option Val)
| ConnectionStateChange (k : nat) (result : ConnectionState).

(** The transport only calls handlers it was given. *)
Definition on_sub (m : Machine) (k : nat)
    (h : SubscribeOpts → Exec Machine unit) : option Machine :=
  o ← subs m !! k; Some (h o m).2.

Definition step (m : Machine) (ev : Event) : option Machine :=
  match ev with
  | Enable => Some (enable m).2
  | Disable => Some (disable m).2
  | Toggle => Some (toggle m).2
  | Reset => Some (reset m).2
  | Subscribe inp opts => Some (subscribe inp opts m).2
  | Cancel f => Some (invoke f m).2
  | Started k => on_sub m k handle_onStarted
  | Data k d => on_sub m k (λ o, handle_onData o d)
  | Failed k err => on_sub m k (λ o, handle_onError o err)
  | ConnectionStateChange k result =>
      on_sub m k (λ _, handle_onConnectionStateChange result)
  end.

Fixpoint run (m : Machine) (evs : list Event) : option Machine :=
  match evs with
  | [] => Some m
  | ev :: evs => m' ← step m ev; run m' evs
  end.

Definition reachable (m : Machine) : Prop :=
  ∃ evs, run (create c) evs = Some m.
End Methods.
End Store.
Global Arguments State Val : clear implicits.
Global Arguments Field Val : clear implicits.
Global Arguments SubscribeOpts Val : clear implicits.
Global Arguments ConnectionState Val : clear implicits.
Global Arguments Effect Val : clear implicits.
Global Arguments Machine Val : clear implicits.
Global Arguments Event Val : clear implicits.
End Subscription.

(** ** Dispatch: [createTRPCZustand] *)

Module Dispatch.
Section Proxy.
Context {Val : Type}.

(** The options object handed to a store factory, before the factory
    destructures it. *)
Record StoreOpts := {
  enabled : option bool;
  keepPreviousData : option bool;
  refetchStores : option (Mutation.RefetchStores Val)
}.

(** [{}] *)
Definition empty_opts : StoreOpts :=
  {| enabled := None; keepPreviousData := None; refetchStores := None |}.

(** A proxy is determined by the path it closes over. *)
Record Proxy := createProxy { proxy_path : list string }.

(** What calling a proxy returns. *)
Inductive Applied :=
| Undefined
| QueryStore (c : Query.Creator)
| MutationStore (c : Mutation.Creator Val)
| SubscriptionStore (c : Subscription.Creator).

(** The [get] trap. *)
Definition get (p : Proxy) (prop : string) : Proxy :=
  createProxy (proxy_path p ++ [prop]).

(** [path.slice(0, -1).join(".")] *)
Definition opPath (path : list string) : string :=
  String.concat "." (removelast path).

(** The [apply] trap; [args] is the argument list of the call. *)
Definition apply (p : Proxy) (args : list (option StoreOpts)) : Applied :=
  let storeOpts := default empty_opts (mjoin (head args)) in
  let path := proxy_path p in
  let op := last path in
  if decide (op = Some "queryStore") then
    QueryStore
      (Query.queryStoreCreatorFactory (opPath path)
         {| Query.opt_enabled := enabled storeOpts;
            Query.opt_keepPreviousData := keepPreviousData storeOpts |})
  else if decide (op = Some "mutationStore") then
    MutationStore
      (Mutation.mutationStoreCreatorFactory (opPath path)
         {| Mutation.opt_enabled := enabled storeOpts;
            Mutation.opt_refetchStores := refetchStores storeOpts |})
  else if decide (op = Some "subscriptionStore") then
    SubscriptionStore
      (Subscription.subscriptionStoreCreatorFactory (opPath path)
         {| Subscription.opt_enabled := enabled storeOpts |})
  else Undefined.

Definition createTRPCZustand : Proxy := createProxy [].

(** Reading the properties [props] one after the other. *)
Definition traverse (p : Proxy) (props : list string) : Proxy :=
  foldl get p props.
End Proxy.
Global Arguments StoreOpts Val : clear implicits.
Global Arguments Applied Val : clear implicits.
End Dispatch.

(** ** The live-query registry *)

Module LiveStore.
(** The argument [keys : string | string[]]. *)
Inductive Keys :=
| One (key : string)
| Many (keys : list string).

(** Modelled from the spec: key normalization of the live-query registry,
    whose implementation is not among the sources. A single key or an
    array of keys becomes an ordered list of distinct strings. *)
Definition normalize (keys : Keys) : list string :=
  match keys with
  | One key => [key]
  | Many keys => remove_dups keys
  end.

(** Modelled from the spec: the registry of the live-query layer, whose
    implementation is not among the sources. A registration is named by
    the number it got when it was added; [index] maps a key to the set of
    registrations under it, and [reruns] records, in order, each
    invocation of a registration's re-run callback. *)
Record Registry := {
  index : gmap string (gset nat);
  next : nat;
  reruns : list nat
}.

Definition empty : Registry :=
  {| index := ∅; next := 0; reruns := [] |}.

(** The registrations under one key. *)
Definition under (idx : gmap string (gset nat)) (key : string) : gset nat :=
  default ∅ (idx !! key).

(** Modelled from the spec: [register(keys, rerun)] inserts a new
    registration under every normalized key and returns its name, from
    which the deregistration handle is built. *)
Definition register (keys : Keys) (r : Registry) : nat * Registry :=
  let id := next r in
  (id,
   {| index :=
        foldr (λ key idx, <[key := {[id]} ∪ under idx key]> idx) (index r)
          (normalize keys);
      next := S id;
      reruns := reruns r |}).

(** Modelled from the spec: the handle returned by [register] removes the
    registration from every key it was added to. *)
Definition deregister (keys : Keys) (id : nat) (r : Registry) : Registry :=
  {| index :=
       foldr (λ key idx, <[key := under idx key ∖ {[id]}]> idx) (index r)
         (normalize keys);
     next := next r;
     reruns := reruns r |}.

(** The distinct registrations found under the union of the keys. *)
Definition matching (r : Registry) (keys : Keys) : gset nat :=
  ⋃ (under (index r) <$> normalize keys).

(** Modelled from the spec: [invalidate(keys)] invokes the re-run callback
    of every distinct registration found under the union of the normalized
    keys. *)
Definition invalidate (keys : Keys) (r : Registry) : Registry :=
  {| index := index r;
     next := next r;
     reruns := reruns r ++ elements (matching r keys) |}.

(** Modelled from the spec: [count(keys)] is the number of distinct
    registrations found under the union of the normalized keys. *)
Definition count (keys : Keys) (r : Registry) : nat :=
  size (matching r keys).
End LiveStore.

(** ** The demo client's stores *)

(** The stores of the demo client, with strings standing for JavaScript
    values. *)
Module Demo.
Definition Val : Type := string.

Definition trpc : Dispatch.Proxy := Dispatch.createTRPCZustand.

(** [trpc.todos.getTodos.queryStore()] *)
Definition todosStore : Query.Creator :=
  Query.queryStoreCreatorFactory "todos.getTodos"
    {| Query.opt_enabled := None; Query.opt_keepPreviousData := None |}.

(** [useTodosStore], as an entry of a [refetchStores] array: the [refetch]
    of a query store is an [async] function, which returns its promise and
    does not throw. *)
Definition useTodosStore : Mutation.StoreApi Val :=
  {| Mutation.api := "useTodosStore"; Mutation.refetch_throws := None |}.

(** [trpc.todos.addTodo.mutationStore({ refetchStores: () =>
    [useTodosStore] })] *)
Definition addTodoStore : Mutation.Creator Val :=
  Mutation.mutationStoreCreatorFactory "todos.addTodo"
    {| Mutation.opt_enabled := None;
       Mutation.opt_refetchStores :=
         Some (λ _, Normal (Some [useTodosStore])) |}.

(** [trpc.todos.streamTodos.subscriptionStore()] *)
Definition streamTodosStore : Subscription.Creator :=
  Subscription.subscriptionStoreCreatorFactory "todos.streamTodos"
    {| Subscription.opt_enabled := None |}.
End Demo.

(** ** The demo server's router *)

(** The resolvers of [appRouter], over the module-level array [todos]. A
    resolver takes the array and returns its result together with the array
    it leaves. *)
Module Server.
Record Todo := {
  id : string;
  title : string;
  listId : string
}.

(** [new TRPCError({ code, message })] *)
Record TRPCError := {
  code : string;
  message : string
}.

(** [todos.getTodos]: [todos.filter(todo => todo.listId === input.listId)],
    evaluated once the resolver's delay has passed. *)
Definition getTodos (input_listId : string) (todos : list Todo) : list Todo :=
  filter (λ todo, listId todo = input_listId) todos.

(** [todos.addTodo]; [uuid] is what [crypto.randomUUID()] returns. *)
Definition addTodo (uuid : string) (input_title input_listId : string)
    (todos : list Todo) : Todo * list Todo :=
  let todo := {| id := uuid; title := input_title; listId := input_listId |} in
  (todo, todos ++ [todo]).

(** [todos.deleteTodo]: [findIndex], then either the [throw] or
    [todos[index]] and [todos.splice(index, 1)]. [list_find] gives the first
    index that satisfies the test together with the element there. *)
Definition deleteTodo (input_id : string) (todos : list Todo)
    : (TRPCError + Todo) * list Todo :=
  match list_find (λ todo, id todo = input_id) todos with
  | None =>
      (inl {| code := "NOT_FOUND"; message := "Todo not found" |}, todos)
  | Some (index, deleted) => (inr deleted, delete index todos)
  end.
End Server.

(** * Properties *)

(** ** Query stores *)

Module QueryFacts.
Import Query.
Section Facts.
Context {Val : Type}.
Implicit Types (m : Machine Val) (c : Creator) (k : nat) (l : list Call).

Ltac exec :=
  unfold step, query, refetch, resume, enable, disable, toggle, reset, when,
    get, set, call_stop, let_stopped, assign_stop, read_stopped,
    client_query, awaited, mbind, mret, Exec_bind, Exec_ret;
  simpl.

(** The local [stopped] of call [k] exists and is [true]. *)
Definition stopped_in l k : Prop :=
  ∃ cl, l !! k = Some cl ∧ stopped cl = true.

Definition is_stopped m k : Prop := stopped_in (calls m) k.

(** At most the call whose closure is in [stop] can still write, and only
    while the store is enabled. *)
Definition wf m : Prop :=
  ∀ k cl, calls m !! k = Some cl → stopped cl = false →
    stop m = MarkStopped k ∧ enabled (store m) = true.

(** The locals after [stop()]. *)
Definition stop_calls m : list Call :=
  match stop m with
  | Noop => calls m
  | MarkStopped j => alter mark_stopped j (calls m)
  end.

Lemma q_stopped_in_alter_stopped l j k :
  stopped_in l k → stopped_in (alter mark_stopped j l) k.
Proof.
  intros (cl & Hk & Hs). destruct (decide (j = k)) as [->|Hne].
  - exists (mark_stopped cl). by rewrite list_lookup_alter_eq, Hk.
  - exists cl. by rewrite list_lookup_alter_ne.
Qed.

Lemma q_stopped_in_alter_settled l j k :
  stopped_in l k → stopped_in (alter mark_settled j l) k.
Proof.
  intros (cl & Hk & Hs). destruct (decide (j = k)) as [->|Hne].
  - exists (mark_settled cl). by rewrite list_lookup_alter_eq, Hk.
  - exists cl. by rewrite list_lookup_alter_ne.
Qed.

Lemma q_stopped_in_app l l' k : stopped_in l k → stopped_in (l ++ l') k.
Proof.
  intros (cl & Hk & Hs). exists cl. split; [|done].
  by apply lookup_app_l_Some.
Qed.

Lemma q_stopped_in_stop_calls m k :
  is_stopped m k → stopped_in (stop_calls m) k.
Proof.
  unfold is_stopped, stop_calls. destruct (stop m); [done|].
  apply q_stopped_in_alter_stopped.
Qed.

Lemma q_stop_calls_length m : length (stop_calls m) = length (calls m).
Proof. unfold stop_calls. destruct (stop m); [done|]. apply length_alter. Qed.

(** After [stop()], no earlier call can write any more. *)
Lemma q_stop_calls_all m k :
  wf m → k < length (calls m) → stopped_in (stop_calls m) k.
Proof.
  intros Hwf Hk. apply lookup_lt_is_Some in Hk as [cl Hcl].
  destruct (stopped cl) eqn:Hs.
  { apply q_stopped_in_stop_calls. by exists cl. }
  destruct (Hwf k cl Hcl Hs) as [Hstop _].
  unfold stop_calls. rewrite Hstop. exists (mark_stopped cl).
  by rewrite list_lookup_alter_eq, Hcl.
Qed.

Lemma q_query_disabled c m inp opts :
  enabled (store m) = false →
  query c inp opts m = (Rejected (JsError "Query is disabled"), m).
Proof. intros H. exec. by rewrite H. Qed.

(** The synchronous part of an admitted [query], spelled out. *)
Lemma q_query_enabled c m inp opts :
  enabled (store m) = true →
  query c inp opts m =
    (Pending (length (calls m)),
     {| store :=
          merge (store m)
            [PInput inp; PLoading true;
             PData (if keepPreviousData (store m) then data (store m)
                    else None);
             PError None];
        stop := MarkStopped (length (calls m));
        calls := stop_calls m ++ [{| stopped := false; settled := false |}];
        trace :=
          trace m ++
            [ESet [PInput inp; PLoading true;
                   PData (if keepPreviousData (store m) then data (store m)
                          else None);
                   PError None];
             EClientQuery (length (calls m)) (path c) inp opts] |}).
Proof.
  intros H. exec. rewrite H. simpl. unfold stop_calls.
  destruct (stop m) eqn:E; simpl;
    rewrite ?length_alter, <- ?app_assoc, ?H, ?E; reflexivity.
Qed.

Lemma q_enable_eq m :
  enable m =
    (tt, {| store := merge (store m) [PEnabled true]; stop := stop m;
            calls := calls m; trace := trace m ++ [ESet [PEnabled true]] |}).
Proof. done. Qed.

Lemma q_disable_eq m :
  disable m =
    (tt, {| store := merge (store m) (PEnabled false :: initialState);
            stop := stop m; calls := stop_calls m;
            trace := trace m ++ [ESet (PEnabled false :: initialState)] |}).
Proof.
  exec. unfold stop_calls.
  destruct (stop m) eqn:E; simpl; rewrite ?E; reflexivity.
Qed.

Lemma q_reset_eq m :
  reset m =
    (tt, {| store := merge (store m) initialState;
            stop := stop m; calls := stop_calls m;
            trace := trace m ++ [ESet initialState] |}).
Proof.
  exec. unfold stop_calls.
  destruct (stop m) eqn:E; simpl; rewrite ?E; reflexivity.
Qed.

Lemma q_toggle_eq m :
  toggle m = if enabled (store m) then disable m else enable m.
Proof.
  unfold toggle, get, mbind, Exec_bind. simpl.
  by destruct (enabled (store m)).
Qed.

Lemma q_refetch_eq c opts m :
  refetch c opts m = query c (input (store m)) opts m.
Proof. reflexivity. Qed.

(** What the caller of [query] sees when the client's promise settles. *)
Definition outcome (r : Settlement Val) : Promise Val :=
  match r with
  | inl result => Resolved result
  | inr err => Rejected (Raised err)
  end.

(** The patch written when the client's promise settles. *)
Definition settle_patch (r : Settlement Val) : list (Field Val) :=
  match r with
  | inl result => [PLoading false; PData result]
  | inr err => [PLoading false; PError err]
  end.

Lemma q_resume_eq k r m :
  resume k r m =
    (outcome r,
     if from_option stopped true (calls m !! k)
     then {| store := store m; stop := stop m;
             calls := alter mark_settled k (calls m); trace := trace m |}
     else {| store := merge (store m) (settle_patch r); stop := stop m;
             calls := alter mark_settled k (calls m);
             trace := trace m ++ [ESet (settle_patch r)] |}).
Proof.
  exec. rewrite list_lookup_alter_eq.
  destruct (calls m !! k) as [[[] ?]|], r; reflexivity.
Qed.

(** The code after the [await] of a stopped call only returns or throws. *)
Lemma q_resume_stopped m k r :
  is_stopped m k →
  store (resume k r m).2 = store m ∧
  trace (resume k r m).2 = trace m ∧
  stop (resume k r m).2 = stop m.
Proof.
  intros (cl & Hk & Hs). rewrite q_resume_eq, Hk. simpl. by rewrite Hs.
Qed.

Lemma q_step_stopped c m ev m' k :
  step c m ev = Some m' → is_stopped m k → is_stopped m' k.
Proof.
  unfold is_stopped. intros Hstep Hk.
  assert (Hq : ∀ inp opts, stopped_in (calls (query c inp opts m).2) k).
  { intros inp opts. destruct (enabled (store m)) eqn:He.
    - rewrite q_query_enabled by done. simpl.
      by apply q_stopped_in_app, q_stopped_in_stop_calls.
    - by rewrite q_query_disabled. }
  destruct ev; cbn [step] in Hstep;
    rewrite ?q_toggle_eq, ?q_refetch_eq in Hstep.
  - apply (inj Some) in Hstep as <-. done.
  - apply (inj Some) in Hstep as <-. rewrite q_disable_eq. simpl.
    by apply q_stopped_in_stop_calls.
  - apply (inj Some) in Hstep as <-. destruct (enabled (store m)).
    + rewrite q_disable_eq. by apply q_stopped_in_stop_calls.
    + done.
  - apply (inj Some) in Hstep as <-. rewrite q_reset_eq. simpl.
    by apply q_stopped_in_stop_calls.
  - apply (inj Some) in Hstep as <-. apply Hq.
  - apply (inj Some) in Hstep as <-. apply Hq.
  - destruct (awaiting m k0); [|done]. apply (inj Some) in Hstep as <-.
    rewrite q_resume_eq. simpl.
    destruct (from_option _ _ _); by apply q_stopped_in_alter_settled.
Qed.

Lemma q_run_stopped c evs : ∀ m m' k,
  run c m evs = Some m' → is_stopped m k → is_stopped m' k.
Proof.
  induction evs as [|ev evs IH]; simpl; intros m m' k Hrun Hk.
  - by injection Hrun as <-.
  - destruct (step c m ev) as [m1|] eqn:Hstep; [|done]. simpl in Hrun.
    eapply IH; [done|]. by eapply q_step_stopped.
Qed.

Lemma q_lookup_alter_settled l j k cl :
  alter mark_settled j l !! k = Some cl →
  ∃ cl0, l !! k = Some cl0 ∧ stopped cl0 = stopped cl.
Proof.
  destruct (decide (j = k)) as [->|Hne].
  - rewrite list_lookup_alter_eq. destruct (l !! k) as [cl0|]; [|done].
    simpl. intros [= <-]. by exists cl0.
  - rewrite list_lookup_alter_ne by done. intros H. by exists cl.
Qed.

Lemma q_wf_create c : wf (create c).
Proof. intros k cl H. done. Qed.

(** Once every local is [true], [wf] holds whatever [stop] and the store
    are. *)
Lemma q_wf_all_stopped m :
  (∀ k, k < length (calls m) → is_stopped m k) → wf m.
Proof.
  intros Hall k cl Hk Hs.
  destruct (Hall k) as (cl' & Hk' & Hs'); [by eapply lookup_lt_Some|].
  congruence.
Qed.

Lemma q_query_wf c m inp opts : wf m → wf (query c inp opts m).2.
Proof.
  intros Hwf. destruct (enabled (store m)) eqn:He.
  2: { by rewrite q_query_disabled. }
  rewrite q_query_enabled by done. intros k cl Hk Hs. simpl in *.
  destruct (decide (k < length (calls m))) as [Hlt|Hge].
  - destruct (q_stop_calls_all m k Hwf Hlt) as (cl' & Hk' & Hs').
    rewrite lookup_app_l in Hk by (by rewrite q_stop_calls_length).
    congruence.
  - apply lookup_lt_Some in Hk as Hlen.
    rewrite length_app, q_stop_calls_length in Hlen. simpl in Hlen.
    split; [f_equal; lia|done].
Qed.

Lemma q_step_wf c m ev m' : step c m ev = Some m' → wf m → wf m'.
Proof.
  intros Hstep Hwf.
  assert (Hstopall : ∀ st tr,
    wf {| store := st; stop := stop m; calls := stop_calls m; trace := tr |}).
  { intros st tr. apply q_wf_all_stopped. simpl. intros k Hk.
    apply q_stop_calls_all; [done|]. by rewrite q_stop_calls_length in Hk. }
  destruct ev; cbn [step] in Hstep;
    rewrite ?q_toggle_eq, ?q_refetch_eq in Hstep.
  - apply (inj Some) in Hstep as <-. intros k cl Hk Hs.
    split; [apply (Hwf k cl Hk Hs)|done].
  - apply (inj Some) in Hstep as <-. rewrite q_disable_eq. apply Hstopall.
  - apply (inj Some) in Hstep as <-. destruct (enabled (store m)).
    + rewrite q_disable_eq. apply Hstopall.
    + intros k cl Hk Hs. split; [apply (Hwf k cl Hk Hs)|done].
  - apply (inj Some) in Hstep as <-. rewrite q_reset_eq. apply Hstopall.
  - apply (inj Some) in Hstep as <-. by apply q_query_wf.
  - apply (inj Some) in Hstep as <-. by apply q_query_wf.
  - destruct (awaiting m k); [|done]. apply (inj Some) in Hstep as <-.
    rewrite q_resume_eq. simpl. intros k' cl' Hk' Hs'.
    destruct (from_option _ _ _); simpl in *;
      apply q_lookup_alter_settled in Hk' as (cl0 & Hk0 & Heq);
      rewrite <- Heq in Hs'; destruct (Hwf k' cl0 Hk0 Hs') as [Hst He];
      (split; [exact Hst|]); [exact He|].
    by destruct r.
Qed.

Lemma q_run_wf c evs : ∀ m m', run c m evs = Some m' → wf m → wf m'.
Proof.
  induction evs as [|ev evs IH]; simpl; intros m m' Hrun Hwf.
  - by apply (inj Some) in Hrun as <-.
  - destruct (step c m ev) as [m1|] eqn:Hstep; [|done]. simpl in Hrun.
    eapply IH; [done|]. by eapply q_step_wf.
Qed.

Lemma q_reachable_wf c m : reachable c m → wf m.
Proof. intros [evs Hrun]. eapply q_run_wf; [done|]. apply q_wf_create. Qed.

(** Whatever [query] answers, afterwards no earlier call can write. *)
Lemma q_query_supersedes c m inp opts k :
  wf m → k < length (calls m) → is_stopped (query c inp opts m).2 k.
Proof.
  intros Hwf Hk. destruct (enabled (store m)) eqn:He.
  - rewrite q_query_enabled by done. simpl.
    by apply q_stopped_in_app, q_stop_calls_all.
  - rewrite q_query_disabled by done.
    apply lookup_lt_is_Some in Hk as [cl Hcl]. exists cl. split; [done|].
    destruct (stopped cl) eqn:Hs; [done|].
    destruct (Hwf k cl Hcl Hs) as [_ He']. congruence.
Qed.

Lemma q_stop_calls_le m : length (calls m) ≤ length (stop_calls m).
Proof. by rewrite q_stop_calls_length. Qed.

Lemma q_step_length c m ev m' :
  step c m ev = Some m' → length (calls m) ≤ length (calls m').
Proof.
  intros Hstep.
  assert (Hq : ∀ inp opts,
    length (calls m) ≤ length (calls (query c inp opts m).2)).
  { intros inp opts. destruct (enabled (store m)) eqn:He.
    - rewrite q_query_enabled by done. simpl.
      rewrite length_app, q_stop_calls_length. lia.
    - by rewrite q_query_disabled. }
  destruct ev; cbn [step] in Hstep;
    rewrite ?q_toggle_eq, ?q_refetch_eq in Hstep.
  - by apply (inj Some) in Hstep as <-.
  - apply (inj Some) in Hstep as <-. rewrite q_disable_eq.
    apply q_stop_calls_le.
  - apply (inj Some) in Hstep as <-. destruct (enabled (store m)).
    + rewrite q_disable_eq. apply q_stop_calls_le.
    + done.
  - apply (inj Some) in Hstep as <-. rewrite q_reset_eq. apply q_stop_calls_le.
  - apply (inj Some) in Hstep as <-. apply Hq.
  - apply (inj Some) in Hstep as <-. apply Hq.
  - destruct (awaiting m k); [|done]. apply (inj Some) in Hstep as <-.
    rewrite q_resume_eq. simpl.
    destruct (from_option _ _ _); simpl; by rewrite length_alter.
Qed.

Lemma q_run_length c evs : ∀ m m',
  run c m evs = Some m' → length (calls m) ≤ length (calls m').
Proof.
  induction evs as [|ev evs IH]; simpl; intros m m' Hrun.
  - by apply (inj Some) in Hrun as <-.
  - destruct (step c m ev) as [m1|] eqn:Hstep; [|done]. simpl in Hrun.
    apply q_step_length in Hstep. apply IH in Hrun. lia.
Qed.

(** [keepPreviousData] is written once, by the creator. *)
Lemma q_step_keep c m ev m' :
  step c m ev = Some m' →
  keepPreviousData (store m') = keepPreviousData (store m).
Proof.
  intros Hstep.
  assert (Hq : ∀ inp opts,
    keepPreviousData (store (query c inp opts m).2)
    = keepPreviousData (store m)).
  { intros inp opts. destruct (enabled (store m)) eqn:He.
    - by rewrite q_query_enabled.
    - by rewrite q_query_disabled. }
  destruct ev; cbn [step] in Hstep;
    rewrite ?q_toggle_eq, ?q_refetch_eq in Hstep.
  - by apply (inj Some) in Hstep as <-.
  - apply (inj Some) in Hstep as <-. by rewrite q_disable_eq.
  - apply (inj Some) in Hstep as <-. destruct (enabled (store m)).
    + by rewrite q_disable_eq.
    + done.
  - apply (inj Some) in Hstep as <-. by rewrite q_reset_eq.
  - apply (inj Some) in Hstep as <-. apply Hq.
  - apply (inj Some) in Hstep as <-. apply Hq.
  - destruct (awaiting m k); [|done]. apply (inj Some) in Hstep as <-.
    rewrite q_resume_eq. simpl.
    destruct (from_option _ _ _), r; done.
Qed.

Lemma q_reachable_keep c m :
  reachable c m → keepPreviousData (store m) = init_keepPreviousData c.
Proof.
  intros [evs Hrun].
  enough (∀ m0, run c m0 evs = Some m →
    keepPreviousData (store m) = keepPreviousData (store m0)) as H.
  { by rewrite (H _ Hrun). }
  clear Hrun. induction evs as [|ev evs IH]; simpl; intros m0 Hrun.
  - by apply (inj Some) in Hrun as <-.
  - destruct (step c m0 ev) as [m1|] eqn:Hstep; [|done]. simpl in Hrun.
    rewrite (IH _ Hrun). by eapply q_step_keep.
Qed.

(** *** Suppression of a superseded call *)

Lemma q_superseded_silent c m0 a oa ka m1 evs1 m2 b ob evs2 m4 r :
  reachable c m0 →
  query c a oa m0 = (Pending ka, m1) →
  run c m1 evs1 = Some m2 →
  run c (query c b ob m2).2 evs2 = Some m4 →
  awaiting m4 ka = true →
  ∃ m5, step c m4 (Settle ka r) = Some m5 ∧
    store m5 = store m4 ∧ trace m5 = trace m4.
Proof.
  intros Hreach Ha Hrun1 Hrun2 Haw.
  apply q_reachable_wf in Hreach as Hwf0.
  assert (Hwf1 : wf m1).
  { replace m1 with (query c a oa m0).2 by (by rewrite Ha).
    by apply q_query_wf. }
  assert (Hka : ka < length (calls m1)).
  { destruct (enabled (store m0)) eqn:He.
    - rewrite q_query_enabled in Ha by done. injection Ha as <- <-. simpl.
      rewrite length_app, q_stop_calls_length. simpl. lia.
    - by rewrite q_query_disabled in Ha. }
  assert (Hwf2 : wf m2) by (by eapply q_run_wf).
  apply q_run_length in Hrun1 as Hlen.
  assert (Hst : is_stopped (query c b ob m2).2 ka).
  { apply q_query_supersedes; [done|lia]. }
  eapply q_run_stopped in Hst; [|done].
  cbn [step]. rewrite Haw. eexists. split; [reflexivity|].
  destruct (q_resume_stopped m4 ka r Hst) as (? & ? & ?). done.
Qed.

(** The patch [query] writes before it calls the client. *)
Definition query_patch (st : State Val) (inp : option Val)
    : list (Field Val) :=
  [PInput inp; PLoading true;
   PData (if keepPreviousData st then data st else None); PError None].

Definition fresh : Call := {| stopped := false; settled := false |}.

Lemma q_settle_step c m k r cl :
  calls m !! k = Some cl → settled cl = false →
  ∃ m', step c m (Settle k r) = Some m' ∧
    store m' = (if stopped cl then store m
                else merge (store m) (settle_patch r)) ∧
    calls m' = alter mark_settled k (calls m) ∧
    stop m' = stop m.
Proof.
  intros Hk Hs. cbn [step]. unfold awaiting. rewrite Hk. simpl.
  rewrite Hs. simpl. eexists. split; [reflexivity|].
  rewrite q_resume_eq, Hk. simpl. by destruct (stopped cl).
Qed.

Lemma q_query_step c m inp opts :
  enabled (store m) = true →
  ∃ m', step c m (DoQuery inp opts) = Some m' ∧
    store m' = merge (store m) (query_patch (store m) inp) ∧
    calls m' = stop_calls m ++ [fresh] ∧
    stop m' = MarkStopped (length (calls m)).
Proof.
  intros He. cbn [step]. eexists. split; [reflexivity|].
  by rewrite q_query_enabled.
Qed.

(** Two [query] patches in a row leave what the second alone leaves. *)
Lemma q_query_patch_twice (st : State Val) a b :
  merge (merge st (query_patch st a))
    (query_patch (merge st (query_patch st a)) b)
  = merge st (query_patch st b).
Proof. destruct st as [? [] ? ? ? ?]; reflexivity. Qed.

(** *** The last call wins *)

Lemma q_last_call_wins c m0 a oa b ob ra rb :
  enabled (store m0) = true →
  let ka := length (calls m0) in
  let kb := S ka in
  ∃ m m' mb,
    run c m0 [DoQuery a oa; DoQuery b ob; Settle ka ra; Settle kb rb]
      = Some m ∧
    run c m0 [DoQuery a oa; DoQuery b ob; Settle kb rb; Settle ka ra]
      = Some m' ∧
    run c m0 [DoQuery b ob; Settle ka rb] = Some mb ∧
    store m = store mb ∧ store m' = store mb ∧
    store mb = merge (merge (store m0) (query_patch (store m0) b))
                 (settle_patch rb).
Proof.
  intros He ka kb.
  destruct (q_query_step c m0 a oa He) as (m1 & Hs1 & Hst1 & Hc1 & Hp1).
  assert (He1 : enabled (store m1) = true) by (by rewrite Hst1).
  destruct (q_query_step c m1 b ob He1) as (m2 & Hs2 & Hst2 & Hc2 & Hp2).
  assert (Hlen1 : length (calls m1) = kb).
  { rewrite Hc1, length_app, q_stop_calls_length. simpl. unfold kb, ka. lia. }
  assert (Hka2 : calls m2 !! ka = Some (mark_stopped fresh)).
  { rewrite Hc2. unfold stop_calls at 1. rewrite Hp1.
    rewrite lookup_app_l by (rewrite length_alter, Hlen1; unfold kb; lia).
    rewrite list_lookup_alter_eq, Hc1.
    rewrite lookup_app_r by (by rewrite q_stop_calls_length).
    rewrite q_stop_calls_length. fold ka. by rewrite Nat.sub_diag. }
  assert (Hkb2 : calls m2 !! kb = Some fresh).
  { rewrite Hc2.
    rewrite lookup_app_r by (by rewrite q_stop_calls_length, Hlen1).
    by rewrite q_stop_calls_length, Hlen1, Nat.sub_diag. }
  assert (Hne : ka ≠ kb) by (unfold kb; lia).
  (* a settles first *)
  destruct (q_settle_step c m2 ka ra _ Hka2 eq_refl)
    as (m3 & Hs3 & Hst3 & Hc3 & _).
  assert (Hkb3 : calls m3 !! kb = Some fresh).
  { by rewrite Hc3, list_lookup_alter_ne. }
  destruct (q_settle_step c m3 kb rb _ Hkb3 eq_refl)
    as (m4 & Hs4 & Hst4 & _ & _).
  (* b settles first *)
  destruct (q_settle_step c m2 kb rb _ Hkb2 eq_refl)
    as (m3' & Hs3' & Hst3' & Hc3' & _).
  assert (Hka3' : calls m3' !! ka = Some (mark_stopped fresh)).
  { by rewrite Hc3', list_lookup_alter_ne. }
  destruct (q_settle_step c m3' ka ra _ Hka3' eq_refl)
    as (m4' & Hs4' & Hst4' & _ & _).
  (* b alone *)
  destruct (q_query_step c m0 b ob He) as (n1 & Ht1 & Htt1 & Hd1 & _).
  assert (Hkan : calls n1 !! ka = Some fresh).
  { rewrite Hd1, lookup_app_r by (by rewrite q_stop_calls_length).
    rewrite q_stop_calls_length. fold ka. by rewrite Nat.sub_diag. }
  destruct (q_settle_step c n1 ka rb _ Hkan eq_refl)
    as (n2 & Ht2 & Htt2 & _ & _).
  exists m4, m4', n2. cbn [run mbind option_bind].
  rewrite Hs1. cbn [mbind option_bind]. rewrite Hs2. cbn [mbind option_bind].
  rewrite Hs3, Hs3'. cbn [mbind option_bind]. rewrite Hs4, Hs4'.
  rewrite Ht1. cbn [mbind option_bind]. rewrite Ht2.
  simpl in Hst3, Hst4, Hst3', Hst4', Htt2.
  assert (Hst2' : store m2 = merge (store m0) (query_patch (store m0) b)).
  { rewrite Hst2, Hst1. apply q_query_patch_twice. }
  repeat split; try reflexivity.
  - by rewrite Hst4, Hst3, Hst2', Htt2, Htt1.
  - by rewrite Hst4', Hst3', Hst2', Htt2, Htt1.
  - by rewrite Htt2, Htt1.
Qed.

(** *** Starting a query *)

Lemma q_query_starts c m inp opts :
  reachable c m → enabled (store m) = true →
  let keep := init_keepPreviousData c in
  let patch :=
    [PInput inp; PLoading true;
     PData (if keep then data (store m) else None); PError None] in
  let m' := (query c inp opts m).2 in
  (query c inp opts m).1 = Pending (length (calls m)) ∧
  trace m' = trace m ++
    [ESet patch; EClientQuery (length (calls m)) (path c) inp opts] ∧
  loading (store m') = true ∧
  input (store m') = inp ∧
  error (store m') = None ∧
  data (store m') = (if keep then data (store m) else None).
Proof.
  intros Hreach He. cbv zeta. rewrite q_query_enabled by done. simpl.
  by rewrite (q_reachable_keep c m Hreach).
Qed.

(** *** [reset] *)

Lemma q_reset_spec c m :
  reachable c m →
  let m' := (reset m).2 in
  input (store m') = None ∧ data (store m') = None ∧
  error (store m') = None ∧ loading (store m') = false ∧
  enabled (store m') = enabled (store m) ∧
  (∀ k, k < length (calls m) → is_stopped m' k).
Proof.
  intros Hreach. cbv zeta. rewrite q_reset_eq. simpl.
  repeat split. intros k Hk. apply q_stop_calls_all; [|done].
  by apply q_reachable_wf in Hreach.
Qed.

(** A call that is stopped stays silent whenever it settles later. *)
Lemma q_stopped_silent c m k evs m' r :
  is_stopped m k → run c m evs = Some m' → awaiting m' k = true →
  ∃ m'', step c m' (Settle k r) = Some m'' ∧
    store m'' = store m' ∧ trace m'' = trace m'.
Proof.
  intros Hst Hrun Haw. eapply q_run_stopped in Hst; [|done].
  cbn [step]. rewrite Haw. eexists. split; [reflexivity|].
  destruct (q_resume_stopped m' k r Hst) as (? & ? & ?). done.
Qed.
End Facts.
End QueryFacts.

(** ** Mutation stores *)

Module MutationFacts.
Import Mutation.
Section Facts.
Context {Val : Type}.
Implicit Types (m : Machine Val) (c : Creator Val) (k : nat) (l : list Call).

Ltac exec :=
  unfold step, mutate, resume, refetch_stores, enable, disable, toggle,
    reset, when,
    get, set, call_stop, let_stopped, assign_stop, read_stopped,
    emit, awaited, mbind, mret, Exec_bind, Exec_ret;
  simpl.

(** The local [stopped] of call [k] exists and is [true]. *)
Definition stopped_in l k : Prop :=
  ∃ cl, l !! k = Some cl ∧ stopped cl = true.

Definition is_stopped m k : Prop := stopped_in (calls m) k.

(** At most the call whose closure is in [stop] can still write, and only
    while the store is enabled. *)
Definition wf m : Prop :=
  ∀ k cl, calls m !! k = Some cl → stopped cl = false →
    stop m = MarkStopped k ∧ enabled (store m) = true.

(** The locals after [stop()]. *)
Definition stop_calls m : list Call :=
  match stop m with
  | Noop => calls m
  | MarkStopped j => alter mark_stopped j (calls m)
  end.

Lemma mu_stopped_in_alter_stopped l j k :
  stopped_in l k → stopped_in (alter mark_stopped j l) k.
Proof.
  intros (cl & Hk & Hs). destruct (decide (j = k)) as [->|Hne].
  - exists (mark_stopped cl). by rewrite list_lookup_alter_eq, Hk.
  - exists cl. by rewrite list_lookup_alter_ne.
Qed.

Lemma mu_stopped_in_alter_settled l j k :
  stopped_in l k → stopped_in (alter mark_settled j l) k.
Proof.
  intros (cl & Hk & Hs). destruct (decide (j = k)) as [->|Hne].
  - exists (mark_settled cl). by rewrite list_lookup_alter_eq, Hk.
  - exists cl. by rewrite list_lookup_alter_ne.
Qed.

Lemma mu_stopped_in_app l l' k : stopped_in l k → stopped_in (l ++ l') k.
Proof.
  intros (cl & Hk & Hs). exists cl. split; [|done].
  by apply lookup_app_l_Some.
Qed.

Lemma mu_stopped_in_stop_calls m k :
  is_stopped m k → stopped_in (stop_calls m) k.
Proof.
  unfold is_stopped, stop_calls. destruct (stop m); [done|].
  apply mu_stopped_in_alter_stopped.
Qed.

Lemma mu_stop_calls_length m : length (stop_calls m) = length (calls m).
Proof. unfold stop_calls. destruct (stop m); [done|]. apply length_alter. Qed.

(** After [stop()], no earlier call can write any more. *)
Lemma mu_stop_calls_all m k :
  wf m → k < length (calls m) → stopped_in (stop_calls m) k.
Proof.
  intros Hwf Hk. apply lookup_lt_is_Some in Hk as [cl Hcl].
  destruct (stopped cl) eqn:Hs.
  { apply mu_stopped_in_stop_calls. by exists cl. }
  destruct (Hwf k cl Hcl Hs) as [Hstop _].
  unfold stop_calls. rewrite Hstop. exists (mark_stopped cl).
  by rewrite list_lookup_alter_eq, Hcl.
Qed.

Lemma mu_mutate_disabled c m inp opts :
  enabled (store m) = false →
  mutate c inp opts m = (Rejected (JsError "Mutation is disabled"), m).
Proof. intros H. exec. by rewrite H. Qed.

(** The patch [mutate] writes before it calls the client. *)
Definition mutate_patch (inp : option Val) : list (Field Val) :=
  [PInput inp; PLoading true; PData None; PError None].

(** The synchronous part of an admitted [mutate], spelled out. *)
Lemma mu_mutate_enabled c m inp opts :
  enabled (store m) = true →
  mutate c inp opts m =
    (Pending (length (calls m)),
     {| store := merge (store m) (mutate_patch inp);
        stop := MarkStopped (length (calls m));
        calls := stop_calls m ++ [{| stopped := false; settled := false |}];
        trace :=
          trace m ++
            [ESet (mutate_patch inp);
             EClientMutation (length (calls m)) (path c) inp opts] |}).
Proof.
  intros H. exec. rewrite H. simpl. unfold stop_calls.
  destruct (stop m) eqn:E; simpl;
    rewrite ?length_alter, <- ?app_assoc, ?H, ?E; reflexivity.
Qed.

Lemma mu_enable_eq m :
  enable m =
    (tt, {| store := merge (store m) [PEnabled true]; stop := stop m;
            calls := calls m; trace := trace m ++ [ESet [PEnabled true]] |}).
Proof. done. Qed.

Lemma mu_disable_eq m :
  disable m =
    (tt, {| store := merge (store m) (PEnabled false :: initialState);
            stop := stop m; calls := stop_calls m;
            trace := trace m ++ [ESet (PEnabled false :: initialState)] |}).
Proof.
  exec. unfold stop_calls.
  destruct (stop m) eqn:E; simpl; rewrite ?E; reflexivity.
Qed.

Lemma mu_reset_eq m :
  reset m =
    (tt, {| store := merge (store m) initialState;
            stop := stop m; calls := stop_calls m;
            trace := trace m ++ [ESet initialState] |}).
Proof.
  exec. unfold stop_calls.
  destruct (stop m) eqn:E; simpl; rewrite ?E; reflexivity.
Qed.

Lemma mu_toggle_eq m :
  toggle m = if enabled (store m) then disable m else enable m.
Proof.
  unfold toggle, get, mbind, Exec_bind. simpl.
  by destruct (enabled (store m)).
Qed.

(** The effects of the [forEach] loop over [stores]: one [refetch] per
    entry, up to and including the first one that throws. *)
Fixpoint loop_effects (stores : list (StoreApi Val)) : list (Effect Val) :=
  match stores with
  | [] => []
  | s :: rest =>
      ERefetch (api s)
      :: match refetch_throws s with
         | Some _ => []
         | None => loop_effects rest
         end
  end.

(** What the [forEach] loop over [stores] throws, if it throws. *)
Fixpoint loop_thrown (stores : list (StoreApi Val)) : option (option Val) :=
  match stores with
  | [] => None
  | s :: rest =>
      match refetch_throws s with
      | Some e => Some e
      | None => loop_thrown rest
      end
  end.

(** The effects of [refetchStores?.()?.forEach(...)]. *)
Definition refetch_effects c : list (Effect Val) :=
  match refetchStores c with
  | None => []
  | Some thunk =>
      match thunk () with
      | Normal (Some stores) => loop_effects stores
      | _ => []
      end
  end.

(** What [refetchStores?.()?.forEach(...)] throws, if it throws. *)
Definition refetch_thrown c : option (option Val) :=
  match refetchStores c with
  | None => None
  | Some thunk =>
      match thunk () with
      | Throw e => Some e
      | Normal None => None
      | Normal (Some stores) => loop_thrown stores
      end
  end.

(** What the caller of [mutate] sees when the client's promise settles;
    [stopped] is the call's local at that time. *)
Definition outcome c (stopped : bool) (r : Settlement Val) : Promise Val :=
  match r with
  | inl result =>
      if stopped then Resolved result
      else match refetch_thrown c with
           | None => Resolved result
           | Some e => Rejected (Raised e)
           end
  | inr err => Rejected (Raised err)
  end.

(** The state object after the settlement of a call that was not stopped. *)
Definition settle_store c (r : Settlement Val) (st : State Val) : State Val :=
  match r with
  | inl result =>
      match refetch_thrown c with
      | None => merge st [PLoading false; PData result]
      | Some e =>
          merge (merge st [PLoading false; PData result])
            [PLoading false; PError e]
      end
  | inr err => merge st [PLoading false; PError err]
  end.

(** The effects of the code after the [await] of a call that was not
    stopped. *)
Definition settle_effects c (r : Settlement Val) : list (Effect Val) :=
  match r with
  | inl result =>
      ESet [PLoading false; PData result]
      :: refetch_effects c
      ++ match refetch_thrown c with
         | None => []
         | Some e => [ESet [PLoading false; PError e]]
         end
  | inr err => [ESet [PLoading false; PError err]]
  end.

Lemma mu_for_each_refetch (stores : list (StoreApi Val)) : ∀ m,
  for_each stores refetch_store m =
    (match loop_thrown stores with
     | Some e => Throw e
     | None => Normal tt
     end,
     {| store := store m; stop := stop m; calls := calls m;
        trace := trace m ++ loop_effects stores |}).
Proof.
  induction stores as [|s stores IH]; intros m.
  - simpl. rewrite app_nil_r. by destruct m.
  - unfold for_each in *. cbn [foldr loop_thrown loop_effects].
    unfold mbind, Exec_bind at 1. unfold refetch_store at 1.
    unfold mbind, Exec_bind, mret, Exec_ret, emit. cbn [fst snd].
    destruct (refetch_throws s) as [e|]; [done|].
    rewrite IH. cbn. by rewrite <- app_assoc.
Qed.

Lemma mu_refetch_stores_eq c m :
  refetch_stores c m =
    (match refetch_thrown c with
     | Some e => Throw e
     | None => Normal tt
     end,
     {| store := store m; stop := stop m; calls := calls m;
        trace := trace m ++ refetch_effects c |}).
Proof.
  unfold refetch_stores, refetch_thrown, refetch_effects.
  destruct (refetchStores c) as [thunk|].
  - destruct (thunk ()) as [[stores|]|e].
    + apply mu_for_each_refetch.
    + simpl. rewrite app_nil_r. by destruct m.
    + simpl. rewrite app_nil_r. by destruct m.
  - simpl. rewrite app_nil_r. by destruct m.
Qed.

Lemma mu_resume_eq c k r m :
  resume c k r m =
    (outcome c (from_option stopped true (calls m !! k)) r,
     if from_option stopped true (calls m !! k)
     then {| store := store m; stop := stop m;
             calls := alter mark_settled k (calls m); trace := trace m |}
     else {| store := settle_store c r (store m); stop := stop m;
             calls := alter mark_settled k (calls m);
             trace := trace m ++ settle_effects c r |}).
Proof.
  unfold resume, catch, awaited, read_stopped, when, mbind, Exec_bind,
    mret, Exec_ret, outcome, settle_store, settle_effects.
  cbn [calls]. rewrite list_lookup_alter_eq.
  destruct (calls m !! k) as [[[] ?]|] eqn:Hk, r;
    cbn [from_option fmap option_fmap option_map stopped mark_settled negb];
    try reflexivity.
  - cbn [calls]. rewrite list_lookup_alter_eq, Hk. reflexivity.
  - unfold set at 1. cbv beta iota. rewrite mu_refetch_stores_eq.
    cbn [store stop calls trace].
    destruct (refetch_thrown c) as [e|]; cbv beta iota.
    + cbn [calls]. rewrite list_lookup_alter_eq, Hk. cbn.
      by rewrite <- !app_assoc.
    + by rewrite app_nil_r, <- app_assoc.
  - cbn [calls]. rewrite list_lookup_alter_eq, Hk. reflexivity.
  - cbn [calls]. rewrite list_lookup_alter_eq, Hk. reflexivity.
Qed.

Lemma mu_settle_store_enabled c r (st : State Val) :
  enabled (settle_store c r st) = enabled st.
Proof. unfold settle_store. by destruct r, (refetch_thrown c). Qed.

Lemma mu_settle_store_loading c r (st : State Val) :
  loading (settle_store c r st) = false.
Proof. unfold settle_store. by destruct r, (refetch_thrown c). Qed.

Lemma mu_settle_store_input c r (st : State Val) :
  input (settle_store c r st) = input st.
Proof. unfold settle_store. by destruct r, (refetch_thrown c). Qed.

(** The code after the [await] of a stopped call only returns or throws. *)
Lemma mu_resume_stopped c m k r :
  is_stopped m k →
  store (resume c k r m).2 = store m ∧
  trace (resume c k r m).2 = trace m ∧
  stop (resume c k r m).2 = stop m.
Proof.
  intros (cl & Hk & Hs). rewrite (mu_resume_eq c), Hk. simpl. by rewrite Hs.
Qed.

Lemma mu_step_stopped c m ev m' k :
  step c m ev = Some m' → is_stopped m k → is_stopped m' k.
Proof.
  unfold is_stopped. intros Hstep Hk.
  assert (Hq : ∀ inp opts, stopped_in (calls (mutate c inp opts m).2) k).
  { intros inp opts. destruct (enabled (store m)) eqn:He.
    - rewrite mu_mutate_enabled by done. simpl.
      by apply mu_stopped_in_app, mu_stopped_in_stop_calls.
    - by rewrite mu_mutate_disabled. }
  destruct ev; cbn [step] in Hstep;
    rewrite ?mu_toggle_eq in Hstep.
  - apply (inj Some) in Hstep as <-. done.
  - apply (inj Some) in Hstep as <-. rewrite mu_disable_eq. simpl.
    by apply mu_stopped_in_stop_calls.
  - apply (inj Some) in Hstep as <-. destruct (enabled (store m)).
    + rewrite mu_disable_eq. by apply mu_stopped_in_stop_calls.
    + done.
  - apply (inj Some) in Hstep as <-. rewrite mu_reset_eq. simpl.
    by apply mu_stopped_in_stop_calls.
  - apply (inj Some) in Hstep as <-. apply Hq.
  - destruct (awaiting m k0); [|done]. apply (inj Some) in Hstep as <-.
    rewrite mu_resume_eq. simpl.
    destruct (from_option _ _ _); by apply mu_stopped_in_alter_settled.
Qed.

Lemma mu_run_stopped c evs : ∀ m m' k,
  run c m evs = Some m' → is_stopped m k → is_stopped m' k.
Proof.
  induction evs as [|ev evs IH]; simpl; intros m m' k Hrun Hk.
  - by injection Hrun as <-.
  - destruct (step c m ev) as [m1|] eqn:Hstep; [|done]. simpl in Hrun.
    eapply IH; [done|]. by eapply mu_step_stopped.
Qed.

Lemma mu_lookup_alter_settled l j k cl :
  alter mark_settled j l !! k = Some cl →
  ∃ cl0, l !! k = Some cl0 ∧ stopped cl0 = stopped cl.
Proof.
  destruct (decide (j = k)) as [->|Hne].
  - rewrite list_lookup_alter_eq. destruct (l !! k) as [cl0|]; [|done].
    simpl. intros [= <-]. by exists cl0.
  - rewrite list_lookup_alter_ne by done. intros H. by exists cl.
Qed.

Lemma mu_wf_create c : wf (create c).
Proof. intros k cl H. done. Qed.

(** Once every local is [true], [wf] holds whatever [stop] and the store
    are. *)
Lemma mu_wf_all_stopped m :
  (∀ k, k < length (calls m) → is_stopped m k) → wf m.
Proof.
  intros Hall k cl Hk Hs.
  destruct (Hall k) as (cl' & Hk' & Hs'); [by eapply lookup_lt_Some|].
  congruence.
Qed.

Lemma mu_mutate_wf c m inp opts : wf m → wf (mutate c inp opts m).2.
Proof.
  intros Hwf. destruct (enabled (store m)) eqn:He.
  2: { by rewrite mu_mutate_disabled. }
  rewrite mu_mutate_enabled by done. intros k cl Hk Hs. simpl in *.
  destruct (decide (k < length (calls m))) as [Hlt|Hge].
  - destruct (mu_stop_calls_all m k Hwf Hlt) as (cl' & Hk' & Hs').
    rewrite lookup_app_l in Hk by (by rewrite mu_stop_calls_length).
    congruence.
  - apply lookup_lt_Some in Hk as Hlen.
    rewrite length_app, mu_stop_calls_length in Hlen. simpl in Hlen.
    split; [f_equal; lia|done].
Qed.

Lemma mu_step_wf c m ev m' : step c m ev = Some m' → wf m → wf m'.
Proof.
  intros Hstep Hwf.
  assert (Hstopall : ∀ st tr,
    wf {| store := st; stop := stop m; calls := stop_calls m; trace := tr |}).
  { intros st tr. apply mu_wf_all_stopped. simpl. intros k Hk.
    apply mu_stop_calls_all; [done|]. by rewrite mu_stop_calls_length in Hk. }
  destruct ev; cbn [step] in Hstep;
    rewrite ?mu_toggle_eq in Hstep.
  - apply (inj Some) in Hstep as <-. intros k cl Hk Hs.
    split; [apply (Hwf k cl Hk Hs)|done].
  - apply (inj Some) in Hstep as <-. rewrite mu_disable_eq. apply Hstopall.
  - apply (inj Some) in Hstep as <-. destruct (enabled (store m)).
    + rewrite mu_disable_eq. apply Hstopall.
    + intros k cl Hk Hs. split; [apply (Hwf k cl Hk Hs)|done].
  - apply (inj Some) in Hstep as <-. rewrite mu_reset_eq. apply Hstopall.
  - apply (inj Some) in Hstep as <-. by apply mu_mutate_wf.
  - destruct (awaiting m k); [|done]. apply (inj Some) in Hstep as <-.
    rewrite mu_resume_eq. cbn [snd]. intros k' cl' Hk' Hs'.
    destruct (from_option _ _ _); cbn [store stop calls] in *;
      apply mu_lookup_alter_settled in Hk' as (cl0 & Hk0 & Heq);
      rewrite <- Heq in Hs'; destruct (Hwf k' cl0 Hk0 Hs') as [Hst He];
      (split; [exact Hst|]); [exact He|].
    by rewrite mu_settle_store_enabled.
Qed.

Lemma mu_run_wf c evs : ∀ m m', run c m evs = Some m' → wf m → wf m'.
Proof.
  induction evs as [|ev evs IH]; simpl; intros m m' Hrun Hwf.
  - by apply (inj Some) in Hrun as <-.
  - destruct (step c m ev) as [m1|] eqn:Hstep; [|done]. simpl in Hrun.
    eapply IH; [done|]. by eapply mu_step_wf.
Qed.

Lemma mu_reachable_wf c m : reachable c m → wf m.
Proof. intros [evs Hrun]. eapply mu_run_wf; [done|]. apply mu_wf_create. Qed.

(** Whatever [mutate] answers, afterwards no earlier call can write. *)
Lemma mu_mutate_supersedes c m inp opts k :
  wf m → k < length (calls m) → is_stopped (mutate c inp opts m).2 k.
Proof.
  intros Hwf Hk. destruct (enabled (store m)) eqn:He.
  - rewrite mu_mutate_enabled by done. simpl.
    by apply mu_stopped_in_app, mu_stop_calls_all.
  - rewrite mu_mutate_disabled by done.
    apply lookup_lt_is_Some in Hk as [cl Hcl]. exists cl. split; [done|].
    destruct (stopped cl) eqn:Hs; [done|].
    destruct (Hwf k cl Hcl Hs) as [_ He']. congruence.
Qed.

Lemma mu_stop_calls_le m : length (calls m) ≤ length (stop_calls m).
Proof. by rewrite mu_stop_calls_length. Qed.

Lemma mu_step_length c m ev m' :
  step c m ev = Some m' → length (calls m) ≤ length (calls m').
Proof.
  intros Hstep.
  assert (Hq : ∀ inp opts,
    length (calls m) ≤ length (calls (mutate c inp opts m).2)).
  { intros inp opts. destruct (enabled (store m)) eqn:He.
    - rewrite mu_mutate_enabled by done. simpl.
      rewrite length_app, mu_stop_calls_length. lia.
    - by rewrite mu_mutate_disabled. }
  destruct ev; cbn [step] in Hstep;
    rewrite ?mu_toggle_eq in Hstep.
  - by apply (inj Some) in Hstep as <-.
  - apply (inj Some) in Hstep as <-. rewrite mu_disable_eq.
    apply mu_stop_calls_le.
  - apply (inj Some) in Hstep as <-. destruct (enabled (store m)).
    + rewrite mu_disable_eq. apply mu_stop_calls_le.
    + done.
  - apply (inj Some) in Hstep as <-. rewrite mu_reset_eq. apply mu_stop_calls_le.
  - apply (inj Some) in Hstep as <-. apply Hq.
  - destruct (awaiting m k); [|done]. apply (inj Some) in Hstep as <-.
    rewrite mu_resume_eq. simpl.
    destruct (from_option _ _ _); simpl; by rewrite length_alter.
Qed.

Lemma mu_run_length c evs : ∀ m m',
  run c m evs = Some m' → length (calls m) ≤ length (calls m').
Proof.
  induction evs as [|ev evs IH]; simpl; intros m m' Hrun.
  - by apply (inj Some) in Hrun as <-.
  - destruct (step c m ev) as [m1|] eqn:Hstep; [|done]. simpl in Hrun.
    apply mu_step_length in Hstep. apply IH in Hrun. lia.
Qed.

(** *** Suppression of a superseded call *)

Lemma mu_superseded_silent c m0 a oa ka m1 evs1 m2 b ob evs2 m4 r :
  reachable c m0 →
  mutate c a oa m0 = (Pending ka, m1) →
  run c m1 evs1 = Some m2 →
  run c (mutate c b ob m2).2 evs2 = Some m4 →
  awaiting m4 ka = true →
  ∃ m5, step c m4 (Settle ka r) = Some m5 ∧
    store m5 = store m4 ∧ trace m5 = trace m4.
Proof.
  intros Hreach Ha Hrun1 Hrun2 Haw.
  apply mu_reachable_wf in Hreach as Hwf0.
  assert (Hwf1 : wf m1).
  { replace m1 with (mutate c a oa m0).2 by (by rewrite Ha).
    by apply mu_mutate_wf. }
  assert (Hka : ka < length (calls m1)).
  { destruct (enabled (store m0)) eqn:He.
    - rewrite mu_mutate_enabled in Ha by done. injection Ha as <- <-. simpl.
      rewrite length_app, mu_stop_calls_length. simpl. lia.
    - by rewrite mu_mutate_disabled in Ha. }
  assert (Hwf2 : wf m2) by (by eapply mu_run_wf).
  apply mu_run_length in Hrun1 as Hlen.
  assert (Hst : is_stopped (mutate c b ob m2).2 ka).
  { apply mu_mutate_supersedes; [done|lia]. }
  eapply mu_run_stopped in Hst; [|done].
  cbn [step]. rewrite Haw. eexists. split; [reflexivity|].
  destruct (mu_resume_stopped c m4 ka r Hst) as (? & ? & ?). done.
Qed.

Definition fresh : Call := {| stopped := false; settled := false |}.

Lemma mu_settle_step c m k r cl :
  calls m !! k = Some cl → settled cl = false →
  ∃ m', step c m (Settle k r) = Some m' ∧
    store m' = (if stopped cl then store m
                else settle_store c r (store m)) ∧
    calls m' = alter mark_settled k (calls m) ∧
    stop m' = stop m.
Proof.
  intros Hk Hs. cbn [step]. unfold awaiting. rewrite Hk. simpl.
  rewrite Hs. simpl. eexists. split; [reflexivity|].
  rewrite (mu_resume_eq c), Hk. cbn [from_option snd].
  by destruct (stopped cl).
Qed.

Lemma mu_mutate_step c m inp opts :
  enabled (store m) = true →
  ∃ m', step c m (Mutate inp opts) = Some m' ∧
    store m' = merge (store m) (mutate_patch inp) ∧
    calls m' = stop_calls m ++ [fresh] ∧
    stop m' = MarkStopped (length (calls m)).
Proof.
  intros He. cbn [step]. eexists. split; [reflexivity|].
  by rewrite mu_mutate_enabled.
Qed.

(** Two [mutate] patches in a row leave what the second alone leaves. *)
Lemma mu_mutate_patch_twice (st : State Val) a b :
  merge (merge st (mutate_patch a)) (mutate_patch b)
  = merge st (mutate_patch b).
Proof. reflexivity. Qed.

(** *** The last call wins *)

Lemma mu_last_call_wins c m0 a oa b ob ra rb :
  enabled (store m0) = true →
  let ka := length (calls m0) in
  let kb := S ka in
  ∃ m m' mb,
    run c m0 [Mutate a oa; Mutate b ob; Settle ka ra; Settle kb rb]
      = Some m ∧
    run c m0 [Mutate a oa; Mutate b ob; Settle kb rb; Settle ka ra]
      = Some m' ∧
    run c m0 [Mutate b ob; Settle ka rb] = Some mb ∧
    store m = store mb ∧ store m' = store mb ∧
    store mb = settle_store c rb (merge (store m0) (mutate_patch b)).
Proof.
  intros He ka kb.
  destruct (mu_mutate_step c m0 a oa He) as (m1 & Hs1 & Hst1 & Hc1 & Hp1).
  assert (He1 : enabled (store m1) = true) by (by rewrite Hst1).
  destruct (mu_mutate_step c m1 b ob He1) as (m2 & Hs2 & Hst2 & Hc2 & Hp2).
  assert (Hlen1 : length (calls m1) = kb).
  { rewrite Hc1, length_app, mu_stop_calls_length. simpl. unfold kb, ka. lia. }
  assert (Hka2 : calls m2 !! ka = Some (mark_stopped fresh)).
  { rewrite Hc2. unfold stop_calls at 1. rewrite Hp1.
    rewrite lookup_app_l by (rewrite length_alter, Hlen1; unfold kb; lia).
    rewrite list_lookup_alter_eq, Hc1.
    rewrite lookup_app_r by (by rewrite mu_stop_calls_length).
    rewrite mu_stop_calls_length. fold ka. by rewrite Nat.sub_diag. }
  assert (Hkb2 : calls m2 !! kb = Some fresh).
  { rewrite Hc2.
    rewrite lookup_app_r by (by rewrite mu_stop_calls_length, Hlen1).
    by rewrite mu_stop_calls_length, Hlen1, Nat.sub_diag. }
  assert (Hne : ka ≠ kb) by (unfold kb; lia).
  (* a settles first *)
  destruct (mu_settle_step c m2 ka ra _ Hka2 eq_refl)
    as (m3 & Hs3 & Hst3 & Hc3 & _).
  assert (Hkb3 : calls m3 !! kb = Some fresh).
  { by rewrite Hc3, list_lookup_alter_ne. }
  destruct (mu_settle_step c m3 kb rb _ Hkb3 eq_refl)
    as (m4 & Hs4 & Hst4 & _ & _).
  (* b settles first *)
  destruct (mu_settle_step c m2 kb rb _ Hkb2 eq_refl)
    as (m3' & Hs3' & Hst3' & Hc3' & _).
  assert (Hka3' : calls m3' !! ka = Some (mark_stopped fresh)).
  { by rewrite Hc3', list_lookup_alter_ne. }
  destruct (mu_settle_step c m3' ka ra _ Hka3' eq_refl)
    as (m4' & Hs4' & Hst4' & _ & _).
  (* b alone *)
  destruct (mu_mutate_step c m0 b ob He) as (n1 & Ht1 & Htt1 & Hd1 & _).
  assert (Hkan : calls n1 !! ka = Some fresh).
  { rewrite Hd1, lookup_app_r by (by rewrite mu_stop_calls_length).
    rewrite mu_stop_calls_length. fold ka. by rewrite Nat.sub_diag. }
  destruct (mu_settle_step c n1 ka rb _ Hkan eq_refl)
    as (n2 & Ht2 & Htt2 & _ & _).
  exists m4, m4', n2. cbn [run mbind option_bind].
  rewrite Hs1. cbn [mbind option_bind]. rewrite Hs2. cbn [mbind option_bind].
  rewrite Hs3, Hs3'. cbn [mbind option_bind]. rewrite Hs4, Hs4'.
  rewrite Ht1. cbn [mbind option_bind]. rewrite Ht2.
  simpl in Hst3, Hst4, Hst3', Hst4', Htt2.
  assert (Hst2' : store m2 = merge (store m0) (mutate_patch b)).
  { rewrite Hst2, Hst1. apply mu_mutate_patch_twice. }
  repeat split; try reflexivity.
  - by rewrite Hst4, Hst3, Hst2', Htt2, Htt1.
  - by rewrite Hst4', Hst3', Hst2', Htt2, Htt1.
  - by rewrite Htt2, Htt1.
Qed.

(** *** [reset] *)

Lemma mu_reset_spec c m :
  reachable c m →
  let m' := (reset m).2 in
  input (store m') = None ∧ data (store m') = None ∧
  error (store m') = None ∧ loading (store m') = false ∧
  enabled (store m') = enabled (store m) ∧
  (∀ k, k < length (calls m) → is_stopped m' k).
Proof.
  intros Hreach. cbv zeta. rewrite mu_reset_eq. simpl.
  repeat split. intros k Hk. apply mu_stop_calls_all; [|done].
  by apply mu_reachable_wf in Hreach.
Qed.

(** A call that is stopped stays silent whenever it settles later. *)
Lemma mu_stopped_silent c m k evs m' r :
  is_stopped m k → run c m evs = Some m' → awaiting m' k = true →
  ∃ m'', step c m' (Settle k r) = Some m'' ∧
    store m'' = store m' ∧ trace m'' = trace m'.
Proof.
  intros Hst Hrun Haw. eapply mu_run_stopped in Hst; [|done].
  cbn [step]. rewrite Haw. eexists. split; [reflexivity|].
  destruct (mu_resume_stopped c m' k r Hst) as (? & ? & ?). done.
Qed.

(** *** Refetching after a successful mutation *)

(** The stores whose [refetch] a trace invokes, in order. *)
Definition refetches (tr : list (Effect Val)) : list Val :=
  omap (λ e, match e with ERefetch s => Some s | _ => None end) tr.

Lemma mu_refetches_app tr1 tr2 :
  refetches (tr1 ++ tr2) = refetches tr1 ++ refetches tr2.
Proof. apply omap_app. Qed.

Lemma mu_refetches_fmap (stores : list Val) :
  refetches (ERefetch <$> stores) = stores.
Proof. induction stores as [|s stores IH]; [done|]. simpl. by f_equal. Qed.

(** A loop in which no [refetch] throws runs to its end. *)
Lemma mu_loop_normal (stores : list (StoreApi Val)) :
  Forall (λ s, refetch_throws s = None) stores →
  loop_thrown stores = None ∧
  loop_effects stores = ERefetch <$> (api <$> stores).
Proof.
  induction 1 as [|s stores Hs _ [IH1 IH2]]; [done|].
  cbn [loop_thrown loop_effects fmap list_fmap]. rewrite Hs.
  split; [done|]. by rewrite IH2.
Qed.

(** A loop stops at the first [refetch] that throws. *)
Lemma mu_loop_throw (before : list (StoreApi Val)) s e after :
  Forall (λ s, refetch_throws s = None) before →
  refetch_throws s = Some e →
  loop_thrown (before ++ s :: after) = Some e ∧
  loop_effects (before ++ s :: after)
  = ERefetch <$> (api <$> before ++ [s]).
Proof.
  intros Hb Hs. induction Hb as [|s0 before Hs0 _ [IH1 IH2]].
  - cbn [app loop_thrown loop_effects fmap list_fmap]. by rewrite Hs.
  - cbn [app loop_thrown loop_effects fmap list_fmap]. rewrite Hs0.
    split; [done|]. by rewrite IH2.
Qed.

Lemma mu_resume_live c m k r cl :
  calls m !! k = Some cl → stopped cl = false →
  resume c k r m =
    (outcome c false r,
     {| store := settle_store c r (store m); stop := stop m;
        calls := alter mark_settled k (calls m);
        trace := trace m ++ settle_effects c r |}).
Proof.
  intros Hk Hs. rewrite mu_resume_eq, Hk. cbn [from_option]. by rewrite Hs.
Qed.
End Facts.
End MutationFacts.

(** ** Subscription stores *)

Module SubscriptionFacts.
Import Subscription.
Section Facts.
Context {Val : Type}.
Implicit Types (m : Machine Val) (c : Creator) (k : nat)
  (o : SubscribeOpts Val).

(** The effects of [callback?.(...args)]. *)
Definition called (callback : option Val) (args : list (option Val))
    : list (Effect Val) :=
  match callback with
  | Some f => [ECall f args]
  | None => []
  end.

(** The effects of calling [f]. *)
Definition invoked (f : StopFn) : list (Effect Val) :=
  match f with
  | Noop => []
  | Unsubscribe k => [EUnsubscribe k]
  end.

Lemma su_call_opt_eq callback args m :
  call_opt callback args m =
    (tt, {| store := store m; stop := stop m; subs := subs m;
            trace := trace m ++ called callback args |}).
Proof.
  destruct callback; simpl; [done|]. rewrite app_nil_r. by destruct m.
Qed.

Lemma su_invoke_eq f m :
  invoke f m =
    (tt, {| store := store m; stop := stop m; subs := subs m;
            trace := trace m ++ invoked f |}).
Proof. destruct f; simpl; [|done]. rewrite app_nil_r. by destruct m. Qed.

Lemma su_enable_eq m :
  enable m =
    (tt, {| store := merge (store m) [PEnabled true]; stop := stop m;
            subs := subs m; trace := trace m ++ [ESet [PEnabled true]] |}).
Proof. done. Qed.

Lemma su_disable_eq m :
  disable m =
    (tt, {| store := merge (store m) (PEnabled false :: initialState);
            stop := stop m; subs := subs m;
            trace := trace m ++ invoked (stop m)
                       ++ [ESet (PEnabled false :: initialState)] |}).
Proof.
  unfold disable, call_stop, set, mbind, Exec_bind. rewrite su_invoke_eq.
  cbn. by rewrite <- app_assoc.
Qed.

Lemma su_reset_eq m :
  reset m =
    (tt, {| store := merge (store m) initialState;
            stop := stop m; subs := subs m;
            trace := trace m ++ invoked (stop m) ++ [ESet initialState] |}).
Proof.
  unfold reset, call_stop, set, mbind, Exec_bind. rewrite su_invoke_eq.
  cbn. by rewrite <- app_assoc.
Qed.

Lemma su_toggle_eq m :
  toggle m = if enabled (store m) then disable m else enable m.
Proof.
  unfold toggle, get, mbind, Exec_bind. simpl.
  by destruct (enabled (store m)).
Qed.

Lemma su_subscribe_disabled c m inp opts :
  enabled (store m) = false →
  subscribe c inp opts m = (inl (JsError "Subscription is disabled"), m).
Proof.
  intros H. unfold subscribe, get, mbind, Exec_bind. simpl. by rewrite H.
Qed.

Definition subscribe_patch (inp : option Val) : list (Field Val) :=
  [PInput inp; PStatus "connecting"; PData None; PError None].

Lemma su_subscribe_enabled c m inp opts :
  enabled (store m) = true →
  subscribe c inp opts m =
    (inr (Unsubscribe (length (subs m))),
     {| store := merge (store m) (subscribe_patch inp);
        stop := Unsubscribe (length (subs m));
        subs := subs m ++ [default no_opts opts];
        trace :=
          trace m ++ invoked (stop m) ++
            [ESet (subscribe_patch inp);
             EClientSubscription (length (subs m)) (path c) inp
               (rest (default no_opts opts))] |}).
Proof.
  intros H. unfold subscribe, get, call_stop, set, mbind, Exec_bind. cbn.
  rewrite H. cbn. rewrite su_invoke_eq. cbn.
  unfold mret, Exec_ret. by rewrite H, <- !app_assoc.
Qed.

Lemma su_handle_onStarted_eq o m :
  handle_onStarted o m =
    (tt, {| store := merge (store m) [PStatus "pending"; PError None];
            stop := stop m; subs := subs m;
            trace := trace m ++ ESet [PStatus "pending"; PError None]
                       :: called (onStarted o) [] |}).
Proof.
  unfold handle_onStarted, set, mbind, Exec_bind. cbn. rewrite su_call_opt_eq.
  cbn. by rewrite <- app_assoc.
Qed.

Lemma su_handle_onData_eq o d m :
  handle_onData o d m =
    (tt, {| store := merge (store m) [PStatus "pending"; PData d; PError None];
            stop := stop m; subs := subs m;
            trace := trace m
                       ++ ESet [PStatus "pending"; PData d; PError None]
                       :: called (onData o) [d] |}).
Proof.
  unfold handle_onData, set, mbind, Exec_bind. cbn. rewrite su_call_opt_eq.
  cbn. by rewrite <- app_assoc.
Qed.

Lemma su_handle_onError_eq o err m :
  handle_onError o err m =
    (tt, {| store := merge (store m) [PStatus "error"; PError err];
            stop := stop m; subs := subs m;
            trace := trace m ++ ESet [PStatus "error"; PError err]
                       :: called (onError o) [err] |}).
Proof.
  unfold handle_onError, set, mbind, Exec_bind. cbn. rewrite su_call_opt_eq.
  cbn. by rewrite <- app_assoc.
Qed.

(** [stop] is the handle of the subscription opened last, if any. *)
Definition wf m : Prop :=
  stop m = match length (subs m) with
           | 0 => Noop
           | S k => Unsubscribe k
           end.

Lemma su_wf_create c : wf (create c).
Proof. done. Qed.

Lemma su_step_wf c m ev m' : step c m ev = Some m' → wf m → wf m'.
Proof.
  unfold wf. intros Hstep Hwf.
  destruct ev; cbn [step] in Hstep; unfold on_sub in Hstep;
    rewrite ?su_toggle_eq in Hstep;
    try (destruct (subs m !! k) as [o|]; [|done]; cbn in Hstep);
    apply (inj Some) in Hstep as <-.
  - done.
  - by rewrite su_disable_eq.
  - destruct (enabled (store m)); [by rewrite su_disable_eq|done].
  - by rewrite su_reset_eq.
  - destruct (enabled (store m)) eqn:He.
    + rewrite su_subscribe_enabled by done. cbn.
      rewrite length_app. cbn. by rewrite Nat.add_1_r.
    + by rewrite su_subscribe_disabled.
  - by rewrite su_invoke_eq.
  - by rewrite su_handle_onStarted_eq.
  - by rewrite su_handle_onData_eq.
  - by rewrite su_handle_onError_eq.
  - done.
Qed.

Lemma su_reachable_wf c m : reachable c m → wf m.
Proof.
  intros [evs Hrun].
  enough (∀ m0, run c m0 evs = Some m → wf m0 → wf m) as H.
  { eapply H; [done|]. apply su_wf_create. }
  clear Hrun. induction evs as [|ev evs IH]; simpl; intros m0 Hrun Hwf.
  - by apply (inj Some) in Hrun as <-.
  - destruct (step c m0 ev) as [m1|] eqn:Hstep; [|done]. simpl in Hrun.
    eapply IH; [done|]. by eapply su_step_wf.
Qed.
End Facts.
End SubscriptionFacts.

(** ** Dispatch *)

Module DispatchFacts.
Import Dispatch.
Section Facts.
Context {Val : Type}.

Lemma traverse_path (props : list string) : ∀ p : Proxy,
  traverse p props = createProxy (proxy_path p ++ props).
Proof.
  unfold traverse.
  induction props as [|prop props IH]; intros [path]; simpl.
  - by rewrite app_nil_r.
  - rewrite IH. simpl. by rewrite <- app_assoc.
Qed.

Lemma apply_other (p : Proxy) (args : list (option (StoreOpts Val))) :
  last (proxy_path p) ≠ Some "queryStore" →
  last (proxy_path p) ≠ Some "mutationStore" →
  last (proxy_path p) ≠ Some "subscriptionStore" →
  apply p args = Undefined.
Proof.
  intros H1 H2 H3. unfold apply. cbv zeta.
  rewrite !decide_False by done. done.
Qed.
End Facts.
End DispatchFacts.

(** ** The live-query registry *)

Module LiveStoreFacts.
Import LiveStore.

Lemma matching_elem (r : Registry) (keys : Keys) (id : nat) :
  id ∈ matching r keys ↔
  ∃ key, key ∈ normalize keys ∧ id ∈ under (index r) key.
Proof.
  unfold matching. rewrite elem_of_union_list. split.
  - intros (X & HX & Hid). apply list_elem_of_fmap in HX as (key & -> & Hk).
    by exists key.
  - intros (key & Hk & Hid). exists (under (index r) key). split; [|done].
    apply list_elem_of_fmap. by exists key.
Qed.

(** After [register], the new registration is under each of its keys. *)
Lemma register_under (keys : list string) (id : nat) :
  ∀ (idx : gmap string (gset nat)) (key : string),
  key ∈ keys →
  id ∈ under
         (foldr (λ key idx, <[key := {[id]} ∪ under idx key]> idx) idx keys)
         key.
Proof.
  induction keys as [|k keys IH]; intros idx key Hin.
  - by apply elem_of_nil in Hin.
  - cbn [foldr]. unfold under at 1.
    destruct (decide (k = key)) as [->|Hne].
    + rewrite lookup_insert_eq. simpl.
      by apply elem_of_union_l, elem_of_singleton.
    + rewrite lookup_insert_ne by done. apply IH.
      apply elem_of_cons in Hin as [->|Hin]; done.
Qed.
End LiveStoreFacts.

(** * The specification's claims *)

(** An element that occurs at exactly one position of a list. *)
Definition once {A} (x : A) (l : list A) : Prop :=
  ∃ i, l !! i = Some x ∧ ∀ j, l !! j = Some x → j = i.

Lemma NoDup_once {A} (l : list A) (x : A) : NoDup l → x ∈ l → once x l.
Proof.
  intros Hnd [i Hi]%list_elem_of_lookup. exists i. split; [done|].
  intros j Hj. by eapply NoDup_lookup.
Qed.

(** C2. When [enabled] is false, every trigger method fails with the
    "... is disabled" error and leaves the store, the closure variables and
    the trace as they were: [query], [refetch] and [mutate] return a rejected
    promise, [subscribe] throws. [disable] always leaves [enabled] false. *)
Theorem disabled_store_refuses (Val : Type) :
  (∀ (c : Query.Creator) (m : Query.Machine Val) inp opts,
     Query.enabled (Query.store m) = false →
     Query.query c inp opts m = (Rejected (JsError "Query is disabled"), m) ∧
     Query.refetch c opts m = (Rejected (JsError "Query is disabled"), m)) ∧
  (∀ (c : Mutation.Creator Val) (m : Mutation.Machine Val) inp opts,
     Mutation.enabled (Mutation.store m) = false →
     Mutation.mutate c inp opts m
       = (Rejected (JsError "Mutation is disabled"), m)) ∧
  (∀ (c : Subscription.Creator) (m : Subscription.Machine Val) inp opts,
     Subscription.enabled (Subscription.store m) = false →
     Subscription.subscribe c inp opts m
       = (inl (JsError "Subscription is disabled"), m)) ∧
  (∀ m : Query.Machine Val,
     Query.enabled (Query.store (Query.disable m).2) = false) ∧
  (∀ m : Mutation.Machine Val,
     Mutation.enabled (Mutation.store (Mutation.disable m).2) = false) ∧
  (∀ m : Subscription.Machine Val,
     Subscription.enabled (Subscription.store (Subscription.disable m).2)
       = false).
Proof.
  split_and!; intros.
  - split; [|rewrite QueryFacts.q_refetch_eq]; by apply QueryFacts.q_query_disabled.
  - by apply MutationFacts.mu_mutate_disabled.
  - by apply SubscriptionFacts.su_subscribe_disabled.
  - by rewrite QueryFacts.q_disable_eq.
  - by rewrite MutationFacts.mu_disable_eq.
  - by rewrite SubscriptionFacts.su_disable_eq.
Qed.

Lemma disabled_store_refuses_witness :
  let q := (Query.disable (Query.create (Val:=Demo.Val) Demo.todosStore)).2 in
  let mu := (Mutation.disable (Mutation.create Demo.addTodoStore)).2 in
  let su :=
    (Subscription.disable
       (Subscription.create (Val:=Demo.Val) Demo.streamTodosStore)).2 in
  Query.query Demo.todosStore (Some "1") None q
    = (Rejected (JsError "Query is disabled"), q) ∧
  Mutation.mutate Demo.addTodoStore (Some "milk") None mu
    = (Rejected (JsError "Mutation is disabled"), mu) ∧
  Subscription.subscribe Demo.streamTodosStore (Some "1") None su
    = (inl (JsError "Subscription is disabled"), su).
Proof.
  intros q mu su.
  destruct (disabled_store_refuses Demo.Val) as (Hq & Hm & Hs & _).
  split; [|split].
  - exact (proj1 (Hq Demo.todosStore q (Some "1") None eq_refl)).
  - exact (Hm Demo.addTodoStore mu (Some "milk") None eq_refl).
  - exact (Hs Demo.streamTodosStore su (Some "1") None eq_refl).
Defined.

(** C4. On an enabled query store, [query(input, opts)] first writes
    [loading = true], the input and [error = undefined], with [data] kept
    when the [keepPreviousData] option is true (its default) and cleared
    when it is false, and only then calls the client. *)
Theorem query_marks_loading (Val : Type) (path : string)
    (storeOpts : Query.QueryStoreOptions) (m : Query.Machine Val)
    (inp opts : option Val) :
  let c := Query.queryStoreCreatorFactory path storeOpts in
  let keep := default true (Query.opt_keepPreviousData storeOpts) in
  let patch :=
    [Query.PInput inp; Query.PLoading true;
     Query.PData (if keep then Query.data (Query.store m) else None);
     Query.PError None] in
  Query.reachable c m →
  Query.enabled (Query.store m) = true →
  ∃ k m',
    Query.query c inp opts m = (Pending k, m') ∧
    Query.trace m' =
      Query.trace m ++ [Query.ESet patch; Query.EClientQuery k path inp opts] ∧
    Query.loading (Query.store m') = true ∧
    Query.input (Query.store m') = inp ∧
    Query.error (Query.store m') = None ∧
    Query.data (Query.store m')
      = (if keep then Query.data (Query.store m) else None).
Proof.
  intros c keep patch Hreach He.
  destruct (QueryFacts.q_query_starts c m inp opts Hreach He)
    as (Hk & Htr & Hl & Hi & Herr & Hd).
  exists (length (Query.calls m)), (Query.query c inp opts m).2.
  split; [|done]. rewrite <- Hk. by destruct (Query.query c inp opts m).
Qed.

Lemma query_marks_loading_witness :
  let c := Query.queryStoreCreatorFactory "todos.getTodos"
             {| Query.opt_enabled := None;
                Query.opt_keepPreviousData := Some false |} in
  let evs := [Query.DoQuery (Some 1) None; Query.Settle 0 (inl (Some 7))] in
  let m := default (Query.create c) (Query.run (Val:=nat) c (Query.create c) evs) in
  Query.data (Query.store m) = Some 7 ∧
  ∃ k m',
    Query.query c (Some 2) None m = (Pending k, m') ∧
    Query.loading (Query.store m') = true ∧
    Query.input (Query.store m') = Some 2 ∧
    Query.error (Query.store m') = None ∧
    Query.data (Query.store m') = None.
Proof.
  intros c evs m. split; [reflexivity|].
  destruct (query_marks_loading nat "todos.getTodos"
              {| Query.opt_enabled := None;
                 Query.opt_keepPreviousData := Some false |}
              m (Some 2) None (ex_intro _ evs eq_refl) eq_refl)
    as (k & m' & Hq & _ & Hl & Hi & He & Hd).
  exists k, m'.
  exact (conj Hq (conj Hl (conj Hi (conj He Hd)))).
Defined.

(** C1. The most recent call wins. On a query store, let [query(a)] go out
    to the client as call [ka], and let [query(b)] be called later, after any
    other events, while [ka] has not settled. Then whenever [ka] settles
    afterwards, with a result or with an error, the code after its [await]
    calls [set] not once: store and trace are what they were. When the two
    calls are followed by the two settlements, in either order, the store
    ends as it does when [query(b)] is called alone and settles the same
    way, and that store is the outcome of [b]: [input] is [b], [loading] is
    false, and [data] and [error] are the result and [undefined] when [b]
    resolved, and what [query(b)] left in [data] and the error when [b]
    rejected; nothing of [a] or of its settlement is in it. The same holds
    for [mutate] on a mutation store, where [data] is [undefined] when [b]
    rejected and [error] holds what the refetch loop threw, if it threw,
    when [b] resolved. *)
Theorem most_recent_call_wins (Val : Type) :
  (∀ (c : Query.Creator) (m0 m1 m2 m3 m4 : Query.Machine Val)
     a oa ka evs1 b ob pb evs2 r,
     Query.reachable c m0 →
     Query.query c a oa m0 = (Pending ka, m1) →
     Query.run c m1 evs1 = Some m2 →
     Query.query c b ob m2 = (pb, m3) →
     Query.run c m3 evs2 = Some m4 →
     Query.awaiting m4 ka = true →
     ∃ m5, Query.step c m4 (Query.Settle ka r) = Some m5 ∧
       Query.store m5 = Query.store m4 ∧ Query.trace m5 = Query.trace m4) ∧
  (∀ (c : Query.Creator) (m0 : Query.Machine Val) a oa b ob ra rb,
     Query.enabled (Query.store m0) = true →
     let ka := length (Query.calls m0) in
     let kb := S ka in
     ∃ m m' mb,
       Query.run c m0
         [Query.DoQuery a oa; Query.DoQuery b ob;
          Query.Settle ka ra; Query.Settle kb rb] = Some m ∧
       Query.run c m0
         [Query.DoQuery a oa; Query.DoQuery b ob;
          Query.Settle kb rb; Query.Settle ka ra] = Some m' ∧
       Query.run c m0 [Query.DoQuery b ob; Query.Settle ka rb] = Some mb ∧
       Query.store m = Query.store mb ∧ Query.store m' = Query.store mb ∧
       Query.store mb =
         {| Query.enabled := true;
            Query.keepPreviousData := Query.keepPreviousData (Query.store m0);
            Query.input := b;
            Query.loading := false;
            Query.data :=
              match rb with
              | inl result => result
              | inr _ =>
                  if Query.keepPreviousData (Query.store m0)
                  then Query.data (Query.store m0) else None
              end;
            Query.error := match rb with inl _ => None | inr err => err end |}) ∧
  (∀ (c : Mutation.Creator Val) (m0 m1 m2 m3 m4 : Mutation.Machine Val)
     a oa ka evs1 b ob pb evs2 r,
     Mutation.reachable c m0 →
     Mutation.mutate c a oa m0 = (Pending ka, m1) →
     Mutation.run c m1 evs1 = Some m2 →
     Mutation.mutate c b ob m2 = (pb, m3) →
     Mutation.run c m3 evs2 = Some m4 →
     Mutation.awaiting m4 ka = true →
     ∃ m5, Mutation.step c m4 (Mutation.Settle ka r) = Some m5 ∧
       Mutation.store m5 = Mutation.store m4 ∧
       Mutation.trace m5 = Mutation.trace m4) ∧
  (∀ (c : Mutation.Creator Val) (m0 : Mutation.Machine Val) a oa b ob ra rb,
     Mutation.enabled (Mutation.store m0) = true →
     let ka := length (Mutation.calls m0) in
     let kb := S ka in
     ∃ m m' mb,
       Mutation.run c m0
         [Mutation.Mutate a oa; Mutation.Mutate b ob;
          Mutation.Settle ka ra; Mutation.Settle kb rb] = Some m ∧
       Mutation.run c m0
         [Mutation.Mutate a oa; Mutation.Mutate b ob;
          Mutation.Settle kb rb; Mutation.Settle ka ra] = Some m' ∧
       Mutation.run c m0 [Mutation.Mutate b ob; Mutation.Settle ka rb]
         = Some mb ∧
       Mutation.store m = Mutation.store mb ∧
       Mutation.store m' = Mutation.store mb ∧
       Mutation.store mb =
         {| Mutation.enabled := true;
            Mutation.input := b;
            Mutation.loading := false;
            Mutation.data :=
              match rb with inl result => result | inr _ => None end;
            Mutation.error :=
              match rb with
              | inl _ =>
                  match MutationFacts.refetch_thrown c with
                  | Some e => e
                  | None => None
                  end
              | inr err => err
              end |}).
Proof.
  split_and!.
  - intros c m0 m1 m2 m3 m4 a oa ka evs1 b ob pb evs2 r H0 Ha H1 Hb H2 Haw.
    eapply QueryFacts.q_superseded_silent; [exact H0|exact Ha|exact H1| |exact Haw].
    by rewrite Hb.
  - intros c m0 a oa b ob ra rb He ka kb.
    destruct (QueryFacts.q_last_call_wins c m0 a oa b ob ra rb He)
      as (m & m' & mb & H1 & H2 & H3 & H4 & H5 & H6).
    exists m, m', mb. split_and!; [done..|].
    rewrite H6. destruct (Query.store m0) as [en kp i l d e].
    cbn in He. subst en. by destruct rb, kp.
  - intros c m0 m1 m2 m3 m4 a oa ka evs1 b ob pb evs2 r H0 Ha H1 Hb H2 Haw.
    eapply MutationFacts.mu_superseded_silent;
      [exact H0|exact Ha|exact H1| |exact Haw].
    by rewrite Hb.
  - intros c m0 a oa b ob ra rb He ka kb.
    destruct (MutationFacts.mu_last_call_wins c m0 a oa b ob ra rb He)
      as (m & m' & mb & H1 & H2 & H3 & H4 & H5 & H6).
    exists m, m', mb. split_and!; [done..|].
    rewrite H6. destruct (Mutation.store m0) as [en i l d e].
    cbn in He. subst en. unfold MutationFacts.settle_store.
    destruct rb; [|done]. by destruct (MutationFacts.refetch_thrown c).
Qed.

Lemma most_recent_call_wins_witness :
  let c := Demo.todosStore in
  let m0 := Query.create (Val:=Demo.Val) c in
  let m1 := (Query.query c (Some "1") None m0).2 in
  let m3 := (Query.query c (Some "2") None m1).2 in
  (∃ m5, Query.step c m3 (Query.Settle 0 (inl (Some "stale"))) = Some m5 ∧
     Query.store m5 = Query.store m3 ∧ Query.trace m5 = Query.trace m3) ∧
  (∃ m m' mb,
     Query.run c m0
       [Query.DoQuery (Some "1") None; Query.DoQuery (Some "2") None;
        Query.Settle 0 (inr (Some "late")); Query.Settle 1 (inl (Some "new"))]
       = Some m ∧
     Query.run c m0
       [Query.DoQuery (Some "1") None; Query.DoQuery (Some "2") None;
        Query.Settle 1 (inl (Some "new")); Query.Settle 0 (inr (Some "late"))]
       = Some m' ∧
     Query.run c m0
       [Query.DoQuery (Some "2") None; Query.Settle 0 (inl (Some "new"))]
       = Some mb ∧
     Query.store m = Query.store mb ∧ Query.store m' = Query.store mb ∧
     Query.store mb =
       {| Query.enabled := true; Query.keepPreviousData := true;
          Query.input := Some "2"; Query.loading := false;
          Query.data := Some "new"; Query.error := None |}) ∧
  (let s := Demo.addTodoStore in
   let n0 := Mutation.create (Val:=Demo.Val) s in
   ∃ n n' nb,
     Mutation.run s n0
       [Mutation.Mutate (Some "milk") None; Mutation.Mutate (Some "eggs") None;
        Mutation.Settle 0 (inl (Some "1")); Mutation.Settle 1 (inr (Some "down"))]
       = Some n ∧
     Mutation.run s n0
       [Mutation.Mutate (Some "milk") None; Mutation.Mutate (Some "eggs") None;
        Mutation.Settle 1 (inr (Some "down")); Mutation.Settle 0 (inl (Some "1"))]
       = Some n' ∧
     Mutation.run s n0
       [Mutation.Mutate (Some "eggs") None; Mutation.Settle 0 (inr (Some "down"))]
       = Some nb ∧
     Mutation.store n = Mutation.store nb ∧
     Mutation.store n' = Mutation.store nb ∧
     Mutation.store nb =
       {| Mutation.enabled := true; Mutation.input := Some "eggs";
          Mutation.loading := false; Mutation.data := None;
          Mutation.error := Some "down" |}).
Proof.
  intros c m0 m1 m3.
  destruct (most_recent_call_wins Demo.Val) as (Hsil & Hlast & _ & Hmlast).
  split; [|split].
  - exact (Hsil c m0 m1 m1 m3 m3 (Some "1") None 0 [] (Some "2") None
             (Pending 1) [] (inl (Some "stale"))
             (ex_intro _ [] eq_refl) eq_refl eq_refl eq_refl eq_refl eq_refl).
  - destruct (Hlast c m0 (Some "1") None (Some "2") None
                (inr (Some "late")) (inl (Some "new")) eq_refl)
      as (m & m' & mb & H1 & H2 & H3 & H4 & H5 & H6).
    exists m, m', mb.
    exact (conj H1 (conj H2 (conj H3 (conj H4 (conj H5 H6))))).
  - destruct (Hmlast Demo.addTodoStore (Mutation.create Demo.addTodoStore)
                (Some "milk") None (Some "eggs") None
                (inl (Some "1")) (inr (Some "down")) eq_refl)
      as (n & n' & nb & H1 & H2 & H3 & H4 & H5 & H6).
    exists n, n', nb.
    exact (conj H1 (conj H2 (conj H3 (conj H4 (conj H5 H6))))).
Defined.

(** C6. [reset()] writes [input], [data] and [error] back to [undefined] and
    [loading] to [false] ([status] to "idle" on a subscription store) and
    leaves [enabled] as it is. It cancels what is in flight: on a query or
    mutation store every call issued before the reset stays silent whenever
    it settles afterwards; on a subscription store the handle of the
    subscription opened last is unsubscribed before the state is written. *)
Theorem reset_restores_initial_state (Val : Type) :
  (∀ (c : Query.Creator) (m : Query.Machine Val),
     Query.reachable c m →
     let m' := (Query.reset m).2 in
     Query.input (Query.store m') = None ∧
     Query.data (Query.store m') = None ∧
     Query.error (Query.store m') = None ∧
     Query.loading (Query.store m') = false ∧
     Query.enabled (Query.store m') = Query.enabled (Query.store m) ∧
     ∀ k evs m'' r,
       k < length (Query.calls m) →
       Query.run c m' evs = Some m'' →
       Query.awaiting m'' k = true →
       ∃ m3, Query.step c m'' (Query.Settle k r) = Some m3 ∧
         Query.store m3 = Query.store m'' ∧
         Query.trace m3 = Query.trace m'') ∧
  (∀ (c : Mutation.Creator Val) (m : Mutation.Machine Val),
     Mutation.reachable c m →
     let m' := (Mutation.reset m).2 in
     Mutation.input (Mutation.store m') = None ∧
     Mutation.data (Mutation.store m') = None ∧
     Mutation.error (Mutation.store m') = None ∧
     Mutation.loading (Mutation.store m') = false ∧
     Mutation.enabled (Mutation.store m')
       = Mutation.enabled (Mutation.store m) ∧
     ∀ k evs m'' r,
       k < length (Mutation.calls m) →
       Mutation.run c m' evs = Some m'' →
       Mutation.awaiting m'' k = true →
       ∃ m3, Mutation.step c m'' (Mutation.Settle k r) = Some m3 ∧
         Mutation.store m3 = Mutation.store m'' ∧
         Mutation.trace m3 = Mutation.trace m'') ∧
  (∀ (c : Subscription.Creator) (m : Subscription.Machine Val),
     Subscription.reachable c m →
     let m' := (Subscription.reset m).2 in
     Subscription.input (Subscription.store m') = None ∧
     Subscription.data (Subscription.store m') = None ∧
     Subscription.error (Subscription.store m') = None ∧
     Subscription.status (Subscription.store m') = "idle" ∧
     Subscription.enabled (Subscription.store m')
       = Subscription.enabled (Subscription.store m) ∧
     Subscription.trace m' =
       Subscription.trace m ++
         match length (Subscription.subs m) with
         | 0 => []
         | S k => [Subscription.EUnsubscribe k]
         end ++ [Subscription.ESet Subscription.initialState]).
Proof.
  split_and!.
  - intros c m Hreach m'.
    destruct (QueryFacts.q_reset_spec c m Hreach) as (Hi & Hd & He & Hl & Hen & Hst).
    split_and!; try done.
    intros k evs m'' r Hk Hrun Haw.
    eapply QueryFacts.q_stopped_silent; [by apply Hst|exact Hrun|exact Haw].
  - intros c m Hreach m'.
    destruct (MutationFacts.mu_reset_spec c m Hreach)
      as (Hi & Hd & He & Hl & Hen & Hst).
    split_and!; try done.
    intros k evs m'' r Hk Hrun Haw.
    eapply MutationFacts.mu_stopped_silent; [by apply Hst|exact Hrun|exact Haw].
  - intros c m Hreach m'. subst m'.
    rewrite SubscriptionFacts.su_reset_eq. cbn.
    split_and!; try done.
    rewrite (SubscriptionFacts.su_reachable_wf c m Hreach).
    by destruct (length (Subscription.subs m)).
Qed.

Lemma reset_restores_initial_state_witness :
  let q := Demo.todosStore in
  let s := Demo.streamTodosStore in
  let mq :=
    default (Query.create q)
      (Query.run (Val:=Demo.Val) q (Query.create q)
         [Query.DoQuery (Some "1") None]) in
  let ms :=
    default (Subscription.create s)
      (Subscription.run (Val:=Demo.Val) s (Subscription.create s)
         [Subscription.Subscribe (Some "1") None;
          Subscription.Data 0 (Some "todo")]) in
  (Query.loading (Query.store mq) = true ∧
   Query.loading (Query.store (Query.reset mq).2) = false ∧
   Query.input (Query.store (Query.reset mq).2) = None ∧
   ∃ m3, Query.step q (Query.reset mq).2 (Query.Settle 0 (inl (Some "late")))
           = Some m3 ∧
     Query.store m3 = Query.store (Query.reset mq).2) ∧
  (Subscription.status (Subscription.store ms) = "pending" ∧
   Subscription.status (Subscription.store (Subscription.reset ms).2) = "idle" ∧
   Subscription.data (Subscription.store (Subscription.reset ms).2) = None ∧
   Subscription.trace (Subscription.reset ms).2 =
     Subscription.trace ms ++
       [Subscription.EUnsubscribe 0;
        Subscription.ESet Subscription.initialState]).
Proof.
  intros q s mq ms.
  destruct (reset_restores_initial_state Demo.Val) as (Hq & _ & Hs).
  destruct (Hq q mq (ex_intro _ [Query.DoQuery (Some "1") None] eq_refl))
    as (Hi & _ & _ & Hl & _ & Hsil).
  destruct (Hsil 0 [] _ (inl (Some "late")) (le_n 1) eq_refl eq_refl)
    as (m3 & Hstep & Hst & _).
  destruct (Hs s ms
              (ex_intro _ [Subscription.Subscribe (Some "1") None;
                           Subscription.Data 0 (Some "todo")] eq_refl))
    as (_ & Hd & _ & Hstat & _ & Htr).
  split.
  - split; [reflexivity|]. split; [exact Hl|]. split; [exact Hi|].
    exists m3. exact (conj Hstep Hst).
  - split; [reflexivity|]. split; [exact Hstat|]. split; [exact Hd|].
    exact Htr.
Defined.

(** C3, as the specification states it, fails on two inputs. When the
    array [refetchStores()] returns holds a store whose [refetch] throws,
    the client's call resolves and yet [mutate] rejects with what [refetch]
    threw, after [refetch] has been invoked on that store and without
    invoking it on the stores behind it. When the array holds the same
    store twice, [mutate] resolves and [refetch] has been invoked on that
    store twice. *)
Lemma refetch_after_successful_mutation_counterexample :
  let broken : Mutation.StoreApi Demo.Val :=
    {| Mutation.api := "brokenStore";
       Mutation.refetch_throws := Some (Some "boom") |} in
  let c :=
    Mutation.mutationStoreCreatorFactory "todos.addTodo"
      {| Mutation.opt_enabled := None;
         Mutation.opt_refetchStores :=
           Some (λ _, Normal (Some [broken; Demo.useTodosStore])) |} in
  let m := (Mutation.mutate c (Some "milk") None (Mutation.create c)).2 in
  let c2 :=
    Mutation.mutationStoreCreatorFactory "todos.addTodo"
      {| Mutation.opt_enabled := None;
         Mutation.opt_refetchStores :=
           Some (λ _, Normal (Some [Demo.useTodosStore; Demo.useTodosStore])) |} in
  let m2 := (Mutation.mutate c2 (Some "milk") None (Mutation.create c2)).2 in
  (∃ m',
     Mutation.resume c 0 (inl (Some "todo")) m
       = (Rejected (Raised (Some "boom")), m') ∧
     MutationFacts.refetches (Mutation.trace m') = ["brokenStore"]) ∧
  (∃ m',
     Mutation.resume c2 0 (inl (Some "todo")) m2
       = (Resolved (Some "todo"), m') ∧
     MutationFacts.refetches (Mutation.trace m')
       = ["useTodosStore"; "useTodosStore"] ∧
     ¬ once "useTodosStore" (MutationFacts.refetches (Mutation.trace m'))).
Proof.
  intros broken c m c2 m2. split.
  - eexists. split; reflexivity.
  - eexists. split; [reflexivity|]. split; [reflexivity|].
    intros (i & _ & Hi).
    assert (H0 : 0 = i) by (apply Hi; reflexivity).
    assert (H1 : 1 = i) by (apply Hi; reflexivity).
    congruence.
Qed.

(** C3. When the client's promise of a mutation call that was not
    superseded resolves, and [refetchStores()] and every [refetch] return
    without throwing, [loading] and [data] are written and then [refetch] is
    invoked on each entry of the array [refetchStores()] returns, one
    invocation per entry and in order, so exactly once on every store of an
    array without repeats; the caller's promise resolves with the result in
    that same step, and no new call is awaited. When the client's promise
    rejects, when [mutate] is refused because the store is disabled, and
    when the call was superseded, no [refetch] is invoked. *)
Theorem refetch_after_successful_mutation (Val : Type)
    (c : Mutation.Creator Val) (m : Mutation.Machine Val)
    (thunk : Mutation.RefetchStores Val)
    (stores : list (Mutation.StoreApi Val))
    (k : nat) (cl : Mutation.Call) :
  Mutation.refetchStores c = Some thunk →
  thunk () = Normal (Some stores) →
  Mutation.calls m !! k = Some cl →
  (Mutation.stopped cl = false →
   Forall (λ s, Mutation.refetch_throws s = None) stores →
   ∀ result, ∃ m',
     Mutation.resume c k (inl result) m = (Resolved result, m') ∧
     Mutation.trace m' =
       Mutation.trace m ++
         Mutation.ESet [Mutation.PLoading false; Mutation.PData result]
         :: (Mutation.ERefetch <$> (Mutation.api <$> stores)) ∧
     length (Mutation.calls m') = length (Mutation.calls m) ∧
     (NoDup (Mutation.api <$> stores) → ∀ s, s ∈ stores →
        once (Mutation.api s)
          (MutationFacts.refetches
             (drop (length (Mutation.trace m)) (Mutation.trace m'))))) ∧
  (∀ err, ∃ m',
     Mutation.resume c k (inr err) m = (Rejected (Raised err), m') ∧
     MutationFacts.refetches (Mutation.trace m')
       = MutationFacts.refetches (Mutation.trace m)) ∧
  (Mutation.stopped cl = true →
   ∀ result, ∃ m',
     Mutation.resume c k (inl result) m = (Resolved result, m') ∧
     Mutation.trace m' = Mutation.trace m) ∧
  (Mutation.enabled (Mutation.store m) = false →
   ∀ inp opts, ∃ e,
     Mutation.mutate c inp opts m = (Rejected e, m)).
Proof.
  intros Hthunk Hstores Hk.
  split_and!.
  - intros Hs Hret result.
    destruct (MutationFacts.mu_loop_normal stores Hret) as [Hthrown Heff].
    assert (Hnone : MutationFacts.refetch_thrown c = None).
    { unfold MutationFacts.refetch_thrown. by rewrite Hthunk, Hstores. }
    assert (Hall : MutationFacts.refetch_effects c
                   = Mutation.ERefetch <$> (Mutation.api <$> stores)).
    { unfold MutationFacts.refetch_effects. by rewrite Hthunk, Hstores. }
    eexists. split.
    { rewrite (MutationFacts.mu_resume_live c m k (inl result) cl Hk Hs).
      unfold MutationFacts.outcome. by rewrite Hnone. }
    cbn [Mutation.trace Mutation.calls MutationFacts.settle_effects].
    rewrite Hnone, Hall, app_nil_r, length_alter. split_and!; [done..|].
    intros Hnd s Hin. rewrite drop_app_length.
    change (once (Mutation.api s)
              (MutationFacts.refetches
                 (Mutation.ERefetch <$> (Mutation.api <$> stores)))).
    rewrite MutationFacts.mu_refetches_fmap. apply NoDup_once; [done|].
    by apply list_elem_of_fmap_2.
  - intros err. eexists. split.
    { by rewrite MutationFacts.mu_resume_eq. }
    destruct (from_option _ _ _); cbn [Mutation.trace]; [done|].
    rewrite MutationFacts.mu_refetches_app. cbn. by rewrite app_nil_r.
  - intros Hs result. eexists. split.
    { rewrite MutationFacts.mu_resume_eq, Hk. cbn [from_option].
      rewrite Hs. reflexivity. }
    done.
  - intros He inp opts. eexists. by apply MutationFacts.mu_mutate_disabled.
Qed.

Lemma refetch_after_successful_mutation_witness :
  let c := Demo.addTodoStore in
  let m := (Mutation.mutate c (Some "milk") None (Mutation.create c)).2 in
  (∃ m',
     Mutation.resume c 0 (inl (Some "todo")) m = (Resolved (Some "todo"), m') ∧
     Mutation.trace m' =
       Mutation.trace m ++
         [Mutation.ESet [Mutation.PLoading false; Mutation.PData (Some "todo")];
          Mutation.ERefetch "useTodosStore"] ∧
     once "useTodosStore"
       (MutationFacts.refetches
          (drop (length (Mutation.trace m)) (Mutation.trace m')))) ∧
  (∃ m',
     Mutation.resume c 0 (inr (Some "NOT_FOUND")) m
       = (Rejected (Raised (Some "NOT_FOUND")), m') ∧
     MutationFacts.refetches (Mutation.trace m') = []).
Proof.
  intros c m.
  destruct (refetch_after_successful_mutation Demo.Val c m
              (λ _, Normal (Some [Demo.useTodosStore])) [Demo.useTodosStore] 0
              {| Mutation.stopped := false; Mutation.settled := false |}
              eq_refl eq_refl eq_refl) as (Hok & Herr & _ & _).
  assert (Hret : Forall (λ s : Mutation.StoreApi Demo.Val,
                           Mutation.refetch_throws s = None)
                   [Demo.useTodosStore])
    by (repeat constructor).
  destruct (Hok eq_refl Hret (Some "todo")) as (m' & Hres & Htr & _ & Honce).
  destruct (Herr (Some "NOT_FOUND")) as (m'' & Hres' & Hre).
  split.
  - exists m'.
    exact (conj Hres (conj Htr
             (Honce (NoDup_singleton _) Demo.useTodosStore
                (list_elem_of_here Demo.useTodosStore [])))).
  - exists m''. exact (conj Hres' Hre).
Defined.

(** C5. When the transport reports an error on a subscription the store
    opened, [status] becomes "error" and the error is stored; [data], [input]
    and [enabled] are left as they were; the [onError] callback given to
    [subscribe], when there is one, is called with the error after the state
    was written. *)
Theorem transport_error_keeps_data (Val : Type) (c : Subscription.Creator)
    (m : Subscription.Machine Val) (k : nat) (o : Subscription.SubscribeOpts Val)
    (err : option Val) :
  Subscription.subs m !! k = Some o →
  ∃ m',
    Subscription.step c m (Subscription.Failed k err) = Some m' ∧
    Subscription.status (Subscription.store m') = "error" ∧
    Subscription.error (Subscription.store m') = err ∧
    Subscription.data (Subscription.store m')
      = Subscription.data (Subscription.store m) ∧
    Subscription.input (Subscription.store m')
      = Subscription.input (Subscription.store m) ∧
    Subscription.enabled (Subscription.store m')
      = Subscription.enabled (Subscription.store m) ∧
    Subscription.trace m' =
      Subscription.trace m ++
        Subscription.ESet [Subscription.PStatus "error"; Subscription.PError err]
        :: match Subscription.onError o with
           | Some f => [Subscription.ECall f [err]]
           | None => []
           end.
Proof.
  intros Hk. cbn [Subscription.step]. unfold Subscription.on_sub.
  rewrite Hk. cbn [mbind option_bind].
  rewrite SubscriptionFacts.su_handle_onError_eq. eexists. split; [reflexivity|].
  cbn. by split_and!.
Qed.

Lemma transport_error_keeps_data_witness :
  let s := Demo.streamTodosStore in
  let opts :=
    {| Subscription.onStarted := None; Subscription.onData := None;
       Subscription.onError := Some "report"; Subscription.rest := None |} in
  let m :=
    default (Subscription.create s)
      (Subscription.run (Val:=Demo.Val) s (Subscription.create s)
         [Subscription.Subscribe (Some "1") (Some opts);
          Subscription.Data 0 (Some "v1"); Subscription.Data 0 (Some "v2")]) in
  ∃ m',
    Subscription.step s m (Subscription.Failed 0 (Some "boom")) = Some m' ∧
    Subscription.status (Subscription.store m') = "error" ∧
    Subscription.error (Subscription.store m') = Some "boom" ∧
    Subscription.data (Subscription.store m') = Some "v2" ∧
    Subscription.trace m' =
      Subscription.trace m ++
        [Subscription.ESet
           [Subscription.PStatus "error"; Subscription.PError (Some "boom")];
         Subscription.ECall "report" [Some "boom"]].
Proof.
  intros s opts m.
  destruct (transport_error_keeps_data Demo.Val s m 0 opts (Some "boom")
              eq_refl) as (m' & Hstep & Hst & Herr & Hd & _ & _ & Htr).
  exists m'.
  exact (conj Hstep (conj Hst (conj Herr (conj Hd Htr)))).
Defined.



(** C9. The function [subscribe] returns is the [unsubscribe] of the
    transport's handle. Calling it, at any later time, invokes that
    [unsubscribe] and nothing else: [set] is not called, so [status], [data],
    [error] and [input] are what they were; in particular [status] does not
    go back to "idle". Among the store's methods and cancel functions,
    [enable], a [toggle] that enables, and any cancel function leave these
    four fields as they are: they change only through [disable], [reset] or
    [subscribe] (the transport's calls of the handlers apart). *)
Theorem cancel_leaves_state (Val : Type) (c : Subscription.Creator)
    (m m1 : Subscription.Machine Val) (inp : option Val)
    (opts : option (Subscription.SubscribeOpts Val)) (f : Subscription.StopFn) :
  Subscription.subscribe c inp opts m = (inr f, m1) →
  f = Subscription.Unsubscribe (length (Subscription.subs m)) ∧
  Subscription.status (Subscription.store m1) = "connecting" ∧
  (∀ m' : Subscription.Machine Val, ∃ m'',
     Subscription.step c m' (Subscription.Cancel f) = Some m'' ∧
     Subscription.store m'' = Subscription.store m' ∧
     Subscription.stop m'' = Subscription.stop m' ∧
     Subscription.trace m'' =
       Subscription.trace m'
         ++ [Subscription.EUnsubscribe (length (Subscription.subs m))]) ∧
  (∀ (m' m'' : Subscription.Machine Val) ev,
     Subscription.step c m' ev = Some m'' →
     ev = Subscription.Enable ∨
     (ev = Subscription.Toggle ∧
      Subscription.enabled (Subscription.store m') = false) ∨
     (∃ g, ev = Subscription.Cancel g) →
     Subscription.status (Subscription.store m'')
       = Subscription.status (Subscription.store m') ∧
     Subscription.data (Subscription.store m'')
       = Subscription.data (Subscription.store m') ∧
     Subscription.error (Subscription.store m'')
       = Subscription.error (Subscription.store m') ∧
     Subscription.input (Subscription.store m'')
       = Subscription.input (Subscription.store m')).
Proof.
  intros Hsub.
  assert (He : Subscription.enabled (Subscription.store m) = true).
  { destruct (Subscription.enabled (Subscription.store m)) eqn:He; [done|].
    by rewrite SubscriptionFacts.su_subscribe_disabled in Hsub. }
  rewrite SubscriptionFacts.su_subscribe_enabled in Hsub by done.
  injection Hsub as <- <-. split_and!; [done..| |].
  - intros m'. eexists. split; [reflexivity|]. done.
  - intros m' m'' ev Hstep [->|[[-> Hdis]|[g ->]]];
      cbn [Subscription.step] in Hstep.
    + by apply (inj Some) in Hstep as <-.
    + rewrite SubscriptionFacts.su_toggle_eq, Hdis in Hstep.
      by apply (inj Some) in Hstep as <-.
    + apply (inj Some) in Hstep as <-.
      by rewrite SubscriptionFacts.su_invoke_eq.
Qed.

Lemma cancel_leaves_state_witness :
  let s := Demo.streamTodosStore in
  let m0 := Subscription.create (Val:=Demo.Val) s in
  let m1 := (Subscription.subscribe s (Some "1") None m0).2 in
  let m2 := (Subscription.handle_onData Subscription.no_opts (Some "v1") m1).2 in
  Subscription.status (Subscription.store m2) = "pending" ∧
  ∃ m3,
    Subscription.step s m2 (Subscription.Cancel (Subscription.Unsubscribe 0))
      = Some m3 ∧
    Subscription.store m3 = Subscription.store m2 ∧
    Subscription.trace m3 = Subscription.trace m2 ++ [Subscription.EUnsubscribe 0].
Proof.
  intros s m0 m1 m2. split; [reflexivity|].
  destruct (cancel_leaves_state Demo.Val s m0 m1 (Some "1") None
              (Subscription.Unsubscribe 0) eq_refl) as (_ & _ & Hc & _).
  destruct (Hc m2) as (m3 & Hstep & Hst & _ & Htr).
  exists m3. exact (conj Hstep (conj Hst Htr)).
Defined.

(** C10. Reading a property of a proxy only extends the path the proxy
    holds: any sequence of property names is accepted and leads to the proxy
    of exactly that path, with no store factory run. Calling a proxy whose
    last segment is not [queryStore], [mutationStore] or [subscriptionStore]
    (or whose path is empty) returns [undefined], whatever the arguments. *)
Theorem dispatch_is_lazy (Val : Type) :
  (∀ (p : Dispatch.Proxy) (prop : string),
     Dispatch.get p prop
       = Dispatch.createProxy (Dispatch.proxy_path p ++ [prop])) ∧
  (∀ props : list string,
     Dispatch.traverse Dispatch.createTRPCZustand props
       = Dispatch.createProxy props) ∧
  (∀ (p : Dispatch.Proxy) (args : list (option (Dispatch.StoreOpts Val))),
     last (Dispatch.proxy_path p) ∉
       [Some "queryStore"; Some "mutationStore"; Some "subscriptionStore"] →
     Dispatch.apply p args = Dispatch.Undefined).
Proof.
  split_and!.
  - done.
  - intros props. by rewrite DispatchFacts.traverse_path.
  - intros p args Hnot. apply DispatchFacts.apply_other;
      intros Heq; apply Hnot; rewrite Heq; set_solver.
Qed.

Lemma dispatch_is_lazy_witness :
  Dispatch.apply (Val:=Demo.Val)
    (Dispatch.traverse Demo.trpc ["todos"; "getTodos"; "useQuery"]) []
    = Dispatch.Undefined ∧
  Dispatch.apply (Val:=Demo.Val) Demo.trpc [] = Dispatch.Undefined ∧
  Dispatch.apply (Val:=Demo.Val)
    (Dispatch.traverse Demo.trpc ["todos"; "getTodos"; "queryStore"]) []
    = Dispatch.QueryStore Demo.todosStore.
Proof.
  destruct (dispatch_is_lazy Demo.Val) as (_ & _ & Hun).
  split; [|split].
  - apply Hun. cbn. intros Hin.
    repeat (apply elem_of_cons in Hin as [Hin|Hin]; [discriminate|]).
    by apply elem_of_nil in Hin.
  - apply Hun. cbn. intros Hin.
    repeat (apply elem_of_cons in Hin as [Hin|Hin]; [discriminate|]).
    by apply elem_of_nil in Hin.
  - reflexivity.
Defined.

(** C8. In the registry as the specification describes it, one
    [invalidate(keys)] pass invokes the re-run callback of a registration
    found under at least one of the invalidated keys exactly once, however
    many of the keys it is found under. In particular a registration just
    added under some keys is re-run exactly once by an invalidation that
    names one or more of them. *)
Theorem invalidate_reruns_once (r : LiveStore.Registry)
    (keys : LiveStore.Keys) :
  ∃ pass,
    LiveStore.reruns (LiveStore.invalidate keys r)
      = LiveStore.reruns r ++ pass ∧
    NoDup pass ∧
    (∀ id key,
       key ∈ LiveStore.normalize keys →
       id ∈ LiveStore.under (LiveStore.index r) key →
       once id pass) ∧
    (∀ id, id ∈ pass →
       ∃ key, key ∈ LiveStore.normalize keys ∧
         id ∈ LiveStore.under (LiveStore.index r) key) ∧
    (∀ own r0 key,
       r = (LiveStore.register own r0).2 →
       key ∈ LiveStore.normalize own →
       key ∈ LiveStore.normalize keys →
       once (LiveStore.next r0) pass).
Proof.
  exists (elements (LiveStore.matching r keys)).
  assert (Honce : ∀ id key,
    key ∈ LiveStore.normalize keys →
    id ∈ LiveStore.under (LiveStore.index r) key →
    once id (elements (LiveStore.matching r keys))).
  { intros id key Hkey Hid. apply NoDup_once; [apply NoDup_elements|].
    apply elem_of_elements, LiveStoreFacts.matching_elem. by exists key. }
  split_and!.
  - done.
  - apply NoDup_elements.
  - exact Honce.
  - intros id Hid. by apply LiveStoreFacts.matching_elem, elem_of_elements.
  - intros own r0 key -> Hown Hkeys. apply (Honce _ key Hkeys).
    cbn. by apply LiveStoreFacts.register_under.
Qed.

Lemma invalidate_reruns_once_witness :
  let r := (LiveStore.register (LiveStore.Many ["a"; "b"]) LiveStore.empty).2 in
  ∃ pass,
    LiveStore.reruns (LiveStore.invalidate (LiveStore.Many ["a"; "b"]) r)
      = pass ∧
    once 0 pass.
Proof.
  intros r.
  destruct (invalidate_reruns_once r (LiveStore.Many ["a"; "b"]))
    as (pass & Hpass & _ & _ & _ & Hreg).
  exists pass. split; [exact Hpass|].
  apply (Hreg (LiveStore.Many ["a"; "b"]) LiveStore.empty "a" eq_refl).
  - cbn. set_solver.
  - cbn. set_solver.
Defined.

(** * More about the stores and the demo server *)

(** ** Query stores, continued *)

Module QueryMore.
Import Query QueryFacts.
Section More.
Context {Val : Type}.
Implicit Types (m : Machine Val) (c : Creator) (k : nat) (l : list Call).

(** [stop] holds the closure of the call issued last. *)
Definition stop_last m : Prop :=
  match stop m with
  | Noop => calls m = []
  | MarkStopped k => length (calls m) = S k
  end.

Lemma qx_stop_last_stop_calls m st tr :
  stop_last m →
  stop_last {| store := st; stop := stop m; calls := stop_calls m;
               trace := tr |}.
Proof.
  unfold stop_last, stop_calls. simpl. destruct (stop m); [done|].
  by rewrite length_alter.
Qed.

Lemma qx_query_stop_last c m inp opts :
  stop_last m → stop_last (query c inp opts m).2.
Proof.
  intros H. destruct (enabled (store m)) eqn:He.
  - rewrite q_query_enabled by done. unfold stop_last. simpl.
    rewrite length_app, q_stop_calls_length. simpl. lia.
  - by rewrite q_query_disabled.
Qed.

Lemma qx_step_stop_last c m ev m' :
  step c m ev = Some m' → stop_last m → stop_last m'.
Proof.
  intros Hstep H.
  destruct ev; cbn [step] in Hstep;
    rewrite ?q_toggle_eq, ?q_refetch_eq in Hstep.
  - by apply (inj Some) in Hstep as <-.
  - apply (inj Some) in Hstep as <-. rewrite q_disable_eq.
    by apply qx_stop_last_stop_calls.
  - apply (inj Some) in Hstep as <-. destruct (enabled (store m)).
    + rewrite q_disable_eq. by apply qx_stop_last_stop_calls.
    + done.
  - apply (inj Some) in Hstep as <-. rewrite q_reset_eq.
    by apply qx_stop_last_stop_calls.
  - apply (inj Some) in Hstep as <-. by apply qx_query_stop_last.
  - apply (inj Some) in Hstep as <-. by apply qx_query_stop_last.
  - destruct (awaiting m k); [|done]. apply (inj Some) in Hstep as <-.
    rewrite q_resume_eq. unfold stop_last in *. simpl.
    destruct (from_option _ _ _); simpl; destruct (stop m);
      rewrite ?length_alter; try done; by rewrite H.
Qed.

Lemma qx_reachable_stop_last c m : reachable c m → stop_last m.
Proof.
  intros [evs Hrun].
  enough (∀ m0, run c m0 evs = Some m → stop_last m0 → stop_last m) as H.
  { by eapply H. }
  clear Hrun. induction evs as [|ev evs IH]; simpl; intros m0 Hrun H0.
  - by apply (inj Some) in Hrun as <-.
  - destruct (step c m0 ev) as [m1|] eqn:Hstep; [|done]. simpl in Hrun.
    eapply IH; [done|]. by eapply qx_step_stop_last.
Qed.

(** Call [k] can still write and its promise has not settled. *)
Definition live m k : Prop :=
  ∃ cl, calls m !! k = Some cl ∧ stopped cl = false ∧ settled cl = false.

(** [loading] tells whether some call is live. *)
Definition loading_inv m : Prop :=
  loading (store m) = true ↔ ∃ k, live m k.

Lemma qx_not_live_stop_calls m st tr k :
  wf m →
  ¬ live {| store := st; stop := stop m; calls := stop_calls m;
            trace := tr |} k.
Proof.
  intros Hwf (cl & Hk & Hs & _). simpl in Hk.
  apply lookup_lt_Some in Hk as Hlt. rewrite q_stop_calls_length in Hlt.
  destruct (q_stop_calls_all m k Hwf Hlt) as (cl' & Hk' & Hs'). congruence.
Qed.

Lemma qx_query_loading_inv c m inp opts :
  loading_inv m → loading_inv (query c inp opts m).2.
Proof.
  intros H. destruct (enabled (store m)) eqn:He.
  - rewrite q_query_enabled by done. unfold loading_inv. simpl.
    split; [intros _|done]. exists (length (calls m)), fresh. simpl.
    rewrite lookup_app_r by (by rewrite q_stop_calls_length).
    by rewrite q_stop_calls_length, Nat.sub_diag.
  - by rewrite q_query_disabled.
Qed.

Lemma qx_lookup_settled l j k cl :
  alter mark_settled j l !! k = Some cl → settled cl = false →
  j ≠ k ∧ l !! k = Some cl.
Proof.
  destruct (decide (j = k)) as [->|Hne].
  - rewrite list_lookup_alter_eq. destruct (l !! k); [|done].
    simpl. by intros [= <-].
  - by rewrite list_lookup_alter_ne.
Qed.

Lemma qx_step_loading_inv c m ev m' :
  step c m ev = Some m' → wf m → loading_inv m → loading_inv m'.
Proof.
  intros Hstep Hwf H.
  assert (Hclear : ∀ st tr, loading st = false →
    loading_inv {| store := st; stop := stop m; calls := stop_calls m;
                   trace := tr |}).
  { intros st tr Hl. unfold loading_inv. simpl. rewrite Hl.
    split; [done|]. intros [k Hk]. by apply qx_not_live_stop_calls in Hk. }
  destruct ev; cbn [step] in Hstep;
    rewrite ?q_toggle_eq, ?q_refetch_eq in Hstep.
  - by apply (inj Some) in Hstep as <-.
  - apply (inj Some) in Hstep as <-. rewrite q_disable_eq. by apply Hclear.
  - apply (inj Some) in Hstep as <-. destruct (enabled (store m)).
    + rewrite q_disable_eq. by apply Hclear.
    + done.
  - apply (inj Some) in Hstep as <-. rewrite q_reset_eq. by apply Hclear.
  - apply (inj Some) in Hstep as <-. by apply qx_query_loading_inv.
  - apply (inj Some) in Hstep as <-. by apply qx_query_loading_inv.
  - destruct (awaiting m k); [|done]. apply (inj Some) in Hstep as <-.
    rewrite q_resume_eq. unfold loading_inv, live in *. simpl.
    destruct (calls m !! k) as [clk|] eqn:Hk; simpl.
    2: { rewrite H. split; intros (k' & cl & Hk' & Hs & Hse).
         - exists k', cl. split; [|done].
           destruct (decide (k = k')) as [->|Hne]; [congruence|].
           by rewrite list_lookup_alter_ne.
         - apply qx_lookup_settled in Hk' as [_ Hk']; [|done]. eauto. }
    destruct (stopped clk) eqn:Hsk; simpl.
    + rewrite H. split; intros (k' & cl & Hk' & Hs & Hse).
      * exists k', cl. split; [|done].
        destruct (decide (k = k')) as [->|Hne]; [congruence|].
        by rewrite list_lookup_alter_ne.
      * apply qx_lookup_settled in Hk' as [_ Hk']; [|done]. eauto.
    + split.
      { by destruct r. }
      intros (k' & cl & Hk' & Hs & Hse).
      apply qx_lookup_settled in Hk' as [Hne Hk']; [|done].
      destruct (Hwf k clk Hk Hsk) as [Hst _].
      destruct (Hwf k' cl Hk' Hs) as [Hst' _]. congruence.
Qed.

Lemma qx_reachable_loading_inv c m : reachable c m → loading_inv m.
Proof.
  intros [evs Hrun].
  enough (∀ m0, run c m0 evs = Some m → wf m0 → loading_inv m0 →
    loading_inv m) as H.
  { eapply H; [done|apply q_wf_create|].
    split; [done|]. by intros (k & cl & Hk & _). }
  clear Hrun. induction evs as [|ev evs IH]; simpl; intros m0 Hrun Hwf H0.
  - by apply (inj Some) in Hrun as <-.
  - destruct (step c m0 ev) as [m1|] eqn:Hstep; [|done]. simpl in Hrun.
    eapply IH; [done|by eapply q_step_wf|by eapply qx_step_loading_inv].
Qed.

Lemma qx_run_app c evs1 evs2 : ∀ m,
  run c m (evs1 ++ evs2) = m' ← run c m evs1; run c m' evs2.
Proof.
  induction evs1 as [|ev evs1 IH]; intros m; [done|]. simpl.
  destruct (step c m ev) as [m1|]; [|done]. simpl. apply IH.
Qed.

(** *** [disable] and [toggle] *)

Lemma qx_disable_spec c m :
  reachable c m →
  let m' := (disable m).2 in
  enabled (store m') = false ∧
  input (store m') = None ∧ data (store m') = None ∧
  error (store m') = None ∧ loading (store m') = false ∧
  (∀ k, k < length (calls m) → is_stopped m' k).
Proof.
  intros Hreach. cbv zeta. rewrite q_disable_eq. simpl.
  split_and!; try done. intros k Hk. apply q_stop_calls_all; [|done].
  by apply q_reachable_wf in Hreach.
Qed.

Lemma qx_toggle_twice m :
  let m2 := (toggle (toggle m).2).2 in
  store m2 = store (reset m).2 ∧
  calls m2 = calls (reset m).2 ∧
  stop m2 = stop (reset m).2.
Proof.
  cbv zeta. rewrite q_reset_eq, (q_toggle_eq m).
  destruct (enabled (store m)) eqn:He.
  - assert (E : enabled (store (disable m).2) = false)
      by (by rewrite q_disable_eq).
    rewrite (q_toggle_eq (disable m).2), E, q_enable_eq, q_disable_eq.
    simpl. split_and!; try done.
    destruct (store m); simpl in *. by subst.
  - assert (E : enabled (store (enable m).2) = true) by done.
    rewrite (q_toggle_eq (enable m).2), E, q_disable_eq.
    simpl. split_and!; try done.
    destruct (store m); simpl in *. by subst.
Qed.

(** *** A call and its settlement *)

Lemma qx_query_settle c m inp opts r :
  enabled (store m) = true →
  ∃ m1 m2,
    query c inp opts m = (Pending (length (calls m)), m1) ∧
    resume (length (calls m)) r m1 = (outcome r, m2) ∧
    run c m [DoQuery inp opts; Settle (length (calls m)) r] = Some m2 ∧
    store m2 =
      {| enabled := true;
         keepPreviousData := keepPreviousData (store m);
         input := inp;
         loading := false;
         data := match r with
                 | inl result => result
                 | inr _ =>
                     if keepPreviousData (store m) then data (store m)
                     else None
                 end;
         error := match r with inl _ => None | inr err => err end |} ∧
    length (calls m2) = S (length (calls m)).
Proof.
  intros He.
  destruct (q_query_step c m inp opts He) as (m1 & Hs1 & Hst1 & Hc1 & Hp1).
  assert (Hk : calls m1 !! length (calls m) = Some fresh).
  { rewrite Hc1, lookup_app_r by (by rewrite q_stop_calls_length).
    by rewrite q_stop_calls_length, Nat.sub_diag. }
  destruct (q_settle_step c m1 _ r _ Hk eq_refl)
    as (m2 & Hs2 & Hst2 & Hc2 & _).
  exists m1, m2.
  assert (Hrun : run c m [DoQuery inp opts; Settle (length (calls m)) r]
                 = Some m2).
  { cbn [run mbind option_bind]. rewrite Hs1. cbn [mbind option_bind].
    by rewrite Hs2. }
  cbn [step] in Hs1. apply (inj Some) in Hs1.
  cbn [step] in Hs2. unfold awaiting in Hs2. rewrite Hk in Hs2.
  cbn in Hs2. apply (inj Some) in Hs2.
  split_and!.
  - rewrite <- Hs1, q_query_enabled by done. done.
  - rewrite <- Hs2. by rewrite q_resume_eq.
  - exact Hrun.
  - rewrite Hst2, Hst1. simpl. rewrite He.
    destruct (store m), r; reflexivity.
  - rewrite Hc2, length_alter, Hc1, length_app, q_stop_calls_length.
    simpl. lia.
Qed.

(** *** [refetch] *)

Lemma qx_refetch_spec c m opts :
  enabled (store m) = true →
  ∃ m',
    refetch c opts m = (Pending (length (calls m)), m') ∧
    input (store m') = input (store m) ∧
    trace m' =
      trace m ++
        [ESet (query_patch (store m) (input (store m)));
         EClientQuery (length (calls m)) (path c) (input (store m)) opts].
Proof.
  intros He. rewrite q_refetch_eq, q_query_enabled by done.
  eexists. split; [reflexivity|]. done.
Qed.

(** *** What the fields tell *)

(** While a call is in flight there is no error, and a disabled store
    holds nothing. *)
Definition clean m : Prop :=
  (loading (store m) = true → error (store m) = None) ∧
  (enabled (store m) = false →
   input (store m) = None ∧ loading (store m) = false ∧
   data (store m) = None ∧ error (store m) = None).

Lemma qx_step_clean c m ev m' :
  step c m ev = Some m' → wf m → clean m → clean m'.
Proof.
  intros Hstep Hwf Hc.
  assert (Hq : ∀ inp opts, clean (query c inp opts m).2).
  { intros inp opts. destruct (enabled (store m)) eqn:He.
    - rewrite q_query_enabled by done. split; simpl; [done|].
      by rewrite He.
    - by rewrite q_query_disabled. }
  destruct Hc as [H1 H2].
  destruct ev; cbn [step] in Hstep;
    rewrite ?q_toggle_eq, ?q_refetch_eq in Hstep.
  - apply (inj Some) in Hstep as <-. by split.
  - apply (inj Some) in Hstep as <-. rewrite q_disable_eq. by split.
  - apply (inj Some) in Hstep as <-. destruct (enabled (store m)).
    + rewrite q_disable_eq. by split.
    + by split.
  - apply (inj Some) in Hstep as <-. rewrite q_reset_eq. by split.
  - apply (inj Some) in Hstep as <-. apply Hq.
  - apply (inj Some) in Hstep as <-. apply Hq.
  - destruct (awaiting m k); [|done]. apply (inj Some) in Hstep as <-.
    rewrite q_resume_eq. simpl.
    destruct (calls m !! k) as [cl|] eqn:Hk; simpl; [|by split].
    destruct (stopped cl) eqn:Hs; [by split|].
    destruct (Hwf k cl Hk Hs) as [_ He].
    split; simpl.
    + by destruct r.
    + destruct r; simpl; congruence.
Qed.

Lemma qx_reachable_clean c m : reachable c m → clean m.
Proof.
  intros [evs Hrun].
  enough (∀ m0, run c m0 evs = Some m → wf m0 → clean m0 → clean m) as H.
  { eapply H; [done|apply q_wf_create|]. by split. }
  clear Hrun. induction evs as [|ev evs IH]; simpl; intros m0 Hrun Hwf H0.
  - by apply (inj Some) in Hrun as <-.
  - destruct (step c m0 ev) as [m1|] eqn:Hstep; [|done]. simpl in Hrun.
    eapply IH; [done|by eapply q_step_wf|by eapply qx_step_clean].
Qed.
End More.
End QueryMore.

(** ** Mutation stores, continued *)

Module MutationMore.
Import Mutation MutationFacts.
Section More.
Context {Val : Type}.
Implicit Types (m : Machine Val) (c : Creator Val) (k : nat) (l : list Call).

(** [stop] holds the closure of the call issued last. *)
Definition stop_last m : Prop :=
  match stop m with
  | Noop => calls m = []
  | MarkStopped k => length (calls m) = S k
  end.

Lemma mux_stop_last_stop_calls m st tr :
  stop_last m →
  stop_last {| store := st; stop := stop m; calls := stop_calls m;
               trace := tr |}.
Proof.
  unfold stop_last, stop_calls. simpl. destruct (stop m); [done|].
  by rewrite length_alter.
Qed.

Lemma mux_mutate_stop_last c m inp opts :
  stop_last m → stop_last (mutate c inp opts m).2.
Proof.
  intros H. destruct (enabled (store m)) eqn:He.
  - rewrite mu_mutate_enabled by done. unfold stop_last. simpl.
    rewrite length_app, mu_stop_calls_length. simpl. lia.
  - by rewrite mu_mutate_disabled.
Qed.

Lemma mux_step_stop_last c m ev m' :
  step c m ev = Some m' → stop_last m → stop_last m'.
Proof.
  intros Hstep H.
  destruct ev; cbn [step] in Hstep;
    rewrite ?mu_toggle_eq in Hstep.
  - by apply (inj Some) in Hstep as <-.
  - apply (inj Some) in Hstep as <-. rewrite mu_disable_eq.
    by apply mux_stop_last_stop_calls.
  - apply (inj Some) in Hstep as <-. destruct (enabled (store m)).
    + rewrite mu_disable_eq. by apply mux_stop_last_stop_calls.
    + done.
  - apply (inj Some) in Hstep as <-. rewrite mu_reset_eq.
    by apply mux_stop_last_stop_calls.
  - apply (inj Some) in Hstep as <-. by apply mux_mutate_stop_last.
  - destruct (awaiting m k); [|done]. apply (inj Some) in Hstep as <-.
    rewrite (mu_resume_eq c). unfold stop_last in *. simpl.
    destruct (from_option _ _ _); simpl; destruct (stop m);
      rewrite ?length_alter; try done; by rewrite H.
Qed.

Lemma mux_reachable_stop_last c m : reachable c m → stop_last m.
Proof.
  intros [evs Hrun].
  enough (∀ m0, run c m0 evs = Some m → stop_last m0 → stop_last m) as H.
  { by eapply H. }
  clear Hrun. induction evs as [|ev evs IH]; simpl; intros m0 Hrun H0.
  - by apply (inj Some) in Hrun as <-.
  - destruct (step c m0 ev) as [m1|] eqn:Hstep; [|done]. simpl in Hrun.
    eapply IH; [done|]. by eapply mux_step_stop_last.
Qed.

(** Call [k] can still write and its promise has not settled. *)
Definition live m k : Prop :=
  ∃ cl, calls m !! k = Some cl ∧ stopped cl = false ∧ settled cl = false.

(** [loading] tells whether some call is live. *)
Definition loading_inv m : Prop :=
  loading (store m) = true ↔ ∃ k, live m k.

Lemma mux_not_live_stop_calls m st tr k :
  wf m →
  ¬ live {| store := st; stop := stop m; calls := stop_calls m;
            trace := tr |} k.
Proof.
  intros Hwf (cl & Hk & Hs & _). simpl in Hk.
  apply lookup_lt_Some in Hk as Hlt. rewrite mu_stop_calls_length in Hlt.
  destruct (mu_stop_calls_all m k Hwf Hlt) as (cl' & Hk' & Hs'). congruence.
Qed.

Lemma mux_mutate_loading_inv c m inp opts :
  loading_inv m → loading_inv (mutate c inp opts m).2.
Proof.
  intros H. destruct (enabled (store m)) eqn:He.
  - rewrite mu_mutate_enabled by done. unfold loading_inv. simpl.
    split; [intros _|done]. exists (length (calls m)), fresh. simpl.
    rewrite lookup_app_r by (by rewrite mu_stop_calls_length).
    by rewrite mu_stop_calls_length, Nat.sub_diag.
  - by rewrite mu_mutate_disabled.
Qed.

Lemma mux_lookup_settled l j k cl :
  alter mark_settled j l !! k = Some cl → settled cl = false →
  j ≠ k ∧ l !! k = Some cl.
Proof.
  destruct (decide (j = k)) as [->|Hne].
  - rewrite list_lookup_alter_eq. destruct (l !! k); [|done].
    simpl. by intros [= <-].
  - by rewrite list_lookup_alter_ne.
Qed.

Lemma mux_step_loading_inv c m ev m' :
  step c m ev = Some m' → wf m → loading_inv m → loading_inv m'.
Proof.
  intros Hstep Hwf H.
  assert (Hclear : ∀ st tr, loading st = false →
    loading_inv {| store := st; stop := stop m; calls := stop_calls m;
                   trace := tr |}).
  { intros st tr Hl. unfold loading_inv. simpl. rewrite Hl.
    split; [done|]. intros [k Hk]. by apply mux_not_live_stop_calls in Hk. }
  destruct ev; cbn [step] in Hstep;
    rewrite ?mu_toggle_eq in Hstep.
  - by apply (inj Some) in Hstep as <-.
  - apply (inj Some) in Hstep as <-. rewrite mu_disable_eq. by apply Hclear.
  - apply (inj Some) in Hstep as <-. destruct (enabled (store m)).
    + rewrite mu_disable_eq. by apply Hclear.
    + done.
  - apply (inj Some) in Hstep as <-. rewrite mu_reset_eq. by apply Hclear.
  - apply (inj Some) in Hstep as <-. by apply mux_mutate_loading_inv.
  - destruct (awaiting m k); [|done]. apply (inj Some) in Hstep as <-.
    rewrite (mu_resume_eq c). unfold loading_inv, live in *.
    cbn [snd].
    destruct (calls m !! k) as [clk|] eqn:Hk; cbn [from_option store calls].
    2: { rewrite H. split; intros (k' & cl & Hk' & Hs & Hse).
         - exists k', cl. split; [|done].
           destruct (decide (k = k')) as [->|Hne]; [congruence|].
           by rewrite list_lookup_alter_ne.
         - apply mux_lookup_settled in Hk' as [_ Hk']; [|done]. eauto. }
    destruct (stopped clk) eqn:Hsk; cbn [store calls].
    + rewrite H. split; intros (k' & cl & Hk' & Hs & Hse).
      * exists k', cl. split; [|done].
        destruct (decide (k = k')) as [->|Hne]; [congruence|].
        by rewrite list_lookup_alter_ne.
      * apply mux_lookup_settled in Hk' as [_ Hk']; [|done]. eauto.
    + split.
      { by rewrite mu_settle_store_loading. }
      intros (k' & cl & Hk' & Hs & Hse).
      apply mux_lookup_settled in Hk' as [Hne Hk']; [|done].
      destruct (Hwf k clk Hk Hsk) as [Hst _].
      destruct (Hwf k' cl Hk' Hs) as [Hst' _]. congruence.
Qed.

Lemma mux_reachable_loading_inv c m : reachable c m → loading_inv m.
Proof.
  intros [evs Hrun].
  enough (∀ m0, run c m0 evs = Some m → wf m0 → loading_inv m0 →
    loading_inv m) as H.
  { eapply H; [done|apply mu_wf_create|].
    split; [done|]. by intros (k & cl & Hk & _). }
  clear Hrun. induction evs as [|ev evs IH]; simpl; intros m0 Hrun Hwf H0.
  - by apply (inj Some) in Hrun as <-.
  - destruct (step c m0 ev) as [m1|] eqn:Hstep; [|done]. simpl in Hrun.
    eapply IH; [done|by eapply mu_step_wf|by eapply mux_step_loading_inv].
Qed.

(** *** [disable] and [toggle] *)

Lemma mux_disable_spec c m :
  reachable c m →
  let m' := (disable m).2 in
  enabled (store m') = false ∧
  input (store m') = None ∧ data (store m') = None ∧
  error (store m') = None ∧ loading (store m') = false ∧
  (∀ k, k < length (calls m) → is_stopped m' k).
Proof.
  intros Hreach. cbv zeta. rewrite mu_disable_eq. simpl.
  split_and!; try done. intros k Hk. apply mu_stop_calls_all; [|done].
  by apply mu_reachable_wf in Hreach.
Qed.

Lemma mux_toggle_twice m :
  let m2 := (toggle (toggle m).2).2 in
  store m2 = store (reset m).2 ∧
  calls m2 = calls (reset m).2 ∧
  stop m2 = stop (reset m).2.
Proof.
  cbv zeta. rewrite mu_reset_eq, (mu_toggle_eq m).
  destruct (enabled (store m)) eqn:He.
  - assert (E : enabled (store (disable m).2) = false)
      by (by rewrite mu_disable_eq).
    rewrite (mu_toggle_eq (disable m).2), E, mu_enable_eq, mu_disable_eq.
    simpl. split_and!; try done.
    destruct (store m); simpl in *. by subst.
  - assert (E : enabled (store (enable m).2) = true) by done.
    rewrite (mu_toggle_eq (enable m).2), E, mu_disable_eq.
    simpl. split_and!; try done.
    destruct (store m); simpl in *. by subst.
Qed.

(** *** A call and its settlement *)

Lemma mux_mutate_settle c m inp opts r :
  enabled (store m) = true →
  ∃ m1 m2,
    mutate c inp opts m = (Pending (length (calls m)), m1) ∧
    resume c (length (calls m)) r m1 = (outcome c false r, m2) ∧
    run c m [Mutate inp opts; Settle (length (calls m)) r] = Some m2 ∧
    store m2 =
      {| enabled := true;
         input := inp;
         loading := false;
         data := match r with inl result => result | inr _ => None end;
         error :=
           match r with
           | inl _ =>
               match refetch_thrown c with Some e => e | None => None end
           | inr err => err
           end |} ∧
    trace m2 = trace m1 ++ settle_effects c r.
Proof.
  intros He.
  destruct (mu_mutate_step c m inp opts He) as (m1 & Hs1 & Hst1 & Hc1 & Hp1).
  assert (Hk : calls m1 !! length (calls m) = Some fresh).
  { rewrite Hc1, lookup_app_r by (by rewrite mu_stop_calls_length).
    by rewrite mu_stop_calls_length, Nat.sub_diag. }
  destruct (mu_settle_step c m1 _ r _ Hk eq_refl) as (m2 & Hs2 & Hst2 & _ & _).
  exists m1, m2.
  assert (Hrun : run c m [Mutate inp opts; Settle (length (calls m)) r]
                 = Some m2).
  { cbn [run mbind option_bind]. rewrite Hs1. cbn [mbind option_bind].
    by rewrite Hs2. }
  cbn [step] in Hs1. apply (inj Some) in Hs1.
  cbn [step] in Hs2. unfold awaiting in Hs2. rewrite Hk in Hs2.
  cbn [from_option settled fresh negb] in Hs2. apply (inj Some) in Hs2.
  split_and!.
  - rewrite <- Hs1, mu_mutate_enabled by done. done.
  - rewrite <- Hs2. by rewrite (mu_resume_live c m1 _ r fresh Hk eq_refl).
  - exact Hrun.
  - rewrite Hst2, Hst1. cbn [stopped fresh]. unfold settle_store.
    destruct (store m) as [en i l d e]. cbn in He. subst en.
    destruct r; [|done]. by destruct (refetch_thrown c).
  - rewrite <- Hs2. by rewrite (mu_resume_live c m1 _ r fresh Hk eq_refl).
Qed.

(** *** What the fields tell *)

(** While a call is in flight there is no error, and a disabled store
    holds nothing. *)
Definition clean m : Prop :=
  (loading (store m) = true →
   error (store m) = None ∧ data (store m) = None) ∧
  (enabled (store m) = false →
   input (store m) = None ∧ loading (store m) = false ∧
   data (store m) = None ∧ error (store m) = None).

Lemma mux_step_clean c m ev m' :
  step c m ev = Some m' → wf m → clean m → clean m'.
Proof.
  intros Hstep Hwf Hc.
  assert (Hq : ∀ inp opts, clean (mutate c inp opts m).2).
  { intros inp opts. destruct (enabled (store m)) eqn:He.
    - rewrite mu_mutate_enabled by done. split; simpl; [done|].
      by rewrite He.
    - by rewrite mu_mutate_disabled. }
  destruct Hc as [H1 H2].
  destruct ev; cbn [step] in Hstep;
    rewrite ?mu_toggle_eq in Hstep.
  - apply (inj Some) in Hstep as <-. by split.
  - apply (inj Some) in Hstep as <-. rewrite mu_disable_eq. by split.
  - apply (inj Some) in Hstep as <-. destruct (enabled (store m)).
    + rewrite mu_disable_eq. by split.
    + by split.
  - apply (inj Some) in Hstep as <-. rewrite mu_reset_eq. by split.
  - apply (inj Some) in Hstep as <-. apply Hq.
  - destruct (awaiting m k); [|done]. apply (inj Some) in Hstep as <-.
    rewrite (mu_resume_eq c). cbn [snd].
    destruct (calls m !! k) as [cl|] eqn:Hk; cbn [from_option]; [|by split].
    destruct (stopped cl) eqn:Hs; [by split|].
    destruct (Hwf k cl Hk Hs) as [_ He].
    split; cbn [store].
    + by rewrite mu_settle_store_loading.
    + rewrite mu_settle_store_enabled. congruence.
Qed.

Lemma mux_reachable_clean c m : reachable c m → clean m.
Proof.
  intros [evs Hrun].
  enough (∀ m0, run c m0 evs = Some m → wf m0 → clean m0 → clean m) as H.
  { eapply H; [done|apply mu_wf_create|]. by split. }
  clear Hrun. induction evs as [|ev evs IH]; simpl; intros m0 Hrun Hwf H0.
  - by apply (inj Some) in Hrun as <-.
  - destruct (step c m0 ev) as [m1|] eqn:Hstep; [|done]. simpl in Hrun.
    eapply IH; [done|by eapply mu_step_wf|by eapply mux_step_clean].
Qed.
End More.
End MutationMore.

(** ** Subscription stores, continued *)

Module SubscriptionMore.
Import Subscription SubscriptionFacts.
Section More.
Context {Val : Type}.
Implicit Types (m : Machine Val) (c : Creator) (k : nat)
  (o : SubscribeOpts Val).

(** The item of the last [Data] event of a run, [d0] when there is none. *)
Definition last_item (d0 : option Val) (evs : list (Event Val)) : option Val :=
  foldl (λ d ev, match ev with Data _ d' => d' | _ => d end) d0 evs.

(** The events that are not a call of [disable], [toggle], [reset] or
    [subscribe]. *)
Definition keeps_stream (ev : Event Val) : bool :=
  match ev with
  | Disable | Toggle | Reset | Subscribe _ _ => false
  | _ => true
  end.

Lemma sux_step_keeps c m ev m' :
  step c m ev = Some m' → keeps_stream ev = true →
  data (store m') = last_item (data (store m)) [ev] ∧
  input (store m') = input (store m).
Proof.
  intros Hstep Hk.
  destruct ev; try done; cbn [step] in Hstep; unfold on_sub in Hstep;
    try (destruct (subs m !! k) as [o|]; [|done]; cbn in Hstep);
    apply (inj Some) in Hstep as <-.
  - done.
  - by rewrite su_invoke_eq.
  - by rewrite su_handle_onStarted_eq.
  - by rewrite su_handle_onData_eq.
  - by rewrite su_handle_onError_eq.
  - done.
Qed.

Lemma sux_run_keeps c evs : ∀ m m',
  run c m evs = Some m' → forallb keeps_stream evs = true →
  data (store m') = last_item (data (store m)) evs ∧
  input (store m') = input (store m).
Proof.
  induction evs as [|ev evs IH]; simpl; intros m m' Hrun Hall.
  - by apply (inj Some) in Hrun as <-.
  - destruct (step c m ev) as [m1|] eqn:Hstep; [|done]. simpl in Hrun.
    apply andb_prop in Hall as [Hev Hall].
    destruct (sux_step_keeps c m ev m1 Hstep Hev) as [Hd Hi].
    destruct (IH m1 m' Hrun Hall) as [Hd' Hi'].
    unfold last_item in *. simpl in Hd. by rewrite Hd', Hi', Hd, Hi.
Qed.

(** Every handle but the one opened last has been unsubscribed. *)
Definition no_leak m : Prop :=
  ∀ k, S k < length (subs m) → EUnsubscribe k ∈ trace m.

Lemma sux_no_leak_grow m (st : State Val) (f : StopFn)
    (tr : list (Effect Val)) :
  no_leak m →
  no_leak {| store := st; stop := f; subs := subs m; trace := trace m ++ tr |}.
Proof.
  intros H k Hk. simpl in *. apply elem_of_app. left. by apply H.
Qed.

Lemma sux_step_no_leak c m ev m' :
  step c m ev = Some m' → wf m → no_leak m → no_leak m'.
Proof.
  intros Hstep Hwf H.
  destruct ev; cbn [step] in Hstep; unfold on_sub in Hstep;
    rewrite ?su_toggle_eq in Hstep;
    try (destruct (subs m !! k) as [o|]; [|done]; cbn in Hstep);
    apply (inj Some) in Hstep as <-.
  - rewrite su_enable_eq. by apply sux_no_leak_grow.
  - rewrite su_disable_eq. by apply sux_no_leak_grow.
  - destruct (enabled (store m)).
    + rewrite su_disable_eq. by apply sux_no_leak_grow.
    + rewrite su_enable_eq. by apply sux_no_leak_grow.
  - rewrite su_reset_eq. by apply sux_no_leak_grow.
  - destruct (enabled (store m)) eqn:He.
    2: { by rewrite su_subscribe_disabled. }
    rewrite su_subscribe_enabled by done. intros k Hk. simpl in *.
    rewrite length_app in Hk. simpl in Hk.
    destruct (decide (S k < length (subs m))) as [Hlt|Hge].
    + apply elem_of_app. left. by apply H.
    + assert (length (subs m) = S k) as Hlen by lia.
      unfold wf in Hwf. rewrite Hlen in Hwf. rewrite Hwf. simpl.
      apply elem_of_app. right. by left.
  - rewrite su_invoke_eq. by apply sux_no_leak_grow.
  - rewrite su_handle_onStarted_eq. by apply sux_no_leak_grow.
  - rewrite su_handle_onData_eq. by apply sux_no_leak_grow.
  - rewrite su_handle_onError_eq. by apply sux_no_leak_grow.
  - by apply (sux_no_leak_grow m).
Qed.

Lemma sux_reachable_no_leak c m : reachable c m → no_leak m.
Proof.
  intros [evs Hrun].
  enough (∀ m0, run c m0 evs = Some m → wf m0 → no_leak m0 → no_leak m) as H.
  { eapply H; [done|apply su_wf_create|]. intros k Hk. simpl in Hk. lia. }
  clear Hrun. induction evs as [|ev evs IH]; simpl; intros m0 Hrun Hwf H0.
  - by apply (inj Some) in Hrun as <-.
  - destruct (step c m0 ev) as [m1|] eqn:Hstep; [|done]. simpl in Hrun.
    eapply IH; [done|by eapply su_step_wf|by eapply sux_step_no_leak].
Qed.

Lemma sux_toggle_twice m :
  let m2 := (toggle (toggle m).2).2 in
  store m2 = store (reset m).2 ∧
  subs m2 = subs (reset m).2 ∧
  stop m2 = stop (reset m).2.
Proof.
  cbv zeta. rewrite su_reset_eq, (su_toggle_eq m).
  destruct (enabled (store m)) eqn:He.
  - assert (E : enabled (store (disable m).2) = false)
      by (by rewrite su_disable_eq).
    rewrite (su_toggle_eq (disable m).2), E, su_enable_eq, su_disable_eq.
    simpl. split_and!; try done.
    destruct (store m); simpl in *. by subst.
  - assert (E : enabled (store (enable m).2) = true) by done.
    rewrite (su_toggle_eq (enable m).2), E, su_disable_eq.
    simpl. split_and!; try done.
    destruct (store m); simpl in *. by subst.
Qed.

(** *** The values of [status] *)

(** The four strings of the declared type of [status]. *)
Definition declared : list string :=
  ["idle"; "connecting"; "pending"; "error"].

(** A connection-state change, if the event is one, reports a declared
    string. *)
Definition reports_declared (ev : Event Val) : Prop :=
  match ev with
  | ConnectionStateChange _ result => cs_state result ∈ declared
  | _ => True
  end.

Lemma sux_step_status c m ev m' :
  step c m ev = Some m' → reports_declared ev →
  status (store m) ∈ declared → status (store m') ∈ declared.
Proof.
  intros Hstep Hev Hst.
  assert (Hidle : "idle" ∈ declared) by (by left).
  assert (Hconn : "connecting" ∈ declared) by (right; by left).
  assert (Hpend : "pending" ∈ declared) by (do 2 right; by left).
  assert (Herr : "error" ∈ declared) by (do 3 right; by left).
  destruct ev; cbn [step] in Hstep; unfold on_sub in Hstep;
    rewrite ?su_toggle_eq in Hstep;
    try (destruct (subs m !! k) as [o|]; [|done]; cbn in Hstep);
    apply (inj Some) in Hstep as <-.
  - done.
  - by rewrite su_disable_eq.
  - destruct (enabled (store m)); [by rewrite su_disable_eq|done].
  - by rewrite su_reset_eq.
  - destruct (enabled (store m)) eqn:He.
    + by rewrite su_subscribe_enabled.
    + by rewrite su_subscribe_disabled.
  - by rewrite su_invoke_eq.
  - by rewrite su_handle_onStarted_eq.
  - by rewrite su_handle_onData_eq.
  - by rewrite su_handle_onError_eq.
  - done.
Qed.

Lemma sux_run_status c evs : ∀ m m',
  run c m evs = Some m' → Forall reports_declared evs →
  status (store m) ∈ declared → status (store m') ∈ declared.
Proof.
  induction evs as [|ev evs IH]; simpl; intros m m' Hrun Hall Hst.
  - by apply (inj Some) in Hrun as <-.
  - destruct (step c m ev) as [m1|] eqn:Hstep; [|done]. simpl in Hrun.
    apply Forall_cons in Hall as [Hev Hall].
    eapply IH; [done..|]. by eapply sux_step_status.
Qed.
End More.
End SubscriptionMore.

(** ** The demo server's router *)

Module ServerFacts.
Import Server.

Lemma srv_delete_found (i : string) (todos : list Todo) (index : nat)
    (deleted : Todo) :
  list_find (λ todo, id todo = i) todos = Some (index, deleted) →
  id deleted = i ∧
  todos = take index todos ++ deleted :: drop (S index) todos ∧
  delete index todos = take index todos ++ drop (S index) todos ∧
  (∀ t, t ∈ take index todos → id t ≠ i).
Proof.
  intros (Hidx & Hid & Hfirst)%list_find_Some. split_and!.
  - done.
  - by rewrite (take_drop_middle todos index deleted Hidx).
  - apply delete_take_drop.
  - intros t (j & Hj & Hlt)%elem_of_take. by apply (Hfirst j t).
Qed.
End ServerFacts.

(** * Further properties *)

(** X1. On a query or mutation store reached through the store's own
    methods, at most one call can still write to the state: a call whose
    [stopped] local is still false is the call issued last, its closure is
    the one held by [stop], and the store is enabled. *)
Theorem single_writer (Val : Type) :
  (∀ (c : Query.Creator) (m : Query.Machine Val) k cl,
     Query.reachable c m →
     Query.calls m !! k = Some cl → Query.stopped cl = false →
     length (Query.calls m) = S k ∧
     Query.stop m = Query.MarkStopped k ∧
     Query.enabled (Query.store m) = true) ∧
  (∀ (c : Mutation.Creator Val) (m : Mutation.Machine Val) k cl,
     Mutation.reachable c m →
     Mutation.calls m !! k = Some cl → Mutation.stopped cl = false →
     length (Mutation.calls m) = S k ∧
     Mutation.stop m = Mutation.MarkStopped k ∧
     Mutation.enabled (Mutation.store m) = true).
Proof.
  split.
  - intros c m k cl Hreach Hk Hs.
    destruct (QueryFacts.q_reachable_wf c m Hreach k cl Hk Hs) as [Hst He].
    apply QueryMore.qx_reachable_stop_last in Hreach.
    unfold QueryMore.stop_last in Hreach. rewrite Hst in Hreach. done.
  - intros c m k cl Hreach Hk Hs.
    destruct (MutationFacts.mu_reachable_wf c m Hreach k cl Hk Hs)
      as [Hst He].
    apply MutationMore.mux_reachable_stop_last in Hreach.
    unfold MutationMore.stop_last in Hreach. rewrite Hst in Hreach. done.
Qed.

Lemma single_writer_witness :
  let c := Demo.todosStore in
  let evs :=
    [Query.DoQuery (Some "1") None; Query.DoQuery (Some "2") None;
     Query.Settle 0 (inl (Some "stale")); Query.DoQuery (Some "3") None] in
  let m := default (Query.create c)
             (Query.run (Val:=Demo.Val) c (Query.create c) evs) in
  length (Query.calls m) = 3 ∧ Query.stop m = Query.MarkStopped 2.
Proof.
  intros c evs m.
  destruct (single_writer Demo.Val) as [Hq _].
  destruct (Hq c m 2 {| Query.stopped := false; Query.settled := false |}
              (ex_intro _ evs eq_refl) eq_refl eq_refl) as (Hlen & Hst & _).
  exact (conj Hlen Hst).
Defined.

(** X2. On a query or mutation store reached through the store's own
    methods, [loading] is true exactly when some call has neither been
    stopped nor settled: it cannot stay true once the call in flight was
    cancelled or has settled, nor be false while a call can still write. *)
Theorem loading_tracks_call_in_flight (Val : Type) :
  (∀ (c : Query.Creator) (m : Query.Machine Val),
     Query.reachable c m →
     Query.loading (Query.store m) = true ↔
     ∃ k cl, Query.calls m !! k = Some cl ∧
       Query.stopped cl = false ∧ Query.settled cl = false) ∧
  (∀ (c : Mutation.Creator Val) (m : Mutation.Machine Val),
     Mutation.reachable c m →
     Mutation.loading (Mutation.store m) = true ↔
     ∃ k cl, Mutation.calls m !! k = Some cl ∧
       Mutation.stopped cl = false ∧ Mutation.settled cl = false).
Proof.
  split.
  - intros c m Hreach.
    destruct (QueryMore.qx_reachable_loading_inv c m Hreach) as [H1 H2].
    split.
    + intros Hl. destruct (H1 Hl) as (k & cl & H). by exists k, cl.
    + intros (k & cl & H). apply H2. exists k, cl. done.
  - intros c m Hreach.
    destruct (MutationMore.mux_reachable_loading_inv c m Hreach) as [H1 H2].
    split.
    + intros Hl. destruct (H1 Hl) as (k & cl & H). by exists k, cl.
    + intros (k & cl & H). apply H2. exists k, cl. done.
Qed.

Lemma loading_tracks_call_in_flight_witness :
  let c := Demo.todosStore in
  let evs := [Query.DoQuery (Some "1") None; Query.Reset;
              Query.Enable; Query.DoQuery (Some "2") None] in
  let m := default (Query.create c)
             (Query.run (Val:=Demo.Val) c (Query.create c) evs) in
  Query.loading (Query.store m) = true.
Proof.
  intros c evs m.
  destruct (loading_tracks_call_in_flight Demo.Val) as [Hq _].
  apply (Hq c m (ex_intro _ evs eq_refl)).
  exists 1, {| Query.stopped := false; Query.settled := false |}.
  exact (conj eq_refl (conj eq_refl eq_refl)).
Defined.

(** X3. [disable()] sets [enabled] to false and writes [input], [data] and
    [error] back to [undefined] and [loading] to [false] ([status] to "idle"
    on a subscription store). On a query or mutation store every call
    issued before it stays silent whenever it settles afterwards, also after
    the store is enabled again; on a subscription store the handle opened
    last is unsubscribed before the state is written. *)
Theorem disable_clears_and_cancels (Val : Type) :
  (∀ (c : Query.Creator) (m : Query.Machine Val),
     Query.reachable c m →
     let m' := (Query.disable m).2 in
     Query.enabled (Query.store m') = false ∧
     Query.input (Query.store m') = None ∧
     Query.data (Query.store m') = None ∧
     Query.error (Query.store m') = None ∧
     Query.loading (Query.store m') = false ∧
     ∀ k evs m'' r,
       k < length (Query.calls m) →
       Query.run c m' evs = Some m'' →
       Query.awaiting m'' k = true →
       ∃ m3, Query.step c m'' (Query.Settle k r) = Some m3 ∧
         Query.store m3 = Query.store m'' ∧
         Query.trace m3 = Query.trace m'') ∧
  (∀ (c : Mutation.Creator Val) (m : Mutation.Machine Val),
     Mutation.reachable c m →
     let m' := (Mutation.disable m).2 in
     Mutation.enabled (Mutation.store m') = false ∧
     Mutation.input (Mutation.store m') = None ∧
     Mutation.data (Mutation.store m') = None ∧
     Mutation.error (Mutation.store m') = None ∧
     Mutation.loading (Mutation.store m') = false ∧
     ∀ k evs m'' r,
       k < length (Mutation.calls m) →
       Mutation.run c m' evs = Some m'' →
       Mutation.awaiting m'' k = true →
       ∃ m3, Mutation.step c m'' (Mutation.Settle k r) = Some m3 ∧
         Mutation.store m3 = Mutation.store m'' ∧
         Mutation.trace m3 = Mutation.trace m'') ∧
  (∀ (c : Subscription.Creator) (m : Subscription.Machine Val),
     Subscription.reachable c m →
     let m' := (Subscription.disable m).2 in
     Subscription.enabled (Subscription.store m') = false ∧
     Subscription.input (Subscription.store m') = None ∧
     Subscription.data (Subscription.store m') = None ∧
     Subscription.error (Subscription.store m') = None ∧
     Subscription.status (Subscription.store m') = "idle" ∧
     Subscription.trace m' =
       Subscription.trace m ++
         match length (Subscription.subs m) with
         | 0 => []
         | S k => [Subscription.EUnsubscribe k]
         end ++
         [Subscription.ESet
            (Subscription.PEnabled false :: Subscription.initialState)]).
Proof.
  split_and!.
  - intros c m Hreach m'.
    destruct (QueryMore.qx_disable_spec c m Hreach)
      as (Hen & Hi & Hd & He & Hl & Hst).
    split_and!; try done.
    intros k evs m'' r Hk Hrun Haw.
    eapply QueryFacts.q_stopped_silent; [by apply Hst|exact Hrun|exact Haw].
  - intros c m Hreach m'.
    destruct (MutationMore.mux_disable_spec c m Hreach)
      as (Hen & Hi & Hd & He & Hl & Hst).
    split_and!; try done.
    intros k evs m'' r Hk Hrun Haw.
    eapply MutationFacts.mu_stopped_silent;
      [by apply Hst|exact Hrun|exact Haw].
  - intros c m Hreach m'. subst m'.
    rewrite SubscriptionFacts.su_disable_eq. cbn.
    split_and!; try done.
    rewrite (SubscriptionFacts.su_reachable_wf c m Hreach).
    by destruct (length (Subscription.subs m)).
Qed.

Lemma disable_clears_and_cancels_witness :
  let q := Demo.todosStore in
  let mq :=
    default (Query.create q)
      (Query.run (Val:=Demo.Val) q (Query.create q)
         [Query.DoQuery (Some "1") None]) in
  let m' := (Query.disable mq).2 in
  let m'' := (Query.enable m').2 in
  Query.enabled (Query.store m') = false ∧
  ∃ m3, Query.step q m'' (Query.Settle 0 (inl (Some "late"))) = Some m3 ∧
    Query.store m3 = Query.store m'' ∧ Query.data (Query.store m3) = None.
Proof.
  intros q mq m' m''.
  destruct (disable_clears_and_cancels Demo.Val) as (Hq & _ & _).
  destruct (Hq q mq (ex_intro _ [Query.DoQuery (Some "1") None] eq_refl))
    as (Hen & _ & _ & _ & _ & Hsil).
  destruct (Hsil 0 [Query.Enable] m'' (inl (Some "late")) (le_n 1)
              eq_refl eq_refl) as (m3 & Hstep & Hst & _).
  split; [exact Hen|]. exists m3. split; [exact Hstep|].
  split; [exact Hst|]. rewrite Hst. reflexivity.
Defined.

(** X4. Calling [toggle()] twice leaves the store, the closure variable
    [stop] and the calls' locals (the open subscriptions, on a subscription
    store) exactly as one [reset()] leaves them: [enabled] is back to what
    it was and the other fields are cleared, whichever of [enable] and
    [disable] ran first. *)
Theorem toggle_twice_is_reset (Val : Type) :
  (∀ m : Query.Machine Val,
     let m2 := (Query.toggle (Query.toggle m).2).2 in
     Query.store m2 = Query.store (Query.reset m).2 ∧
     Query.calls m2 = Query.calls (Query.reset m).2 ∧
     Query.stop m2 = Query.stop (Query.reset m).2) ∧
  (∀ m : Mutation.Machine Val,
     let m2 := (Mutation.toggle (Mutation.toggle m).2).2 in
     Mutation.store m2 = Mutation.store (Mutation.reset m).2 ∧
     Mutation.calls m2 = Mutation.calls (Mutation.reset m).2 ∧
     Mutation.stop m2 = Mutation.stop (Mutation.reset m).2) ∧
  (∀ m : Subscription.Machine Val,
     let m2 := (Subscription.toggle (Subscription.toggle m).2).2 in
     Subscription.store m2 = Subscription.store (Subscription.reset m).2 ∧
     Subscription.subs m2 = Subscription.subs (Subscription.reset m).2 ∧
     Subscription.stop m2 = Subscription.stop (Subscription.reset m).2).
Proof.
  split_and!.
  - apply QueryMore.qx_toggle_twice.
  - apply MutationMore.mux_toggle_twice.
  - apply SubscriptionMore.sux_toggle_twice.
Qed.

Lemma toggle_twice_is_reset_witness :
  let s := Demo.streamTodosStore in
  let m :=
    default (Subscription.create s)
      (Subscription.run (Val:=Demo.Val) s (Subscription.create s)
         [Subscription.Subscribe (Some "1") None;
          Subscription.Data 0 (Some "v1")]) in
  let m2 := (Subscription.toggle (Subscription.toggle m).2).2 in
  Subscription.data (Subscription.store m) = Some "v1" ∧
  Subscription.enabled (Subscription.store m2) = true ∧
  Subscription.data (Subscription.store m2) = None ∧
  Subscription.status (Subscription.store m2) = "idle".
Proof.
  intros s m m2.
  destruct (toggle_twice_is_reset Demo.Val) as (_ & _ & Hs).
  destruct (Hs m) as (Hst & _ & _).
  split; [reflexivity|]. fold m2 in Hst. rewrite Hst.
  split; [reflexivity|]. split; reflexivity.
Defined.

(** X5. On an enabled query store, a [query(input)] followed directly by
    the settlement of its promise ends with [loading = false] and the input
    stored. When the promise resolves, [data] is the result, [error] is
    [undefined] and the caller's promise resolves with the result; when it
    rejects, [error] is the error, [data] is what it was before the call if
    [keepPreviousData] is true and [undefined] otherwise, and the caller's
    promise rejects with the same error. *)
Theorem query_round_trip (Val : Type) (c : Query.Creator)
    (m : Query.Machine Val) (inp opts : option Val) (r : Settlement Val) :
  Query.enabled (Query.store m) = true →
  let k := length (Query.calls m) in
  ∃ m1 m2,
    Query.query c inp opts m = (Pending k, m1) ∧
    Query.resume k r m1 =
      (match r with
       | inl result => Resolved result
       | inr err => Rejected (Raised err)
       end, m2) ∧
    Query.run c m [Query.DoQuery inp opts; Query.Settle k r] = Some m2 ∧
    Query.store m2 =
      {| Query.enabled := true;
         Query.keepPreviousData := Query.keepPreviousData (Query.store m);
         Query.input := inp;
         Query.loading := false;
         Query.data :=
           match r with
           | inl result => result
           | inr _ =>
               if Query.keepPreviousData (Query.store m)
               then Query.data (Query.store m) else None
           end;
         Query.error := match r with inl _ => None | inr err => err end |}.
Proof.
  intros He k.
  destruct (QueryMore.qx_query_settle c m inp opts r He)
    as (m1 & m2 & H1 & H2 & H3 & H4 & _).
  exists m1, m2. by split_and!.
Qed.

Lemma query_round_trip_witness :
  let c := Demo.todosStore in
  let m :=
    default (Query.create c)
      (Query.run (Val:=Demo.Val) c (Query.create c)
         [Query.DoQuery (Some "1") None; Query.Settle 0 (inl (Some "todos"))]) in
  ∃ m2,
    Query.run c m
      [Query.DoQuery (Some "2") None; Query.Settle 1 (inr (Some "boom"))]
      = Some m2 ∧
    Query.data (Query.store m2) = Some "todos" ∧
    Query.error (Query.store m2) = Some "boom" ∧
    Query.loading (Query.store m2) = false.
Proof.
  intros c m.
  destruct (query_round_trip Demo.Val c m (Some "2") None
              (inr (Some "boom")) eq_refl) as (m1 & m2 & _ & _ & Hrun & Hst).
  exists m2. split; [exact Hrun|]. rewrite Hst.
  split; [reflexivity|]. split; reflexivity.
Defined.

(** X6. On an enabled mutation store, a [mutate(input)] followed directly
    by the settlement of the client's promise ends with [loading = false]
    and the input stored. When the client's promise rejects, [error] is the
    error, [data] is [undefined] whatever it was before the call, and the
    caller's promise rejects with the same error. When it resolves, [data]
    is the result and the refetch loop runs: if [refetchStores()] and every
    [refetch] return, [error] is [undefined] and the caller's promise
    resolves with the result; if one of them throws, the [catch] block
    writes what was thrown to [error], [data] stays the result, and the
    caller's promise rejects with what was thrown. *)
Theorem mutate_round_trip (Val : Type) (c : Mutation.Creator Val)
    (m : Mutation.Machine Val) (inp opts : option Val) (r : Settlement Val) :
  Mutation.enabled (Mutation.store m) = true →
  let k := length (Mutation.calls m) in
  ∃ m1 m2,
    Mutation.mutate c inp opts m = (Pending k, m1) ∧
    Mutation.resume c k r m1 =
      (match r with
       | inl result =>
           match MutationFacts.refetch_thrown c with
           | None => Resolved result
           | Some e => Rejected (Raised e)
           end
       | inr err => Rejected (Raised err)
       end, m2) ∧
    Mutation.run c m [Mutation.Mutate inp opts; Mutation.Settle k r]
      = Some m2 ∧
    Mutation.store m2 =
      {| Mutation.enabled := true;
         Mutation.input := inp;
         Mutation.loading := false;
         Mutation.data :=
           match r with inl result => result | inr _ => None end;
         Mutation.error :=
           match r with
           | inl _ =>
               match MutationFacts.refetch_thrown c with
               | Some e => e
               | None => None
               end
           | inr err => err
           end |} ∧
    Mutation.trace m2 =
      Mutation.trace m1 ++
        match r with
        | inl result =>
            Mutation.ESet [Mutation.PLoading false; Mutation.PData result]
            :: MutationFacts.refetch_effects c
            ++ match MutationFacts.refetch_thrown c with
               | None => []
               | Some e =>
                   [Mutation.ESet [Mutation.PLoading false; Mutation.PError e]]
               end
        | inr err =>
            [Mutation.ESet [Mutation.PLoading false; Mutation.PError err]]
        end.
Proof.
  intros He k.
  destruct (MutationMore.mux_mutate_settle c m inp opts r He)
    as (m1 & m2 & H1 & H2 & H3 & H4 & H5).
  subst k. exists m1, m2. split_and!; [done| |done..].
  rewrite H2. by destruct r.
Qed.

Lemma mutate_round_trip_witness :
  let c := Demo.addTodoStore in
  let m :=
    default (Mutation.create c)
      (Mutation.run c (Mutation.create c)
         [Mutation.Mutate (Some "milk") None;
          Mutation.Settle 0 (inl (Some "todo"))]) in
  let broken : Mutation.StoreApi Demo.Val :=
    {| Mutation.api := "brokenStore";
       Mutation.refetch_throws := Some (Some "boom") |} in
  let c' :=
    Mutation.mutationStoreCreatorFactory "todos.addTodo"
      {| Mutation.opt_enabled := None;
         Mutation.opt_refetchStores :=
           Some (λ _, Normal (Some [broken; Demo.useTodosStore])) |} in
  Mutation.data (Mutation.store m) = Some "todo" ∧
  (∃ m2,
     Mutation.run c m
       [Mutation.Mutate (Some "eggs") None;
        Mutation.Settle 1 (inr (Some "down"))] = Some m2 ∧
     Mutation.data (Mutation.store m2) = None ∧
     Mutation.error (Mutation.store m2) = Some "down") ∧
  (∃ m1 m2,
     Mutation.mutate c' (Some "milk") None (Mutation.create c')
       = (Pending 0, m1) ∧
     Mutation.resume c' 0 (inl (Some "todo")) m1
       = (Rejected (Raised (Some "boom")), m2) ∧
     Mutation.data (Mutation.store m2) = Some "todo" ∧
     Mutation.error (Mutation.store m2) = Some "boom" ∧
     Mutation.loading (Mutation.store m2) = false).
Proof.
  intros c m broken c'. split; [reflexivity|]. split.
  - destruct (mutate_round_trip Demo.Val c m (Some "eggs") None
                (inr (Some "down")) eq_refl)
      as (m1 & m2 & _ & _ & Hrun & Hst & _).
    exists m2. split; [exact Hrun|].
    exact (conj (f_equal Mutation.data Hst) (f_equal Mutation.error Hst)).
  - destruct (mutate_round_trip Demo.Val c' (Mutation.create c')
                (Some "milk") None (inl (Some "todo")) eq_refl)
      as (m1 & m2 & Hmu & Hres & _ & Hst & _).
    exists m1, m2.
    exact (conj Hmu (conj Hres
             (conj (f_equal Mutation.data Hst)
                (conj (f_equal Mutation.error Hst)
                   (f_equal Mutation.loading Hst))))).
Defined.

(** X7. [refetch(opts)] calls the client with the input stored by the last
    [query]: after [query(a)] has gone out and settled, either way, a
    [refetch] issues a new client call with input [a] and the options given
    to [refetch], keeps [input] and sets [loading] again. On a store that
    holds no input, freshly created or reset, it calls the client with
    [undefined]. *)
Theorem refetch_repeats_last_input (Val : Type) (c : Query.Creator)
    (m : Query.Machine Val) (a oa opts : option Val) (r : Settlement Val) :
  Query.enabled (Query.store m) = true →
  let k := length (Query.calls m) in
  (∃ m',
     Query.run c m
       [Query.DoQuery a oa; Query.Settle k r; Query.Refetch opts] = Some m' ∧
     last (Query.trace m') = Some (Query.EClientQuery (S k) (Query.path c) a opts) ∧
     Query.input (Query.store m') = a ∧
     Query.loading (Query.store m') = true) ∧
  (∃ m',
     Query.run c m [Query.Reset; Query.Refetch opts] = Some m' ∧
     last (Query.trace m') = Some (Query.EClientQuery k (Query.path c) None opts) ∧
     Query.input (Query.store m') = None).
Proof.
  intros He k. subst k. split.
  - destruct (QueryMore.qx_query_settle c m a oa r He)
      as (m1 & m2 & _ & _ & Hrun & Hst & Hlen).
    assert (He2 : Query.enabled (Query.store m2) = true) by (by rewrite Hst).
    destruct (QueryMore.qx_refetch_spec c m2 opts He2)
      as (m' & Hre & Hin & Htr).
    exists m'. split_and!.
    + change (Query.run c m
                ([Query.DoQuery a oa; Query.Settle (length (Query.calls m)) r]
                 ++ [Query.Refetch opts]) = Some m').
      rewrite QueryMore.qx_run_app, Hrun. cbn. by rewrite Hre.
    + rewrite Htr, Hlen, last_app. cbn. by rewrite Hst.
    + by rewrite Hin, Hst.
    + rewrite QueryFacts.q_refetch_eq, QueryFacts.q_query_enabled in Hre
        by done.
      by injection Hre as <-.
  - cbn [Query.run Query.step mbind option_bind].
    eexists. split; [reflexivity|].
    rewrite QueryFacts.q_reset_eq. cbn [snd].
    rewrite QueryFacts.q_refetch_eq, QueryFacts.q_query_enabled by done.
    cbn. rewrite last_app. cbn.
    by rewrite QueryFacts.q_stop_calls_length.
Qed.

Lemma refetch_repeats_last_input_witness :
  let c := Demo.todosStore in
  ∃ m',
    Query.run (Val:=Demo.Val) c (Query.create c)
      [Query.DoQuery (Some "1") None; Query.Settle 0 (inl (Some "todos"));
       Query.Refetch None] = Some m' ∧
    last (Query.trace m')
      = Some (Query.EClientQuery 1 "todos.getTodos" (Some "1") None) ∧
    Query.input (Query.store m') = Some "1".
Proof.
  intros c.
  destruct (refetch_repeats_last_input Demo.Val c (Query.create c)
              (Some "1") None None (inl (Some "todos")) eq_refl)
    as ((m' & Hrun & Hlast & Hin & _) & _).
  exists m'. exact (conj Hrun (conj Hlast Hin)).
Defined.

(** X8. On a subscription store, over any run of transport events
    (started, item, error, connection-state change), [enable] calls and
    cancel calls, [data] holds the item delivered last, or what it held
    before the run when no item was delivered: neither an error nor a
    connection-state change nor a cancel clears it. [input] is not touched
    by such a run. *)
Theorem data_holds_last_item (Val : Type) (c : Subscription.Creator)
    (m m' : Subscription.Machine Val) (evs : list (Subscription.Event Val)) :
  forallb SubscriptionMore.keeps_stream evs = true →
  Subscription.run c m evs = Some m' →
  Subscription.data (Subscription.store m')
    = SubscriptionMore.last_item (Subscription.data (Subscription.store m)) evs ∧
  Subscription.input (Subscription.store m')
    = Subscription.input (Subscription.store m).
Proof.
  intros Hall Hrun. by eapply SubscriptionMore.sux_run_keeps.
Qed.

Lemma data_holds_last_item_witness :
  let s := Demo.streamTodosStore in
  let m := (Subscription.subscribe (Val:=Demo.Val) s (Some "1") None
              (Subscription.create s)).2 in
  let evs :=
    [Subscription.Started 0; Subscription.Data 0 (Some "v1");
     Subscription.Data 0 (Some "v2"); Subscription.Failed 0 (Some "boom");
     Subscription.Cancel (Subscription.Unsubscribe 0)] in
  let m' := default m (Subscription.run s m evs) in
  Subscription.data (Subscription.store m') = Some "v2" ∧
  Subscription.input (Subscription.store m') = Some "1".
Proof.
  intros s m evs m'.
  exact (data_holds_last_item Demo.Val s m m' evs eq_refl eq_refl).
Defined.

(** X9. On a subscription store reached through the store's own methods
    and the transport's events, every handle the client returned has been
    unsubscribed, except possibly the one returned last, and [stop] holds
    the [unsubscribe] of that last handle (or the initial no-op when
    [subscribe] never went through). *)
Theorem superseded_handles_are_unsubscribed (Val : Type)
    (c : Subscription.Creator) (m : Subscription.Machine Val) :
  Subscription.reachable c m →
  (∀ k, S k < length (Subscription.subs m) →
     Subscription.EUnsubscribe k ∈ Subscription.trace m) ∧
  Subscription.stop m =
    match length (Subscription.subs m) with
    | 0 => Subscription.Noop
    | S k => Subscription.Unsubscribe k
    end.
Proof.
  intros Hreach. split.
  - by apply SubscriptionMore.sux_reachable_no_leak in Hreach.
  - by apply SubscriptionFacts.su_reachable_wf in Hreach.
Qed.

Lemma superseded_handles_are_unsubscribed_witness :
  let s := Demo.streamTodosStore in
  let evs :=
    [Subscription.Subscribe (Some "1") None; Subscription.Data 0 (Some "v1");
     Subscription.Subscribe (Some "2") None;
     Subscription.Subscribe (Some "3") None] in
  let m := default (Subscription.create s)
             (Subscription.run (Val:=Demo.Val) s (Subscription.create s) evs) in
  Subscription.EUnsubscribe 0 ∈ Subscription.trace m ∧
  Subscription.EUnsubscribe 1 ∈ Subscription.trace m ∧
  Subscription.stop m = Subscription.Unsubscribe 2.
Proof.
  intros s evs m.
  destruct (superseded_handles_are_unsubscribed Demo.Val s m
              (ex_intro _ evs eq_refl)) as [Hun Hst].
  split; [apply Hun; vm_compute; lia|].
  split; [apply Hun; vm_compute; lia|]. exact Hst.
Defined.

(** X10. On an enabled subscription store reached through its own methods,
    [subscribe(input, opts)] first unsubscribes the handle opened last, if
    there is one, then writes [input], [status = "connecting"] and
    [undefined] to [data] and [error], and only then opens the new
    subscription on the client, passing on the options that are not
    callbacks. It returns the new handle's [unsubscribe], which [stop] now
    holds. *)
Theorem subscribe_replaces_subscription (Val : Type)
    (c : Subscription.Creator) (m : Subscription.Machine Val)
    (inp : option Val) (opts : option (Subscription.SubscribeOpts Val)) :
  Subscription.reachable c m →
  Subscription.enabled (Subscription.store m) = true →
  let n := length (Subscription.subs m) in
  let o := default Subscription.no_opts opts in
  let patch :=
    [Subscription.PInput inp; Subscription.PStatus "connecting";
     Subscription.PData None; Subscription.PError None] in
  ∃ m',
    Subscription.subscribe c inp opts m
      = (inr (Subscription.Unsubscribe n), m') ∧
    Subscription.stop m' = Subscription.Unsubscribe n ∧
    Subscription.subs m' = Subscription.subs m ++ [o] ∧
    Subscription.trace m' =
      Subscription.trace m ++
        match n with
        | 0 => []
        | S k => [Subscription.EUnsubscribe k]
        end ++
        [Subscription.ESet patch;
         Subscription.EClientSubscription n (Subscription.path c) inp
           (Subscription.rest o)] ∧
    Subscription.store m' =
      {| Subscription.enabled := true; Subscription.input := inp;
         Subscription.status := "connecting"; Subscription.data := None;
         Subscription.error := None |}.
Proof.
  intros Hreach He n o patch.
  rewrite SubscriptionFacts.su_subscribe_enabled by done.
  eexists. split; [reflexivity|]. cbn.
  rewrite (SubscriptionFacts.su_reachable_wf c m Hreach). fold n.
  split_and!; try done.
  - by destruct n.
  - by rewrite He.
Qed.

Lemma subscribe_replaces_subscription_witness :
  let s := Demo.streamTodosStore in
  let evs := [Subscription.Subscribe (Some "1") None;
              Subscription.Data 0 (Some "v1")] in
  let m := default (Subscription.create s)
             (Subscription.run (Val:=Demo.Val) s (Subscription.create s) evs) in
  ∃ m',
    Subscription.subscribe s (Some "2") None m
      = (inr (Subscription.Unsubscribe 1), m') ∧
    Subscription.trace m' =
      Subscription.trace m ++
        [Subscription.EUnsubscribe 0;
         Subscription.ESet
           [Subscription.PInput (Some "2"); Subscription.PStatus "connecting";
            Subscription.PData None; Subscription.PError None];
         Subscription.EClientSubscription 1 "todos.streamTodos" (Some "2") None] ∧
    Subscription.data (Subscription.store m') = None.
Proof.
  intros s evs m.
  destruct (subscribe_replaces_subscription Demo.Val s m (Some "2") None
              (ex_intro _ evs eq_refl) eq_refl)
    as (m' & Hsub & _ & _ & Htr & Hst).
  exists m'. split; [exact Hsub|]. split; [exact Htr|].
  exact (f_equal Subscription.data Hst).
Defined.

(** X11. The handlers a subscription store passes to the client carry no
    [stopped] guard. When the active handle has been unsubscribed by
    [reset()], by [disable()] or by its cancel function, an item the
    transport still delivers for that handle is written to [data], with
    [status = "pending"], all the same. *)
Theorem late_item_is_written (Val : Type) (c : Subscription.Creator)
    (m : Subscription.Machine Val) (k : nat)
    (o : Subscription.SubscribeOpts Val) (d : option Val)
    (ev : Subscription.Event Val) :
  Subscription.subs m !! k = Some o →
  Subscription.stop m = Subscription.Unsubscribe k →
  ev = Subscription.Reset ∨ ev = Subscription.Disable ∨
    ev = Subscription.Cancel (Subscription.Unsubscribe k) →
  ∃ m1 m',
    Subscription.step c m ev = Some m1 ∧
    Subscription.EUnsubscribe k ∈ Subscription.trace m1 ∧
    Subscription.step c m1 (Subscription.Data k d) = Some m' ∧
    Subscription.data (Subscription.store m') = d ∧
    Subscription.status (Subscription.store m') = "pending".
Proof.
  intros Hk Hstop Hev.
  assert (Hdata : ∀ m1 : Subscription.Machine Val,
    Subscription.subs m1 = Subscription.subs m →
    ∃ m', Subscription.step c m1 (Subscription.Data k d) = Some m' ∧
      Subscription.data (Subscription.store m') = d ∧
      Subscription.status (Subscription.store m') = "pending").
  { intros m1 Hsubs. cbn [Subscription.step]. unfold Subscription.on_sub.
    rewrite Hsubs, Hk. cbn [mbind option_bind].
    rewrite SubscriptionFacts.su_handle_onData_eq.
    eexists. split; [reflexivity|]. done. }
  assert (Hin : ∀ tr1 tr2 : list (Subscription.Effect Val),
    Subscription.EUnsubscribe k ∈
      tr1 ++ SubscriptionFacts.invoked (Subscription.Unsubscribe k) ++ tr2).
  { intros tr1 tr2. apply elem_of_app. right. by left. }
  destruct Hev as [->|[->| ->]]; cbn [Subscription.step].
  - destruct (Hdata (Subscription.reset m).2) as (m' & H1 & H2 & H3).
    { by rewrite SubscriptionFacts.su_reset_eq. }
    exists (Subscription.reset m).2, m'. split_and!; try done.
    rewrite SubscriptionFacts.su_reset_eq, Hstop. apply Hin.
  - destruct (Hdata (Subscription.disable m).2) as (m' & H1 & H2 & H3).
    { by rewrite SubscriptionFacts.su_disable_eq. }
    exists (Subscription.disable m).2, m'. split_and!; try done.
    rewrite SubscriptionFacts.su_disable_eq, Hstop. apply Hin.
  - destruct (Hdata (Subscription.invoke (Subscription.Unsubscribe k) m).2)
      as (m' & H1 & H2 & H3).
    { by rewrite SubscriptionFacts.su_invoke_eq. }
    exists (Subscription.invoke (Subscription.Unsubscribe k) m).2, m'.
    split_and!; try done.
    rewrite SubscriptionFacts.su_invoke_eq. cbn.
    apply elem_of_app. right. by left.
Qed.

Lemma late_item_is_written_witness :
  let s := Demo.streamTodosStore in
  let m := (Subscription.subscribe (Val:=Demo.Val) s (Some "1") None
              (Subscription.create s)).2 in
  ∃ m1 m',
    Subscription.step s m Subscription.Reset = Some m1 ∧
    Subscription.status (Subscription.store m1) = "idle" ∧
    Subscription.step s m1 (Subscription.Data 0 (Some "late")) = Some m' ∧
    Subscription.data (Subscription.store m') = Some "late" ∧
    Subscription.status (Subscription.store m') = "pending".
Proof.
  intros s m.
  destruct (late_item_is_written Demo.Val s m 0 Subscription.no_opts
              (Some "late") Subscription.Reset eq_refl eq_refl
              (or_introl eq_refl)) as (m1 & m' & Hs1 & _ & Hs2 & Hd & Hst).
  exists m1, m'. split; [exact Hs1|]. split.
  { cbn [Subscription.step] in Hs1. apply (inj Some) in Hs1 as <-.
    reflexivity. }
  exact (conj Hs2 (conj Hd Hst)).
Defined.

(** X12. Calling the proxy reached through the segments [s1 ... sn] and
    then [queryStore], [mutationStore] or [subscriptionStore] runs the
    matching store factory with the path ["s1.s2. ... .sn"] (the empty
    string when there is no segment) and with the first argument of the
    call, or [{}] when the call has no argument or [undefined] as its first
    one; further arguments are ignored. *)
Theorem store_factory_dispatch (Val : Type) (segments : list string)
    (args : list (option (Dispatch.StoreOpts Val))) :
  let o := default Dispatch.empty_opts (mjoin (head args)) in
  let path := String.concat "." segments in
  let reach op :=
    Dispatch.traverse Dispatch.createTRPCZustand (segments ++ [op]) in
  Dispatch.apply (reach "queryStore") args =
    Dispatch.QueryStore
      (Query.queryStoreCreatorFactory path
         {| Query.opt_enabled := Dispatch.enabled o;
            Query.opt_keepPreviousData := Dispatch.keepPreviousData o |}) ∧
  Dispatch.apply (reach "mutationStore") args =
    Dispatch.MutationStore
      (Mutation.mutationStoreCreatorFactory path
         {| Mutation.opt_enabled := Dispatch.enabled o;
            Mutation.opt_refetchStores := Dispatch.refetchStores o |}) ∧
  Dispatch.apply (reach "subscriptionStore") args =
    Dispatch.SubscriptionStore
      (Subscription.subscriptionStoreCreatorFactory path
         {| Subscription.opt_enabled := Dispatch.enabled o |}).
Proof.
  intros o path reach. subst reach. cbv beta.
  rewrite !DispatchFacts.traverse_path. unfold Dispatch.apply.
  cbn [Dispatch.proxy_path Dispatch.createTRPCZustand app].
  unfold Dispatch.opPath. rewrite !last_snoc, !removelast_last.
  split_and!.
  - by rewrite decide_True.
  - rewrite decide_False by done. by rewrite decide_True.
  - rewrite !decide_False by done. by rewrite decide_True.
Qed.

Lemma store_factory_dispatch_witness :
  Dispatch.apply (Val:=Demo.Val)
    (Dispatch.traverse Demo.trpc ["todos"; "addTodo"; "mutationStore"])
    [Some {| Dispatch.enabled := None; Dispatch.keepPreviousData := None;
             Dispatch.refetchStores := Some (λ _, Normal (Some [Demo.useTodosStore])) |}]
    = Dispatch.MutationStore Demo.addTodoStore ∧
  Dispatch.apply (Val:=Demo.Val)
    (Dispatch.traverse Demo.trpc ["todos"; "streamTodos"; "subscriptionStore"])
    [] = Dispatch.SubscriptionStore Demo.streamTodosStore.
Proof.
  split.
  - exact (proj1 (proj2 (store_factory_dispatch Demo.Val ["todos"; "addTodo"]
      [Some {| Dispatch.enabled := None; Dispatch.keepPreviousData := None;
               Dispatch.refetchStores :=
                 Some (λ _, Normal (Some [Demo.useTodosStore])) |}]))).
  - exact (proj2 (proj2 (store_factory_dispatch Demo.Val
      ["todos"; "streamTodos"] []))).
Defined.

(** X13. [addTodo] appends the new todo: a [getTodos] for the todo's list
    afterwards returns what it returned before followed by the new todo, a
    [getTodos] for any other list returns what it returned before, and the
    todo returned carries the title and list of the input. *)
Theorem addTodo_appends (uuid input_title input_listId other : string)
    (todos : list Server.Todo) :
  let todo := (Server.addTodo uuid input_title input_listId todos).1 in
  let todos' := (Server.addTodo uuid input_title input_listId todos).2 in
  todo = {| Server.id := uuid; Server.title := input_title;
            Server.listId := input_listId |} ∧
  Server.getTodos input_listId todos'
    = Server.getTodos input_listId todos ++ [todo] ∧
  (other ≠ input_listId →
   Server.getTodos other todos' = Server.getTodos other todos) ∧
  length todos' = S (length todos).
Proof.
  cbn. unfold Server.getTodos. rewrite !filter_app, length_app.
  split_and!.
  - done.
  - rewrite filter_cons_True by done. done.
  - intros Hne. rewrite filter_cons_False by (cbn; congruence).
    by rewrite filter_nil, app_nil_r.
  - cbn. lia.
Qed.

Lemma addTodo_appends_witness :
  let todos :=
    [{| Server.id := "a"; Server.title := "milk"; Server.listId := "1" |};
     {| Server.id := "b"; Server.title := "eggs"; Server.listId := "2" |}] in
  let todos' := (Server.addTodo "c" "tea" "1" todos).2 in
  Server.getTodos "2" todos' = Server.getTodos "2" todos.
Proof.
  intros todos todos'.
  destruct (addTodo_appends "c" "tea" "1" "2" todos) as (_ & _ & Hother & _).
  apply Hother. discriminate.
Defined.

(** X14. [deleteTodo] throws the [NOT_FOUND] error exactly when no todo has
    the given id, and then leaves the array as it is. Otherwise it removes
    the first todo with that id, and only that one, and returns it; the
    todos before and after it keep their order, and a [getTodos] for another
    list than the deleted todo's returns what it returned before. *)
Theorem deleteTodo_removes_first (input_id : string)
    (todos : list Server.Todo) :
  ((∀ t, t ∈ todos → Server.id t ≠ input_id) ∧
   Server.deleteTodo input_id todos =
     (inl {| Server.code := "NOT_FOUND";
             Server.message := "Todo not found" |}, todos)) ∨
  (∃ before deleted after,
     todos = before ++ deleted :: after ∧
     Server.id deleted = input_id ∧
     (∀ t, t ∈ before → Server.id t ≠ input_id) ∧
     Server.deleteTodo input_id todos = (inr deleted, before ++ after) ∧
     ∀ other, other ≠ Server.listId deleted →
       Server.getTodos other (before ++ after) = Server.getTodos other todos).
Proof.
  unfold Server.deleteTodo.
  destruct (list_find _ todos) as [[index deleted]|] eqn:Hfind.
  - right.
    destruct (ServerFacts.srv_delete_found _ _ _ _ Hfind)
      as (Hid & Hsplit & Hdel & Hfirst).
    exists (take index todos), deleted, (drop (S index) todos).
    split_and!; try done.
    + by rewrite Hdel.
    + intros other Hne. rewrite Hsplit at 3. unfold Server.getTodos.
      rewrite !filter_app. f_equal.
      by rewrite filter_cons_False by (cbn; congruence).
  - left. split; [|done].
    apply list_find_None in Hfind. rewrite Forall_forall in Hfind.
    intros t Ht. by apply Hfind.
Qed.

Lemma deleteTodo_removes_first_witness :
  let a := {| Server.id := "a"; Server.title := "milk";
              Server.listId := "1" |} in
  let b := {| Server.id := "b"; Server.title := "eggs";
              Server.listId := "2" |} in
  (∃ before deleted after,
     [a; b; a] = before ++ deleted :: after ∧
     Server.id deleted = "a" ∧
     Server.deleteTodo "a" [a; b; a] = (inr deleted, before ++ after)) ∧
  Server.deleteTodo "a" [a; b; a] = (inr a, [b; a]).
Proof.
  intros a b. split; [|reflexivity].
  destruct (deleteTodo_removes_first "a" [a; b; a])
    as [[_ H]|(before & deleted & after & Hsplit & Hid & _ & H & _)].
  - discriminate H.
  - exists before, deleted, after. exact (conj Hsplit (conj Hid H)).
Defined.

(** X15. When the id [crypto.randomUUID()] returned is carried by no stored
    todo, deleting the todo just added returns that todo and leaves the
    array exactly as it was before it was added. *)
Theorem add_then_delete (uuid input_title input_listId : string)
    (todos : list Server.Todo) :
  (∀ t, t ∈ todos → Server.id t ≠ uuid) →
  let added := Server.addTodo uuid input_title input_listId todos in
  Server.deleteTodo uuid added.2 = (inr added.1, todos).
Proof.
  intros Hfresh added. subst added. cbn [fst snd Server.addTodo].
  unfold Server.deleteTodo.
  set (todo := {| Server.id := uuid; Server.title := input_title;
                  Server.listId := input_listId |}).
  assert (Hfind : list_find (λ t, Server.id t = uuid) (todos ++ [todo])
                  = Some (length todos, todo)).
  { apply list_find_Some. split_and!.
    - by rewrite lookup_app_r, Nat.sub_diag.
    - done.
    - intros j y Hj Hlt. rewrite lookup_app_l in Hj by done.
      apply Hfresh. by eapply list_elem_of_lookup_2. }
  rewrite Hfind. by rewrite delete_middle, app_nil_r.
Qed.

Lemma add_then_delete_witness :
  let a := {| Server.id := "a"; Server.title := "milk";
              Server.listId := "1" |} in
  Server.deleteTodo "c" (Server.addTodo "c" "tea" "1" [a]).2
    = (inr {| Server.id := "c"; Server.title := "tea";
              Server.listId := "1" |}, [a]).
Proof.
  intros a. apply (add_then_delete "c" "tea" "1" [a]).
  intros t Ht. apply list_elem_of_singleton in Ht as ->. discriminate.
Defined.

(** X16. When the stored todos carry pairwise distinct ids, they still do
    after [addTodo] with an id none of them carries and after [deleteTodo];
    and after a [deleteTodo] no stored todo carries the deleted id any
    more. *)
Theorem ids_stay_distinct (todos : list Server.Todo) :
  NoDup (Server.id <$> todos) →
  (∀ uuid input_title input_listId,
     (∀ t, t ∈ todos → Server.id t ≠ uuid) →
     NoDup (Server.id <$>
              (Server.addTodo uuid input_title input_listId todos).2)) ∧
  (∀ input_id,
     NoDup (Server.id <$> (Server.deleteTodo input_id todos).2) ∧
     ∀ t, t ∈ (Server.deleteTodo input_id todos).2 →
       Server.id t ≠ input_id).
Proof.
  intros Hnd. split.
  - intros uuid input_title input_listId Hfresh. cbn.
    rewrite fmap_app. apply NoDup_app. split_and!.
    + done.
    + intros i (t & -> & Ht)%list_elem_of_fmap Hin.
      apply list_elem_of_singleton in Hin. by apply (Hfresh t).
    + apply NoDup_singleton.
  - intros input_id. unfold Server.deleteTodo.
    destruct (list_find _ todos) as [[index deleted]|] eqn:Hfind; cbn.
    + destruct (ServerFacts.srv_delete_found _ _ _ _ Hfind)
        as (Hid & Hsplit & Hdel & Hfirst).
      rewrite Hdel. rewrite Hsplit, fmap_app, fmap_cons in Hnd.
      apply NoDup_app in Hnd as (Hpre & Hdisj & Hpost).
      apply NoDup_cons in Hpost as (Hd & Hpost).
      split.
      * rewrite fmap_app. apply NoDup_app. split_and!; [done| |done].
        intros i Hi Hi'. apply (Hdisj i Hi). by right.
      * intros t [Ht|Ht]%elem_of_app; [by apply Hfirst|].
        intros Heq. apply Hd. rewrite Hid, <- Heq.
        by apply list_elem_of_fmap_2.
    + split; [done|].
      apply list_find_None in Hfind. rewrite Forall_forall in Hfind.
      intros t Ht. by apply Hfind.
Qed.

Lemma ids_stay_distinct_witness :
  let a := {| Server.id := "a"; Server.title := "milk";
              Server.listId := "1" |} in
  let b := {| Server.id := "b"; Server.title := "eggs";
              Server.listId := "2" |} in
  NoDup (Server.id <$> (Server.deleteTodo "a" [a; b]).2) ∧
  NoDup (Server.id <$> (Server.addTodo "c" "tea" "1" [a; b]).2).
Proof.
  intros a b.
  assert (Hnd : NoDup (Server.id <$> [a; b])).
  { apply NoDup_cons. split.
    - intros Hin. apply list_elem_of_singleton in Hin. discriminate Hin.
    - apply NoDup_singleton. }
  destruct (ids_stay_distinct [a; b] Hnd) as [Hadd Hdel].
  split.
  - exact (proj1 (Hdel "a")).
  - apply Hadd. intros t Ht.
    apply elem_of_cons in Ht as [->|Ht]; [discriminate|].
    apply list_elem_of_singleton in Ht as ->. discriminate.
Defined.

(** X17. On a query or mutation store reached through the store's own
    methods, [loading] and [error] are never set together: while [loading]
    is true [error] is [undefined] (and on a mutation store [data] is
    [undefined] too). *)
Theorem no_error_while_loading (Val : Type) :
  (∀ (c : Query.Creator) (m : Query.Machine Val),
     Query.reachable c m →
     Query.loading (Query.store m) = true →
     Query.error (Query.store m) = None) ∧
  (∀ (c : Mutation.Creator Val) (m : Mutation.Machine Val),
     Mutation.reachable c m →
     Mutation.loading (Mutation.store m) = true →
     Mutation.error (Mutation.store m) = None ∧
     Mutation.data (Mutation.store m) = None).
Proof.
  split.
  - intros c m Hreach. by apply QueryMore.qx_reachable_clean in Hreach as [H _].
  - intros c m Hreach.
    by apply MutationMore.mux_reachable_clean in Hreach as [H _].
Qed.

Lemma no_error_while_loading_witness :
  let c := Demo.todosStore in
  let evs :=
    [Query.DoQuery (Some "1") None; Query.Settle 0 (inr (Some "boom"));
     Query.Refetch None] in
  let m := default (Query.create c)
             (Query.run (Val:=Demo.Val) c (Query.create c) evs) in
  Query.error (Query.store m) = None.
Proof.
  intros c evs m.
  exact (proj1 (no_error_while_loading Demo.Val) c m
           (ex_intro _ evs eq_refl) eq_refl).
Defined.

(** X18. A query or mutation store reached through the store's own methods
    holds nothing while it is disabled: when [enabled] is false, [input],
    [data] and [error] are [undefined] and [loading] is false, whatever
    calls were in flight when it was disabled and however they settle. *)
Theorem disabled_store_is_empty (Val : Type) :
  (∀ (c : Query.Creator) (m : Query.Machine Val),
     Query.reachable c m →
     Query.enabled (Query.store m) = false →
     Query.input (Query.store m) = None ∧
     Query.loading (Query.store m) = false ∧
     Query.data (Query.store m) = None ∧
     Query.error (Query.store m) = None) ∧
  (∀ (c : Mutation.Creator Val) (m : Mutation.Machine Val),
     Mutation.reachable c m →
     Mutation.enabled (Mutation.store m) = false →
     Mutation.input (Mutation.store m) = None ∧
     Mutation.loading (Mutation.store m) = false ∧
     Mutation.data (Mutation.store m) = None ∧
     Mutation.error (Mutation.store m) = None).
Proof.
  split.
  - intros c m Hreach. by apply QueryMore.qx_reachable_clean in Hreach as [_ H].
  - intros c m Hreach.
    by apply MutationMore.mux_reachable_clean in Hreach as [_ H].
Qed.

Lemma disabled_store_is_empty_witness :
  let c := Demo.todosStore in
  let evs :=
    [Query.DoQuery (Some "1") None; Query.Toggle;
     Query.Settle 0 (inl (Some "late"))] in
  let m := default (Query.create c)
             (Query.run (Val:=Demo.Val) c (Query.create c) evs) in
  Query.data (Query.store m) = None ∧ Query.input (Query.store m) = None.
Proof.
  intros c evs m.
  destruct (proj1 (disabled_store_is_empty Demo.Val) c m
              (ex_intro _ evs eq_refl) eq_refl) as (Hi & _ & Hd & _).
  exact (conj Hd Hi).
Defined.

(** X19. On a subscription store, [status] is one of "idle", "connecting",
    "pending" and "error" after every run, from the store's creation, in
    which each connection-state change the transport reports carries one of
    these four strings: the store's own methods and the other handlers
    write no other value. *)
Theorem status_stays_declared (Val : Type) (c : Subscription.Creator)
    (m : Subscription.Machine Val) (evs : list (Subscription.Event Val)) :
  Forall SubscriptionMore.reports_declared evs →
  Subscription.run c (Subscription.create c) evs = Some m →
  Subscription.status (Subscription.store m)
    ∈ ["idle"; "connecting"; "pending"; "error"].
Proof.
  intros Hall Hrun.
  eapply SubscriptionMore.sux_run_status; [exact Hrun|exact Hall|].
  by left.
Qed.

Lemma status_stays_declared_witness :
  let s := Demo.streamTodosStore in
  let evs :=
    [Subscription.Subscribe (Some "1") None; Subscription.Started 0;
     Subscription.ConnectionStateChange 0
       {| Subscription.cs_state := "connecting";
          Subscription.cs_error := Value "lost" |}] in
  let m := default (Subscription.create s)
             (Subscription.run (Val:=Demo.Val) s (Subscription.create s) evs) in
  Subscription.status (Subscription.store m)
    ∈ ["idle"; "connecting"; "pending"; "error"].
Proof.
  intros s evs m.
  apply (status_stays_declared Demo.Val s m evs); [|reflexivity].
  repeat apply Forall_cons_2; try exact I; [|apply Forall_nil_2].
  right. left.
Defined.

(** X20. The refetch loop of [mutate],
    [refetchStores?.()?.forEach(store => store.getState().refetch())],
    writes nothing to the store. Without a [refetchStores] option and when
    the thunk returns nothing it invokes no [refetch] and returns. When the
    thunk throws, it invokes no [refetch] and throws the same value. When
    the thunk returns an array, [refetch] is invoked on its entries in
    order: on every entry when none throws, and otherwise up to and
    including the first entry whose [refetch] throws, the loop then throwing
    what that [refetch] threw. *)
Theorem refetch_loop_stops_at_first_throw (Val : Type)
    (c : Mutation.Creator Val) (m : Mutation.Machine Val) :
  (Mutation.refetchStores c = None →
   Mutation.refetch_stores c m = (Normal tt, m)) ∧
  (∀ thunk, Mutation.refetchStores c = Some thunk →
     (thunk () = Normal None →
      Mutation.refetch_stores c m = (Normal tt, m)) ∧
     (∀ e, thunk () = Throw e →
        Mutation.refetch_stores c m = (Throw e, m)) ∧
     (∀ stores, thunk () = Normal (Some stores) →
        Forall (λ s, Mutation.refetch_throws s = None) stores →
        Mutation.refetch_stores c m =
          (Normal tt,
           {| Mutation.store := Mutation.store m;
              Mutation.stop := Mutation.stop m;
              Mutation.calls := Mutation.calls m;
              Mutation.trace :=
                Mutation.trace m ++
                  (Mutation.ERefetch <$> (Mutation.api <$> stores)) |})) ∧
     (∀ before s e after,
        thunk () = Normal (Some (before ++ s :: after)) →
        Forall (λ s, Mutation.refetch_throws s = None) before →
        Mutation.refetch_throws s = Some e →
        Mutation.refetch_stores c m =
          (Throw e,
           {| Mutation.store := Mutation.store m;
              Mutation.stop := Mutation.stop m;
              Mutation.calls := Mutation.calls m;
              Mutation.trace :=
                Mutation.trace m ++
                  (Mutation.ERefetch <$> (Mutation.api <$> before ++ [s])) |}))) ∧
  Mutation.refetch_stores c m =
    (match MutationFacts.refetch_thrown c with
     | Some e => Throw e
     | None => Normal tt
     end,
     {| Mutation.store := Mutation.store m;
        Mutation.stop := Mutation.stop m;
        Mutation.calls := Mutation.calls m;
        Mutation.trace := Mutation.trace m ++ MutationFacts.refetch_effects c |}).
Proof.
  assert (Hsame : ∀ A (a : A),
    (a, {| Mutation.store := Mutation.store m;
           Mutation.stop := Mutation.stop m;
           Mutation.calls := Mutation.calls m;
           Mutation.trace := Mutation.trace m ++ [] |}) = (a, m)).
  { intros A a. rewrite app_nil_r. by destruct m. }
  split_and!.
  - intros Hnone. rewrite MutationFacts.mu_refetch_stores_eq.
    unfold MutationFacts.refetch_thrown, MutationFacts.refetch_effects.
    rewrite Hnone. apply Hsame.
  - intros thunk Hthunk. split_and!.
    + intros Hvoid. rewrite MutationFacts.mu_refetch_stores_eq.
      unfold MutationFacts.refetch_thrown, MutationFacts.refetch_effects.
      rewrite Hthunk, Hvoid. apply Hsame.
    + intros e He. rewrite MutationFacts.mu_refetch_stores_eq.
      unfold MutationFacts.refetch_thrown, MutationFacts.refetch_effects.
      rewrite Hthunk, He. apply Hsame.
    + intros stores Hstores Hret.
      destruct (MutationFacts.mu_loop_normal stores Hret) as [Hthrown Heff].
      rewrite MutationFacts.mu_refetch_stores_eq.
      unfold MutationFacts.refetch_thrown, MutationFacts.refetch_effects.
      by rewrite Hthunk, Hstores, Hthrown, Heff.
    + intros before s e after Hstores Hret Hs.
      destruct (MutationFacts.mu_loop_throw before s e after Hret Hs)
        as [Hthrown Heff].
      rewrite MutationFacts.mu_refetch_stores_eq.
      unfold MutationFacts.refetch_thrown, MutationFacts.refetch_effects.
      by rewrite Hthunk, Hstores, Hthrown, Heff.
  - apply MutationFacts.mu_refetch_stores_eq.
Qed.

Lemma refetch_loop_stops_at_first_throw_witness :
  let broken : Mutation.StoreApi Demo.Val :=
    {| Mutation.api := "brokenStore";
       Mutation.refetch_throws := Some (Some "boom") |} in
  let thunk : Mutation.RefetchStores Demo.Val :=
    λ _, Normal (Some [Demo.useTodosStore; broken; Demo.useTodosStore]) in
  let c :=
    Mutation.mutationStoreCreatorFactory "todos.addTodo"
      {| Mutation.opt_enabled := None;
         Mutation.opt_refetchStores := Some thunk |} in
  Mutation.refetch_stores c (Mutation.create c) =
    (Throw (Some "boom"),
     {| Mutation.store := Mutation.store (Mutation.create c);
        Mutation.stop := Mutation.Noop;
        Mutation.calls := [];
        Mutation.trace :=
          [Mutation.ERefetch "useTodosStore";
           Mutation.ERefetch "brokenStore"] |}).
Proof.
  intros broken thunk c.
  destruct (refetch_loop_stops_at_first_throw Demo.Val c (Mutation.create c))
    as (_ & Hthunk & _).
  destruct (Hthunk thunk eq_refl) as (_ & _ & _ & Hthrow).
  assert (Hret : Forall (λ s : Mutation.StoreApi Demo.Val,
                           Mutation.refetch_throws s = None)
                   [Demo.useTodosStore])
    by (repeat constructor).
  exact (Hthrow [Demo.useTodosStore] broken (Some "boom")
           [Demo.useTodosStore] eq_refl Hret eq_refl).
Defined.
